(** * Quantam: a shallow embedding of the async pipeline engine (src/src/core.ts)

    The engine composes asynchronous steps into a flow, runs a flow on one
    input ([Quantam.run]) or on many ([Quantam.runMany]), and applies retry
    with backoff, timeouts and cooperative cancellation to every step.

    Conventions of the embedding.
    - JavaScript numbers that the engine computes with (retry counts,
      attempt numbers, millisecond values, indices) are integers, modelled
      as [Z]; the one 32-bit operation of the source, [1 << attempt], has
      its wrap-around written out in [shl].
    - Objects that are mutated through a reference live in an explicit
      store: the Step objects of all flows in a [Heap], the execution
      context of one [run] in the [State] threaded through that run.
    - Time is a virtual clock in milliseconds.  A timer the engine starts
      with [setTimeout(_, ms)] at instant [t] fires at [t + setTimeout ms],
      where [setTimeout] is the delay the timers of Node.js give it: [ms]
      itself when [1 <= ms <= 2^31 - 1], and 1 otherwise.  Code that does not
      await takes no time.
    - An async step function is a resumption ([Async]): it settles, or is
      suspended for some time and continues, reading the context again when
      it is resumed.  What it does depends on its input and on the context
      only.  It rejects with an [Error] object, as the type [Error | null]
      of [lastError] in the source has it; other thrown values are outside
      the embedding.
    - Which of two events that are due at the same instant comes first is
      decided by the engine's timer queue, at a finer grain than the clock
      of the embedding.  The embedding resolves such a tie in a fixed way
      (said at [race], [sleep] and [earliest]); a statement whose
      conclusion depends on the order of two such events is made for
      executions in which they are not due at the same instant.
    - The interleaving of async functions is the one of the event loop: a
      function runs alone from one suspension point to the next.  Within a
      parallel group the members are resumed in the order of their timers;
      in [runMany] the order in which the awaited runs settle is a
      parameter of the model.
    - Every executor returns the events it performed (a [Trace]) next to its
      result, so that invocations and backoff sleeps can be counted.

    The file has the embedding first ([Step], [Quantam]), then the
    definitions the statements use, then the facts: builders, step
    executor, pipeline runner, parallel groups, the agreement of the two
    readings of [executeSingleStep], batch scheduler; then further
    properties of the builders and the runner, of the step executor, of
    groups and of batches; and the tests of the repository run on the
    embedding. *)

From Stdlib Require Import ZArith Lia.
From stdpp Require Import base tactics option list strings pretty.

Local Open Scope Z_scope.

(** ** JavaScript primitives used by the engine *)

(** [ToInt32]: wrap an integer into the signed 32-bit range. *)
Definition toInt32 (z : Z) : Z :=
  let m := z mod 2 ^ 32 in
  if m <? 2 ^ 31 then m else m - 2 ^ 32.

(** [a << b]: both operands are converted to 32 bits, the shift count is
    taken modulo 32 and the result is again a signed 32-bit integer. *)
Definition shl (a b : Z) : Z :=
  toInt32 (Z.shiftl (toInt32 a) (Z.land b 31)).

(** Truthiness of an optional number: [undefined] and [0] are falsy. *)
Definition truthy (n : option Z) : bool :=
  match n with
  | Some z => negb (z =? 0)
  | None => false
  end.

(** [n || d] on an optional number. *)
Definition orDefault (n : option Z) (d : Z) : Z :=
  match n with
  | Some z => if z =? 0 then d else z
  | None => d
  end.

(** [a ?? b]: only [undefined] falls through to [b]. *)
Definition nullish {A} (a b : option A) : option A :=
  match a with
  | Some x => Some x
  | None => b
  end.

(** [setTimeout(_, ms)] of Node.js: the delay, in milliseconds, after which
    the timer fires.  A delay below 1 or above 2^31 - 1 is set to 1. *)
Definition setTimeout (ms : Z) : Z :=
  if (1 <=? ms) && (ms <=? 2147483647) then ms else 1.

(** [s.includes(sub)]. *)
Fixpoint includes (s sub : string) : bool :=
  String.prefix sub s ||
  match s with
  | EmptyString => false
  | String _ s' => includes s' sub
  end.

(** ** Data model *)

#[warnings="-register-all"]
Inductive value : Type :=
  | VUndefined
  | VNum (n : Z)
  | VStr (s : string)
  | VArr (vs : list value).

(** An [Error] object; only its message is read by the engine. *)
Record Error : Type := mkError { message : string }.

(** An [AbortSignal]: [abortedAt] is the instant at which its controller
    aborts it ([None]: never).  Once aborted it stays aborted. *)
Record AbortSignal : Type := mkSignal { abortedAt : option Z }.

Record ExecutionContext : Type := mkContext {
  signal : option AbortSignal;
  stepIndex : Z;
  stepName : option string;
  retryCount : Z
}.

Definition set_retryCount (n : Z) (c : ExecutionContext) : ExecutionContext :=
  {| signal := signal c; stepIndex := stepIndex c;
     stepName := stepName c; retryCount := n |}.

(** The promise of an async function: settled, or suspended for [ms]
    milliseconds of the clock (no time when [ms] is negative), after which
    the body continues.  The continuation is handed the context as it is at
    that moment: the function holds a reference to the context object, not
    a copy.  A rejection carries an [Error] object. *)
Inductive Async : Type :=
  | Resolve (v : value)
  | Reject (e : Error)
  | Wait (ms : Z) (k : ExecutionContext -> Async).

(** [AsyncFn]: called with the input and the context; the call itself runs
    the body up to its first suspension. *)
Definition AsyncFn : Type := value -> ExecutionContext -> Async.

(** How a promise ends.  [Pending] is a promise that has not settled within
    the fuel given to an event loop. *)
Inductive Settled (A : Type) : Type :=
  | Resolved (v : A)
  | Rejected (e : Error)
  | Pending.
Arguments Resolved {A} v.
Arguments Rejected {A} e.
Arguments Pending {A}.

Module Step.

Inductive StepType : Type := single | parallel.

(** The [Step] interface; an absent field is [None]. *)
Record t : Type := mk {
  type : StepType;
  fn : option AsyncFn;
  fns : option (list AsyncFn);
  retries : option Z;
  retryDelay : option Z;
  timeout : option Z;
  name : option string
}.

(** [step.name = label]. *)
Definition set_name (label : string) (s : t) : t :=
  {| type := type s; fn := fn s; fns := fns s; retries := retries s;
     retryDelay := retryDelay s; timeout := timeout s; name := Some label |}.

(** [step.retries = count; step.retryDelay = delayMs]. *)
Definition set_retry (count delayMs : Z) (s : t) : t :=
  {| type := type s; fn := fn s; fns := fns s; retries := Some count;
     retryDelay := Some delayMs; timeout := timeout s; name := name s |}.

(** [step.timeout = ms]. *)
Definition set_timeout (ms : Z) (s : t) : t :=
  {| type := type s; fn := fn s; fns := fns s; retries := retries s;
     retryDelay := retryDelay s; timeout := Some ms; name := name s |}.

End Step.

(** Step objects are allocated in a heap and referred to by their address;
    the [steps] array of a flow holds addresses. *)
Abbreviation loc := nat (only parsing).
Abbreviation Heap := (list Step.t) (only parsing).

Record FlowOptions : Type := mkOptions { opt_signal : option AbortSignal }.

(** [FlowOptions & { concurrency?: number }], the options of [runMany]. *)
Record RunManyOptions : Type := mkManyOptions {
  flowOptions : FlowOptions;
  concurrency : option Z
}.

(** What an executor did, in order: [Invoked], the function of member
    [member] (0 for a single step) was called as attempt [attempt], with the
    context as it was at the call; [Resumed], a suspended function of a
    group member continued and read the context; [Backoff], a backoff timer
    of [ms] milliseconds ran to its end. *)
Inductive Event : Type :=
  | Invoked (member : nat) (attempt : Z) (ctx : ExecutionContext)
  | Resumed (member : nat) (attempt : Z) (ctx : ExecutionContext)
  | Backoff (ms : Z).
Abbreviation Trace := (list Event) (only parsing).

(** The mutable state of one [run]: the clock and the context object. *)
Record State : Type := mkState { now : Z; context : ExecutionContext }.

Definition isInvoked (ev : Event) : bool :=
  match ev with Invoked _ _ _ => true | _ => false end.

(** Number of calls of a step function recorded in a trace. *)
Definition invocations (tr : Trace) : nat := length (List.filter isInvoked tr).

(** The delays of the backoff sleeps recorded in a trace. *)
Definition backoffs (tr : Trace) : list Z :=
  omap (fun ev => match ev with Backoff ms => Some ms | _ => None end) tr.

(** The context seen by the last call recorded in a trace. *)
Definition lastInvoked (tr : Trace) : option ExecutionContext :=
  last (omap (fun ev => match ev with Invoked _ _ c => Some c | _ => None end) tr).

(** ** The engine *)

Module Quantam.

(** An instance of the class: its [steps] array (addresses of Step
    objects), the flow-level timeout and the bound abort signal. *)
Record t : Type := mk {
  steps : list loc;
  timeoutMs : option Z;
  abortSignal : option AbortSignal
}.

(** [quantam()]: a flow without steps. *)
Definition quantam : t :=
  {| steps := []; timeoutMs := None; abortSignal := None |}.

(** *** Builders

    Every builder creates a new instance and copies the [steps] array of
    [this] into it ([[...this.steps]]): the array is new, its elements are
    the same addresses.  [step] and [parallel] push a freshly allocated
    Step object; [name], [retry] and [stepTimeout] assign to fields of the
    object the last address points to. *)

Definition step (fn : AsyncFn) (this : t) (h : Heap) : t * Heap :=
  let newSteps := steps this in
  let pushed :=
    {| Step.type := Step.single; Step.fn := Some fn; Step.fns := None;
       Step.retries := None; Step.retryDelay := None;
       Step.timeout := None; Step.name := None |} in
  ({| steps := newSteps ++ [length h]; timeoutMs := timeoutMs this;
      abortSignal := abortSignal this |}, h ++ [pushed]).

Definition parallel (fns : list AsyncFn) (this : t) (h : Heap) : t * Heap :=
  let newSteps := steps this in
  let pushed :=
    {| Step.type := Step.parallel; Step.fn := None; Step.fns := Some fns;
       Step.retries := None; Step.retryDelay := None;
       Step.timeout := None; Step.name := None |} in
  ({| steps := newSteps ++ [length h]; timeoutMs := timeoutMs this;
      abortSignal := abortSignal this |}, h ++ [pushed]).

(** The common shape of [name], [retry] and [stepTimeout]: copy the array,
    then, if it is not empty, update the object at its last address. *)
Definition configureLast (f : Step.t -> Step.t) (this : t) (h : Heap) : t * Heap :=
  let newFlow :=
    {| steps := steps this; timeoutMs := timeoutMs this;
       abortSignal := abortSignal this |} in
  match last (steps newFlow) with
  | Some lastStep => (newFlow, alter f lastStep h)
  | None => (newFlow, h)
  end.

Definition name (label : string) : t -> Heap -> t * Heap :=
  configureLast (Step.set_name label).

(** [delayMs] has the default value 100 when the argument is omitted. *)
Definition retry (count : Z) (delayMs : option Z) : t -> Heap -> t * Heap :=
  configureLast (Step.set_retry count (default 100 delayMs)).

Definition stepTimeout (ms : Z) : t -> Heap -> t * Heap :=
  configureLast (Step.set_timeout ms).

Definition withSignal (sig : AbortSignal) (this : t) (h : Heap) : t * Heap :=
  ({| steps := steps this; timeoutMs := timeoutMs this;
      abortSignal := Some sig |}, h).

Definition timeout (ms : Z) (this : t) (h : Heap) : t * Heap :=
  ({| steps := steps this; timeoutMs := Some ms;
      abortSignal := abortSignal this |}, h).

(** *** Cancellation and timers *)

(** [signal?.aborted] read at instant [t]. *)
Definition aborted (sig : option AbortSignal) (t : Z) : bool :=
  match sig with
  | Some s => match abortedAt s with Some a => a <=? t | None => false end
  | None => false
  end.

(** [checkAborted]: the error it throws, if it throws. *)
Definition checkAborted (sig : option AbortSignal) (t : Z) : option Error :=
  if aborted sig t then Some (mkError "Pipeline aborted") else None.

(** [createTimeout ms]: a promise that rejects once the timer started with
    [setTimeout(_, ms)] has fired; the pair is the time it takes and the
    error.  The message shows [ms] as the template literal prints an
    integer below 10^21: in decimal digits. *)
Definition createTimeout (ms : Z) : Z * Error :=
  (setTimeout ms, mkError ("Timeout after " +:+ pretty ms +:+ "ms")).

(** [sleep ms signal] called at instant [t]: the instant at which its
    promise settles, and the error if it rejects.  An aborted signal rejects
    at once; an abort before the timer fires rejects at the abort.  An
    abort at the very instant at which the timer is due comes first: the
    signal counts as aborted from that instant on. *)
Definition sleep (ms : Z) (sig : option AbortSignal) (t : Z) : Z * option Error :=
  if aborted sig t then (t, Some (mkError "Sleep aborted"))
  else
    let wake := t + setTimeout ms in
    match sig ≫= abortedAt with
    | Some a => if a <=? wake then (a, Some (mkError "Sleep aborted")) else (wake, None)
    | None => (wake, None)
    end.

(** A step function running on its own: nothing else writes the context
    while it is suspended, so every continuation reads [ctx].  The result is
    the time the promise takes to settle and how it settles. *)
Fixpoint settle (ctx : ExecutionContext) (p : Async) : Z * Settled value :=
  match p with
  | Resolve v => (0, Resolved v)
  | Reject e => (0, Rejected e)
  | Wait ms k => let '(d, r) := settle ctx (k ctx) in (Z.max 0 ms + d, r)
  end.

(** [Promise.race([promise, timer])]: the first to settle decides.  When
    both are due at the same instant the embedding lets the step function's
    promise win, as the engine does when that promise hangs on one timer
    started by the call itself, before [createTimeout] started its own; a
    promise that comes due at that instant through a later timer may lose
    to the timeout in the engine. *)
Definition race (promise : Z * Settled value) (timer : Z * Error) : Z * Settled value :=
  if fst promise <=? fst timer then promise else (fst timer, Rejected (snd timer)).

(** *** The step executor *)

(** The backoff computed in the [catch] block. *)
Definition backoffDelay (retryDelay attempt : Z) : Z :=
  retryDelay * shl 1 attempt.

(** [context.stepName ? ` '${context.stepName}'` : ''] (an empty name is
    falsy). *)
Definition stepLabel (ctx : ExecutionContext) : string :=
  match stepName ctx with
  | Some n => if String.eqb n "" then "" else " '" +:+ n +:+ "'"
  | None => ""
  end.

(** The code after the retry loop: the error [executeSingleStep] throws
    once the loop has ended without returning. *)
Definition afterLoop (lastError : option Error) (ctx : ExecutionContext) : Error :=
  match lastError with
  | Some e =>
      if negb (String.eqb (stepLabel ctx) "") && negb (includes (message e) (stepLabel ctx))
      then mkError (message e +:+ " (at step" +:+ stepLabel ctx +:+ ")")
      else e
  | None => mkError ("Step" +:+ stepLabel ctx +:+ " execution failed")
  end.

(** [stepTimeout ?? this.timeoutMs]. *)
Definition effectiveTimeout (this : t) (stepTimeout : option Z) : option Z :=
  nullish stepTimeout (timeoutMs this).

(** The awaited expression of the [try] block, for the call [fn(input, ctx)]:
    the step function's promise, raced against [createTimeout] when the
    effective timeout is truthy. *)
Definition awaited (this : t) (fn : AsyncFn) (input : value)
    (stepTimeout : option Z) (ctx : ExecutionContext) : Z * Settled value :=
  let promise := settle ctx (fn input ctx) in
  if truthy (effectiveTimeout this stepTimeout)
  then race promise (createTimeout (default 0 (effectiveTimeout this stepTimeout)))
  else promise.

(** The [try] block of one attempt. *)
Definition tryAttempt (this : t) (fn : AsyncFn) (input : value)
    (stepTimeout : option Z) (attempt : Z) (st : State) : Trace * State * Settled value :=
  match checkAborted (signal (context st)) (now st) with
  | Some e => ([], st, Rejected e)
  | None =>
      let ctx := set_retryCount attempt (context st) in
      let result := awaited this fn input stepTimeout ctx in
      ([Invoked 0 attempt ctx],
       {| now := now st + fst result; context := ctx |}, snd result)
  end.

(** The retry loop [for (attempt = 0; attempt <= retries; attempt++)];
    [remaining] counts the iterations that are left, so the loop condition
    holds exactly while it is not zero. *)
Fixpoint attemptLoop (this : t) (fn : AsyncFn) (input : value)
    (retries retryDelay : Z) (stepTimeout : option Z)
    (remaining : nat) (attempt : Z) (lastError : option Error) (st : State)
    : Trace * State * Settled value :=
  match remaining with
  | O => ([], st, Rejected (afterLoop lastError (context st)))
  | S remaining' =>
      match tryAttempt this fn input stepTimeout attempt st with
      | (tr, st1, Rejected error) =>
          if attempt <? retries then
            let delay := backoffDelay retryDelay attempt in
            match sleep delay (signal (context st1)) (now st1) with
            | (t, Some aborted) =>
                (tr, {| now := t; context := context st1 |}, Rejected aborted)
            | (t, None) =>
                let '(tr', st2, r) :=
                  attemptLoop this fn input retries retryDelay stepTimeout
                    remaining' (attempt + 1) (Some error)
                    {| now := t; context := context st1 |} in
                (tr ++ Backoff delay :: tr', st2, r)
            end
          else
            let '(tr', st2, r) :=
              attemptLoop this fn input retries retryDelay stepTimeout
                remaining' (attempt + 1) (Some error) st1 in
            (tr ++ tr', st2, r)
      | settled => settled
      end
  end.

Definition executeSingleStep (this : t) (fn : AsyncFn) (input : value)
    (st : State) (retries retryDelay : Z) (stepTimeout : option Z)
    : Trace * State * Settled value :=
  attemptLoop this fn input retries retryDelay stepTimeout
    (Z.to_nat (retries + 1)) 0 None st.

(** *** Parallel groups

    [executeParallelSteps] calls [executeSingleStep] once per member with
    the same [context] object and awaits [Promise.all].  The member
    executions interleave at their suspension points, so here
    [executeSingleStep] is a resumable task: [Racing] while it awaits the
    step function (raced against the timeout, if there is one), [Sleeping]
    while it awaits the backoff [sleep], [Finished] once its promise has
    settled.  A group of one member ends as [executeSingleStep] above
    does; this is proved below. *)

Inductive Task : Type :=
  | Racing (attempt : Z) (wake : Z) (k : ExecutionContext -> Async)
      (deadline : option (Z * Error))
      (* the step function resumes at [wake]; the timeout fires at [deadline] *)
  | Sleeping (attempt : Z) (wake : Z) (aborted : option Error) (lastError : option Error)
      (* the sleep settles at [wake], rejecting if [aborted] *)
  | Finished (r : Settled value).

Section Member.
Variables (this : t) (input : value) (retries retryDelay : Z) (stepTimeout : option Z).

(** The [catch] block of attempt [attempt], up to the next suspension or
    to the end of the function. *)
Definition failAttempt (attempt : Z) (error : Error) (st : State) : Task :=
  if attempt <? retries then
    let delay := backoffDelay retryDelay attempt in
    let '(t, aborted) := sleep delay (signal (context st)) (now st) in
    Sleeping attempt t aborted (Some error)
  else Finished (Rejected (afterLoop (Some error) (context st))).

(** [await] of the step function's promise [p], which has run up to its
    next suspension. *)
Definition awaitFn (attempt : Z) (deadline : option (Z * Error)) (p : Async)
    (st : State) : Task :=
  match p with
  | Resolve v => Finished (Resolved v)
  | Reject e => failAttempt attempt e st
  | Wait ms k => Racing attempt (now st + Z.max 0 ms) k deadline
  end.

(** The loop head and the [try] block of attempt [attempt], up to the first
    suspension. *)
Definition startAttempt (fn : AsyncFn) (member : nat) (attempt : Z)
    (lastError : option Error) (st : State) : Trace * State * Task :=
  if attempt <=? retries then
    match checkAborted (signal (context st)) (now st) with
    | Some e => ([], st, failAttempt attempt e st)
    | None =>
        let ctx := set_retryCount attempt (context st) in
        let st' := {| now := now st; context := ctx |} in
        let deadline :=
          if truthy (effectiveTimeout this stepTimeout) then
            let timer := createTimeout (default 0 (effectiveTimeout this stepTimeout)) in
            Some (now st + fst timer, snd timer)
          else None in
        ([Invoked member attempt ctx], st', awaitFn attempt deadline (fn input ctx) st')
    end
  else ([], st, Finished (Rejected (afterLoop lastError (context st)))).

(** The instant at which a task is next resumed. *)
Definition dueAt (task : Task) : option Z :=
  match task with
  | Racing _ wake _ (Some (d, _)) => Some (Z.min wake d)
  | Racing _ wake _ None => Some wake
  | Sleeping _ wake _ _ => Some wake
  | Finished _ => None
  end.

(** Resume a task that is due; the clock of [st] is the instant it is due. *)
Definition fire (fn : AsyncFn) (member : nat) (task : Task) (st : State)
    : Trace * State * Task :=
  match task with
  | Racing attempt wake k deadline =>
      match deadline with
      | Some (d, e) =>
          if d <? wake then ([], st, failAttempt attempt e st)
          else ([Resumed member attempt (context st)], st,
                awaitFn attempt deadline (k (context st)) st)
      | None =>
          ([Resumed member attempt (context st)], st,
           awaitFn attempt deadline (k (context st)) st)
      end
  | Sleeping attempt wake (Some e) _ => ([], st, Finished (Rejected e))
  | Sleeping attempt wake None lastError =>
      let '(tr, st', task') := startAttempt fn member (attempt + 1) lastError st in
      (Backoff (backoffDelay retryDelay attempt) :: tr, st', task')
  | Finished r => ([], st, task)
  end.

(** [fns.map(fn => this.executeSingleStep(fn, ...))]: every member is started
    in turn, each running up to its first suspension. *)
Fixpoint startAll (fns : list AsyncFn) (member : nat) (st : State)
    : Trace * State * list (AsyncFn * Task) :=
  match fns with
  | [] => ([], st, [])
  | fn :: rest =>
      let '(tr, st1, task) := startAttempt fn member 0 None st in
      let '(tr', st2, tasks) := startAll rest (S member) st1 in
      (tr ++ tr', st2, (fn, task) :: tasks)
  end.

(** The member that is due first; the earlier member when two are due at
    the same instant (in the engine, the one whose timer was started
    first). *)
Fixpoint earliest (member : nat) (tasks : list (AsyncFn * Task)) : option (nat * Z) :=
  match tasks with
  | [] => None
  | (_, task) :: rest =>
      match dueAt task, earliest (S member) rest with
      | Some t, Some (j, t') => if t <=? t' then Some (member, t) else Some (j, t')
      | Some t, None => Some (member, t)
      | None, r => r
      end
  end.

Definition rejection (task : AsyncFn * Task) : option Error :=
  match snd task with Finished (Rejected e) => Some e | _ => None end.

Definition fulfilment (task : AsyncFn * Task) : option value :=
  match snd task with Finished (Resolved v) => Some v | _ => None end.

(** The event loop under [Promise.all(promises)]: it rejects with the first
    rejection, resolves with the members' values in member order once all
    have resolved, and otherwise resumes the member that is due first. *)
Fixpoint groupLoop (fuel : nat) (tasks : list (AsyncFn * Task)) (st : State)
    : Trace * State * Settled (list value) :=
  match list_find (fun task => is_Some (rejection task)) tasks with
  | Some (_, task) =>
      ([], st, match rejection task with Some e => Rejected e | None => Pending end)
  | None =>
      match earliest 0 tasks with
      | None => ([], st, match mapM fulfilment tasks with
                         | Some vs => Resolved vs
                         | None => Pending
                         end)
      | Some (j, due) =>
          match fuel, tasks !! j with
          | S fuel', Some (fn, task) =>
              let '(tr, st1, task') :=
                fire fn j task {| now := due; context := context st |} in
              let '(tr', st2, r) := groupLoop fuel' (<[j := (fn, task')]> tasks) st1 in
              (tr ++ tr', st2, r)
          | _, _ => ([], st, Pending)
          end
      end
  end.

End Member.

Definition executeParallelSteps (fuel : nat) (this : t) (fns : list AsyncFn)
    (input : value) (st : State) (retries retryDelay : Z) (stepTimeout : option Z)
    : Trace * State * Settled value :=
  let '(tr, st1, tasks) := startAll this input retries retryDelay stepTimeout fns 0 st in
  let '(tr', st2, r) := groupLoop this input retries retryDelay stepTimeout fuel tasks st1 in
  (tr ++ tr', st2,
   match r with
   | Resolved vs => Resolved (VArr vs)
   | Rejected e => Rejected e
   | Pending => Pending
   end).

(** *** The pipeline runner *)

(** The body of [for (let i = 0; i < this.steps.length; i++)], from index
    [i] on; [locs] are the addresses [this.steps[i]], [this.steps[i+1]], ... *)
Fixpoint runLoop (fuel : nat) (h : Heap) (this : t) (i : Z) (locs : list loc)
    (result : value) (st : State) : Trace * State * Settled value :=
  match locs with
  | [] => ([], st, Resolved result)
  | l :: rest =>
      match checkAborted (signal (context st)) (now st) with
      | Some e => ([], st, Rejected e)
      | None =>
          match h !! l with
          | Some step =>
              let ctx :=
                {| signal := signal (context st); stepIndex := i;
                   stepName := Step.name step; retryCount := 0 |} in
              let st1 := {| now := now st; context := ctx |} in
              let awaited :=
                match Step.type step, Step.fn step, Step.fns step with
                | Step.single, Some fn, _ =>
                    executeSingleStep this fn result st1
                      (orDefault (Step.retries step) 0)
                      (orDefault (Step.retryDelay step) 100)
                      (Step.timeout step)
                | Step.parallel, _, Some fns =>
                    executeParallelSteps fuel this fns result st1
                      (orDefault (Step.retries step) 0)
                      (orDefault (Step.retryDelay step) 100)
                      (Step.timeout step)
                | _, _, _ => ([], st1, Resolved result)
                end in
              match awaited with
              | (tr, st2, Resolved v) =>
                  let '(tr', st3, r) := runLoop fuel h this (i + 1) rest v st2 in
                  (tr ++ tr', st3, r)
              | failed => failed
              end
          | None =>
              (* no object at this address: the builders never produce such a
                 flow; the iteration then leaves [result] as it is *)
              runLoop fuel h this (i + 1) rest result st
          end
      end
  end.

(** [run(input, options)], started at instant [t0]. *)
Definition run (fuel : nat) (h : Heap) (this : t) (input : value)
    (options : option FlowOptions) (t0 : Z) : Trace * State * Settled value :=
  let sig :=
    match options ≫= opt_signal with
    | Some s => Some s
    | None => abortSignal this
    end in
  let context :=
    {| signal := sig; stepIndex := 0; stepName := None; retryCount := 0 |} in
  runLoop fuel h this 0 (steps this) input {| now := t0; context := context |}.

(** *** The batch scheduler

    The workers of [runMany] are async functions that share the cursor
    [index] and the array [results].  Between two suspension points a worker
    runs alone, so a worker is either suspended in [await this.run(...)]
    ([Running]) or its promise has settled ([Returned] after [break],
    [Thrown] when the awaited run rejected).  The order in which the awaited
    runs settle is not fixed by the code: it is a parameter [sched] of the
    model, which picks, round after round, one of the workers in flight. *)

Inductive Worker : Type :=
  | Running (currentIndex : nat)
  | Returned
  | Thrown.

Record Pool : Type := mkPool {
  index : nat;                     (* the shared cursor *)
  results : list (option value);   (* [new Array(inputs.length)]; [None] is a hole *)
  workers : list Worker;           (* one entry per call of [worker()] *)
  claimed : list (nat * nat);      (* log: worker and index of every run started *)
  settled : list nat;              (* log: index of every run that has settled *)
  failed : option Error            (* the first rejection [Promise.all] saw *)
}.

Section Batch.
(** How the promise of the call [this.run(inputs[i], options)] made for
    index [i] ends. *)
Variable runOf : nat -> value -> Settled value.
Variable inputs : list value.

(** One pass through the loop head of [worker], up to [await]:
    [const currentIndex = index++], the bounds test, the call of [run]. *)
Definition enter (w : nat) (p : Pool) : Worker * Pool :=
  let currentIndex := index p in
  if (length inputs <=? currentIndex)%nat then
    (Returned,
     {| index := S (index p); results := results p; workers := workers p;
        claimed := claimed p; settled := settled p; failed := failed p |})
  else
    (Running currentIndex,
     {| index := S (index p); results := results p; workers := workers p;
        claimed := claimed p ++ [(w, currentIndex)]; settled := settled p;
        failed := failed p |}).

(** [workers.push(worker())]. *)
Definition spawn (p : Pool) : Pool :=
  let '(wk, p') := enter (length (workers p)) p in
  {| index := index p'; results := results p'; workers := workers p' ++ [wk];
     claimed := claimed p'; settled := settled p'; failed := failed p' |}.

(** The run awaited by worker [w] settles: the worker stores the value and
    goes round the loop again, or rethrows.  (A run that is [Pending] has
    not settled: nothing happens.) *)
Definition settleRun (w : nat) (p : Pool) : Pool :=
  match workers p !! w with
  | Some (Running currentIndex) =>
      match runOf currentIndex (default VUndefined (inputs !! currentIndex)) with
      | Resolved v =>
          let '(wk, p') :=
            enter w {| index := index p;
                       results := <[currentIndex := Some v]> (results p);
                       workers := workers p; claimed := claimed p;
                       settled := settled p ++ [currentIndex];
                       failed := failed p |} in
          {| index := index p'; results := results p';
             workers := <[w := wk]> (workers p');
             claimed := claimed p'; settled := settled p'; failed := failed p' |}
      | Rejected e =>
          {| index := index p; results := results p;
             workers := <[w := Thrown]> (workers p); claimed := claimed p;
             settled := settled p ++ [currentIndex];
             failed := match failed p with Some e0 => Some e0 | None => Some e end |}
      | Pending => p
      end
  | _ => p
  end.

(** The workers that are suspended in [await this.run(...)]. *)
Fixpoint runningFrom (w : nat) (ws : list Worker) : list nat :=
  match ws with
  | [] => []
  | Running _ :: rest => w :: runningFrom (S w) rest
  | _ :: rest => runningFrom (S w) rest
  end.

Definition inFlight (p : Pool) : nat := length (runningFrom 0 (workers p)).

(** The worker whose run settles next. *)
Definition pick (choice : nat) (p : Pool) : option nat :=
  let running := runningFrom 0 (workers p) in
  running !! (choice mod length running)%nat.

(** [rounds] settlements, chosen by [sched] from round [t] on. *)
Fixpoint drain (rounds : nat) (sched : nat -> nat) (t : nat) (p : Pool) : Pool :=
  match rounds with
  | O => p
  | S rounds' =>
      match pick (sched t) p with
      | Some w => drain rounds' sched (S t) (settleRun w p)
      | None => p
      end
  end.

(** The pool right after the [for] loop that starts the workers. *)
Definition startWorkers (workerCount : nat) : Pool :=
  Nat.iter workerCount spawn
    {| index := 0%nat; results := replicate (length inputs) None;
       workers := []; claimed := []; settled := []; failed := None |}.

(** [await Promise.all(workers); return results]. *)
Definition collect (p : Pool) : Settled (list value) :=
  match failed p with
  | Some e => Rejected e
  | None =>
      if forallb (fun wk => match wk with Returned => true | _ => false end) (workers p)
      then Resolved (default VUndefined <$> results p)
      else Pending
  end.

(** [Promise.all(inputs.map(input => this.run(input, options)))]: all runs
    are in flight at once; the first one to reject, in the order in which
    they settle, rejects the whole. *)
Fixpoint firstRejection (rounds : nat) (sched : nat -> nat) (t : nat)
    (waiting : list (Settled value)) : option Error :=
  match rounds with
  | O => None
  | S rounds' =>
      let j := (sched t mod length waiting)%nat in
      match waiting !! j with
      | Some (Rejected e) => Some e
      | _ => firstRejection rounds' sched (S t) (delete j waiting)
      end
  end.

Definition settles (p : Settled value) : bool :=
  match p with Pending => false | _ => true end.

Definition promiseAll (sched : nat -> nat) (promises : list (Settled value))
    : Settled (list value) :=
  let settling := filter settles promises in
  match firstRejection (length settling) sched 0 settling with
  | Some e => Rejected e
  | None =>
      match mapM (fun p => match p with Resolved v => Some v | _ => None end) promises with
      | Some vs => Resolved vs
      | None => Pending
      end
  end.

(** The algorithm of [runMany] over the runs [runOf]. *)
Definition batch (configuredConcurrency : option Z) (sched : nat -> nat)
    : Settled (list value) :=
  let concurrency :=
    match configuredConcurrency with
    | Some c => c
    | None => Z.of_nat (length inputs)
    end in
  if (length inputs =? 0)%nat then Resolved []
  else if (concurrency <=? 0) || (Z.of_nat (length inputs) <=? concurrency) then
    promiseAll sched (imap runOf inputs)
  else
    let workerCount := Z.min concurrency (Z.of_nat (length inputs)) in
    collect (drain (length inputs) sched 0 (startWorkers (Z.to_nat workerCount))).

End Batch.

(** [runMany(inputs, options)]: every entry is a [run] of its own, with a
    context of its own, started at the instant [starts i] at which its
    index is claimed. *)
Definition runMany (fuel : nat) (h : Heap) (this : t) (inputs : list value)
    (options : option RunManyOptions) (starts : nat -> Z) (sched : nat -> nat)
    : Settled (list value) :=
  batch (fun i input => snd (run fuel h this input (flowOptions <$> options) (starts i)))
    inputs (options ≫= concurrency) sched.

End Quantam.

(** ** Definitions used by the statements

    What is read off a result, the properties the claims speak of, and the
    step functions and flows of the examples and of the repository's tests. *)

(** *** Results, contexts and signals *)

(** The three components of what an executor returns. *)
Definition traceOf {A} (x : list Event * State * A) : list Event := fst (fst x).
Definition stateOf {A} (x : list Event * State * A) : State := snd (fst x).
Definition resultOf {A} (x : list Event * State * A) : A := snd x.

Definition startState (sig : option AbortSignal) (t0 : Z) : State :=
  {| now := t0;
     context := {| signal := sig; stepIndex := 0; stepName := None; retryCount := 0 |} |}.

(** The state in which [run] hands a step named [n] to the executor. *)
Definition stateNamed (n : string) : State :=
  {| now := 0;
     context := {| signal := None; stepIndex := 0; stepName := Some n; retryCount := 0 |} |}.

(** A signal that is never aborted (or no signal at all). *)
Definition neverAborted (sig : option AbortSignal) : Prop :=
  forall t, Quantam.aborted sig t = false.

(** The errors the two cancellation points throw. *)
Definition pipelineAborted : Error := mkError "Pipeline aborted".
Definition sleepAborted : Error := mkError "Sleep aborted".

(** A signal that was aborted at instant 0, and a state at instant 7 of a
    run bound to it. *)
Definition abortedSignal : AbortSignal := {| abortedAt := Some 0 |}.
Definition cancelledState : State :=
  {| now := 7;
     context := {| signal := Some abortedSignal; stepIndex := 0;
                   stepName := Some "fetch"; retryCount := 0 |} |}.

(** [options?.signal || this.abortSignal], the signal a run polls. *)
Definition runSignal (this : Quantam.t) (options : option FlowOptions) : option AbortSignal :=
  match options ≫= opt_signal with
  | Some s => Some s
  | None => Quantam.abortSignal this
  end.

(** The context [run] has set up when it hands step [s], at index [i], to
    the executor. *)
Definition contextAt (sig : option AbortSignal) (i : Z) (s : Step.t) : ExecutionContext :=
  {| signal := sig; stepIndex := i; stepName := Step.name s; retryCount := 0 |}.

(** The Step object the last entry of a flow's [steps] array points to. *)
Definition lastStep (flow : Quantam.t) (h : Heap) : option Step.t :=
  last (Quantam.steps flow) ≫= (h !!.).

(** *** Attempts and the propagated failure *)

(** How attempt number [attempt] of a step ends when it is made: the
    function is called with [retryCount = attempt] in the context [ctx] of
    the step, and its promise is awaited (with the timeout race, if any). *)
Definition attemptOf (this : Quantam.t) (fn : AsyncFn) (input : value)
    (stepT : option Z) (ctx : ExecutionContext) (attempt : Z) : Settled value :=
  snd (Quantam.awaited this fn input stepT (set_retryCount attempt ctx)).

(** The delay after which the timer of a step's timeout fires, when a
    timeout is in effect for the step. *)
Definition timeoutTimer (this : Quantam.t) (stepT : option Z) : option Z :=
  if truthy (Quantam.effectiveTimeout this stepT)
  then Some (fst (Quantam.createTimeout (default 0 (Quantam.effectiveTimeout this stepT))))
  else None.

(** A call that takes [d] ms has settled before the timer of the step's
    timeout is due, or no timeout is in effect. *)
Definition inTime (this : Quantam.t) (stepT : option Z) (d : Z) : bool :=
  match timeoutTimer this stepT with
  | Some T => d <? T
  | None => true
  end.

(** The same flow with no flow-level timeout. *)
Definition withoutTimeout (this : Quantam.t) : Quantam.t :=
  {| Quantam.steps := Quantam.steps this; Quantam.timeoutMs := None;
     Quantam.abortSignal := Quantam.abortSignal this |}.

(** The suffix naming a step, and the quoted label the executor looks for. *)
Definition suffixOf (n : string) : string := "(at step '" +:+ n +:+ "')".
Definition quotedLabel (n : string) : string := " '" +:+ n +:+ "'".

(** The message of the propagated failure in the words of the
    specification: suffixed when the step has a name and the message does
    not already contain that suffix. *)
Definition suffixedBySpec (name : option string) (msg : string) : string :=
  match name with
  | Some n => if includes msg (suffixOf n) then msg else msg +:+ " " +:+ suffixOf n
  | None => msg
  end.

(** The message as the executor builds it: suffixed when the step has a
    non-empty name and the message does not contain the quoted label. *)
Definition suffixed (name : option string) (msg : string) : string :=
  match name with
  | Some n =>
      if String.eqb n "" || includes msg (quotedLabel n) then msg
      else msg +:+ " " +:+ suffixOf n
  | None => msg
  end.

(** *** Sequential composition *)

(** The value a step function returns for [x], when it returns one. *)
Definition outputOf (f : AsyncFn) (ctx : ExecutionContext) (x : value) : value :=
  match snd (Quantam.settle ctx (f x ctx)) with
  | Resolved v => v
  | _ => VUndefined
  end.

(** [f_k(...(f_1(x)))] for the step functions of the steps [ss], the first
    of which has index [i]. *)
Fixpoint composition (sig : option AbortSignal) (i : Z) (ss : list Step.t) (x : value) : value :=
  match ss with
  | [] => x
  | s :: rest =>
      match Step.fn s with
      | Some f => composition sig (i + 1) rest (outputOf f (contextAt sig i s) x)
      | None => composition sig (i + 1) rest x
      end
  end.

(** The steps [ss], run one after the other on [x], are single steps of
    which no function throws on the value it is given, and every call has
    returned before the timer of its step's timeout, if any, is due. *)
Fixpoint undisturbed (this : Quantam.t) (sig : option AbortSignal) (i : Z)
    (ss : list Step.t) (x : value) : Prop :=
  match ss with
  | [] => True
  | s :: rest =>
      exists f v,
        Step.type s = Step.single /\ Step.fn s = Some f /\
        snd (Quantam.settle (contextAt sig i s) (f x (contextAt sig i s))) = Resolved v /\
        inTime this (Step.timeout s)
          (fst (Quantam.settle (contextAt sig i s) (f x (contextAt sig i s)))) = true /\
        undisturbed this sig (i + 1) rest v
  end.

(** The time the single steps [ss], the first of which has index [i], take
    one after the other on [x]: each call lasts as long as its promise. *)
Fixpoint sequentialTime (sig : option AbortSignal) (i : Z) (ss : list Step.t) (x : value) : Z :=
  match ss with
  | [] => 0
  | s :: rest =>
      match Step.fn s with
      | Some f =>
          fst (Quantam.settle (contextAt sig i s) (f x (contextAt sig i s)))
          + sequentialTime sig (i + 1) rest (outputOf f (contextAt sig i s) x)
      | None => sequentialTime sig (i + 1) rest x
      end
  end.

(** The signal is not aborted when the run, at instant [t] and index [i],
    goes on to start each of the steps [ss] in turn: step number [j] of
    them starts once the [j] steps before it have returned.  These are the
    instants at which the run polls the signal. *)
Definition notAbortedAtSteps (sig : option AbortSignal) (t : Z) (i : Z)
    (ss : list Step.t) (x : value) : Prop :=
  forall j, (j < length ss)%nat ->
            Quantam.aborted sig (t + sequentialTime sig i (take j ss) x) = false.

(** One call per step, each as attempt 0 with the context of its step. *)
Fixpoint sequentialCalls (sig : option AbortSignal) (i : Z) (ss : list Step.t) : list Event :=
  match ss with
  | [] => []
  | s :: rest => Invoked 0 0 (contextAt sig i s) :: sequentialCalls sig (i + 1) rest
  end.

(** The retry count the run passes to the executor for a step. *)
Definition retriesOf (s : Step.t) : Z := orDefault (Step.retries s) 0.

(** *** Contexts and calls in a parallel group *)

(** An event in which a member function reads the context sees its own
    attempt number in [retryCount]. *)
Definition observesOwnAttempt (ev : Event) : Prop :=
  match ev with
  | Invoked _ attempt ctx | Resumed _ attempt ctx => retryCount ctx = attempt
  | Backoff _ => True
  end.

(** The content of a single context cell, initially [c], after the events
    [tr]: every call writes the context it is made with. *)
Fixpoint cellAfter (c : ExecutionContext) (tr : list Event) : ExecutionContext :=
  match tr with
  | [] => c
  | Invoked _ _ ctx :: rest => cellAfter ctx rest
  | _ :: rest => cellAfter c rest
  end.

(** The events [tr] are those of executions that share one context cell,
    initially [c]: a call by any member writes its attempt number into
    [retryCount] and is made with the cell as it then is; a member that is
    resumed reads the cell as the latest call, by whichever member, left
    it. *)
Fixpoint sharesOneContext (c : ExecutionContext) (tr : list Event) : Prop :=
  match tr with
  | [] => True
  | Invoked _ attempt ctx :: rest =>
      ctx = set_retryCount attempt c /\ sharesOneContext ctx rest
  | Resumed _ _ ctx :: rest => ctx = c /\ sharesOneContext c rest
  | Backoff _ :: rest => sharesOneContext c rest
  end.

(** The context of an event belongs to the step of [c]: same signal, step
    index and step name; and a call sees its own attempt number. *)
Definition sameStep (c : ExecutionContext) (ev : Event) : Prop :=
  match ev with
  | Invoked _ attempt ctx =>
      signal ctx = signal c /\ stepIndex ctx = stepIndex c /\
      stepName ctx = stepName c /\ retryCount ctx = attempt
  | Resumed _ _ ctx =>
      signal ctx = signal c /\ stepIndex ctx = stepIndex c /\ stepName ctx = stepName c
  | Backoff _ => True
  end.

(** Number of calls of the function of member [member] recorded in a
    trace. *)
Definition isInvokedBy (member : nat) (ev : Event) : bool :=
  match ev with Invoked m _ _ => (m =? member)%nat | _ => false end.
Definition invocationsOf (member : nat) (tr : list Event) : nat :=
  length (List.filter (isInvokedBy member) tr).

(** The attempts a task of a group may still start, and what holds of the
    attempt number of a task under retry count [r]. *)
Definition attemptsLeft (r : Z) (task : Quantam.Task) : Z :=
  match task with
  | Quantam.Racing attempt _ _ _ | Quantam.Sleeping attempt _ _ _ => r - attempt
  | Quantam.Finished _ => 0
  end.
Definition attemptInRange (r : Z) (task : Quantam.Task) : Prop :=
  match task with
  | Quantam.Racing attempt _ _ _ => attempt <= r
  | Quantam.Sleeping attempt _ _ _ => attempt < r
  | Quantam.Finished _ => True
  end.

(** The attempts member [j] may still start in the tasks of a group. *)
Definition leftOf (r : Z) (tasks : list (AsyncFn * Quantam.Task)) (j : nat) : Z :=
  match tasks !! j with
  | Some (_, task) => attemptsLeft r task
  | None => 0
  end.

(** *** The two readings of [executeSingleStep] *)

Definition isResumed (ev : Event) : bool :=
  match ev with Resumed _ _ _ => true | _ => false end.

(** The calls and backoff sleeps of a trace, without the resumptions. *)
Definition withoutResumed (tr : list Event) : list Event :=
  List.filter (fun ev => negb (isResumed ev)) tr.

Definition settledMap {A B} (f : A -> B) (s : Settled A) : Settled B :=
  match s with
  | Resolved v => Resolved (f v)
  | Rejected e => Rejected e
  | Pending => Pending
  end.

(** The [catch] block of attempt [attempt] and the rest of the loop, as in
    [Quantam.attemptLoop] with [remaining] iterations left after it. *)
Definition catchBlock (this : Quantam.t) (fn : AsyncFn) (input : value)
    (retries retryDelay : Z) (stepTimeout : option Z)
    (remaining : nat) (attempt : Z) (error : Error) (st : State)
    : list Event * State * Settled value :=
  if attempt <? retries then
    match Quantam.sleep (Quantam.backoffDelay retryDelay attempt)
            (signal (context st)) (now st) with
    | (t, Some aborted) => ([], {| now := t; context := context st |}, Rejected aborted)
    | (t, None) =>
        let '(tr, st', r) :=
          Quantam.attemptLoop this fn input retries retryDelay stepTimeout
            remaining (attempt + 1) (Some error) {| now := t; context := context st |} in
        (Backoff (Quantam.backoffDelay retryDelay attempt) :: tr, st', r)
    end
  else
    Quantam.attemptLoop this fn input retries retryDelay stepTimeout
      remaining (attempt + 1) (Some error) st.

(** Where a member that awaits its step function ends up, given that the
    function's promise, from the state [st] on, takes [d] ms to settle as
    [res]: at the deadline with the timeout error if the deadline comes
    first, else at the settlement. *)
Definition raceEnd (deadline : option (Z * Error)) (st : State) (d : Z)
    : option (Z * Error) :=
  match deadline with
  | Some (T, e) => if T <? now st + d then Some (T, e) else None
  | None => None
  end.

Definition raceState (deadline : option (Z * Error)) (st : State) (d : Z) : State :=
  {| now := match raceEnd deadline st d with
            | Some (T, _) => T
            | None => now st + d
            end;
     context := context st |}.

Definition raceTask (retries retryDelay : Z) (attempt : Z)
    (deadline : option (Z * Error)) (st : State) (d : Z) (res : Settled value)
    : Quantam.Task :=
  match raceEnd deadline st d with
  | Some (_, e) =>
      Quantam.failAttempt retries retryDelay attempt e (raceState deadline st d)
  | None =>
      match res with
      | Resolved v => Quantam.Finished (Resolved v)
      | Rejected e =>
          Quantam.failAttempt retries retryDelay attempt e (raceState deadline st d)
      | Pending => Quantam.Finished Pending
      end
  end.

(** *** The batch scheduler *)

Definition isRunning (wk : Quantam.Worker) : bool :=
  match wk with Quantam.Running _ => true | _ => false end.

(** The runs that have been started and have not settled yet, counted from
    the two logs of the pool. *)
Definition runsInFlight (p : Quantam.Pool) : nat :=
  (length (Quantam.claimed p) - length (Quantam.settled p))%nat.

(** The pool of [runMany] with [C] workers after [k] runs have settled in
    the order chosen by [sched]. *)
Definition poolAfter (runOf : nat -> value -> Settled value) (inputs : list value) (C : Z)
    (sched : nat -> nat) (k : nat) : Quantam.Pool :=
  Quantam.drain runOf inputs k sched 0
    (Quantam.startWorkers inputs (Z.to_nat (Z.min C (Z.of_nat (length inputs))))).

(** How the run of batch entry [i] ends. *)
Definition runOfFlow (fuel : nat) (h : Heap) (this : Quantam.t)
    (options : option RunManyOptions) (starts : nat -> Z)
    : nat -> value -> Settled value :=
  fun i input => snd (Quantam.run fuel h this input (flowOptions <$> options) (starts i)).

(** What holds of the pool at every moment of a batch. *)
Record poolInv (runOf : nat -> value -> Settled value) (inputs : list value)
    (p : Quantam.Pool) : Prop := {
  inv_claimed :
    (Quantam.claimed p).*2 = seq 0 (Nat.min (Quantam.index p) (length inputs));
  inv_results : length (Quantam.results p) = length inputs;
  inv_running : forall w i,
    Quantam.workers p !! w = Some (Quantam.Running i) ->
    (i < Nat.min (Quantam.index p) (length inputs))%nat /\ (w, i) ∈ Quantam.claimed p;
  inv_unique : forall w w' i,
    Quantam.workers p !! w = Some (Quantam.Running i) ->
    Quantam.workers p !! w' = Some (Quantam.Running i) -> w = w';
  inv_stored : forall i,
    Quantam.failed p = None ->
    (i < Nat.min (Quantam.index p) (length inputs))%nat ->
    (exists w, Quantam.workers p !! w = Some (Quantam.Running i)) \/
    (exists v, Quantam.results p !! i = Some (Some v) /\
               runOf i (default VUndefined (inputs !! i)) = Resolved v);
  inv_returned : forall w,
    Quantam.workers p !! w = Some Quantam.Returned ->
    (length inputs <= Quantam.index p)%nat;
  inv_thrown : forall w,
    Quantam.workers p !! w = Some Quantam.Thrown -> Quantam.failed p <> None;
  inv_busy :
    Quantam.failed p = None ->
    (Quantam.index p < length inputs)%nat ->
    Forall (fun wk => isRunning wk = true) (Quantam.workers p);
  inv_logs :
    length (Quantam.claimed p)
    = (length (Quantam.settled p) + Quantam.inFlight p)%nat
}.

(** *** Step functions and flows of the examples *)

(** Step functions of the examples. *)
Definition increment : AsyncFn :=
  fun v _ => match v with
             | VNum n => Resolve (VNum (n + 1))
             | _ => Reject (mkError "not a number")
             end.

Definition double : AsyncFn :=
  fun v _ => match v with
             | VNum n => Resolve (VNum (n * 2))
             | _ => Reject (mkError "not a number")
             end.

Definition alwaysFails : AsyncFn := fun _ _ => Reject (mkError "boom").

(** The step of the test [retries and exposes retryCount]: it throws while
    [retryCount < 2] and returns [n + retryCount] afterwards. *)
Definition transient : AsyncFn :=
  fun v ctx =>
    if retryCount ctx <? 2 then Reject (mkError "transient")
    else match v with
         | VNum n => Resolve (VNum (n + retryCount ctx))
         | _ => Reject (mkError "not a number")
         end.

(** The step of the test [stepTimeout rejects slow step]: 20 ms of work. *)
Definition slow : AsyncFn := fun v ctx => Wait 20 (fun _ => increment v ctx).

(** A step that fails with a message quoting a user called bob, in a flow
    where the step itself is named bob. *)
Definition noUserBob : AsyncFn := fun _ _ => Reject (mkError "no user 'bob'").
Definition flowBob : Quantam.t * Heap :=
  let '(a, h) := Quantam.step noUserBob Quantam.quantam [] in
  Quantam.name "bob" a h.

(** A member that fails its first attempt and succeeds on the second, and a
    member that works for 50 ms and then returns the [retryCount] it reads
    from the context. *)
Definition failsOnce : AsyncFn :=
  fun _ ctx =>
    if retryCount ctx <? 1 then Reject (mkError "transient")
    else Resolve (VNum (retryCount ctx)).
Definition readsLate : AsyncFn :=
  fun _ _ => Wait 50 (fun ctx => Resolve (VNum (retryCount ctx))).

(** [quantam().step(increment).retry(-1)]. *)
Definition flowNegativeRetry : Quantam.t * Heap :=
  let '(a, h) := Quantam.step increment Quantam.quantam [] in
  Quantam.retry (-1) None a h.

(** [quantam().step(increment)] and the flow [.name("x")] derived from it. *)
Definition flowA : Quantam.t * Heap := Quantam.step increment Quantam.quantam [].
Definition flowA_named : Quantam.t * Heap :=
  Quantam.name "x" (fst flowA) (snd flowA).

(** The flow of the test [runs basic sequential pipeline]:
    [quantam().step(n => n + 1).step(n => n * 2)]. *)
Definition flowBasic : Quantam.t * Heap :=
  let '(a, h) := Quantam.step increment Quantam.quantam [] in
  Quantam.step double a h.

(** [quantam().step(transient).retry(3, 1)], the flow of the retry test. *)
Definition flowTransient : Quantam.t * Heap :=
  let '(a, h) := Quantam.step transient Quantam.quantam [] in
  Quantam.retry 3 (Some 1) a h.

(** [quantam().step(slow).stepTimeout(5)], the flow of the timeout test. *)
Definition flowSlow : Quantam.t * Heap :=
  let '(a, h) := Quantam.step slow Quantam.quantam [] in
  Quantam.stepTimeout 5 a h.

(** [quantam().timeout(5).step(slow).stepTimeout(0)]: a flow-level timeout
    of 5 ms and a step timeout of 0 on a step that takes 20 ms. *)
Definition flowStepTimeoutZero : Quantam.t * Heap :=
  let '(a, h) := Quantam.timeout 5 Quantam.quantam [] in
  let '(b, h) := Quantam.step slow a h in
  Quantam.stepTimeout 0 b h.

(** [quantam().step(alwaysFails).retry(1, 0)]. *)
Definition flowZeroDelay : Quantam.t * Heap :=
  let '(a, h) := Quantam.step alwaysFails Quantam.quantam [] in
  Quantam.retry 1 (Some 0) a h.

(** [quantam().step(alwaysFails).retry(33, 1)]. *)
Definition flowLongRetry : Quantam.t * Heap :=
  let '(a, h) := Quantam.step alwaysFails Quantam.quantam [] in
  Quantam.retry 33 (Some 1) a h.

(** [quantam().parallel([failsOnce, readsLate]).retry(1, 10)]. *)
Definition flowGroup : Quantam.t * Heap :=
  let '(a, h) := Quantam.parallel [failsOnce; readsLate] Quantam.quantam [] in
  Quantam.retry 1 (Some 10) a h.

(** The inputs and the step of the test [runMany respects concurrency
    limit]: sixteen numbers, four workers, [n => n + 1]. *)
Definition sixteen : list value := (fun n => VNum (Z.of_nat n)) <$> seq 0 16.
Definition fourWorkers : option RunManyOptions :=
  Some {| flowOptions := {| opt_signal := None |}; concurrency := Some 4 |}.

(** A batch whose first entry is not a number, and one worker. *)
Definition stringFirst : list value := [VStr "x"; VNum 1; VNum 2].
Definition oneWorker : option RunManyOptions :=
  Some {| flowOptions := {| opt_signal := None |}; concurrency := Some 1 |}.

(** An order in which the awaited runs settle and the instants at which
    the entries are started, for the examples. *)
Definition someOrder : nat -> nat := fun t => (7 * t + 3)%nat.
Definition someStarts : nat -> Z := fun i => 5 * Z.of_nat (i / 4).

(** ** Definitions used by the further properties *)

(** *** Chains of builder calls *)

(** A call of one of the seven builder methods, with its arguments. *)
Inductive Builder : Type :=
  | BStep (fn : AsyncFn)
  | BParallel (fns : list AsyncFn)
  | BName (label : string)
  | BRetry (count : Z) (delayMs : option Z)
  | BStepTimeout (ms : Z)
  | BWithSignal (sig : AbortSignal)
  | BTimeout (ms : Z).

(** The call [b] made on the flow [this] in the heap [h]. *)
Definition build (b : Builder) (this : Quantam.t) (h : Heap) : Quantam.t * Heap :=
  match b with
  | BStep fn => Quantam.step fn this h
  | BParallel fns => Quantam.parallel fns this h
  | BName label => Quantam.name label this h
  | BRetry count delayMs => Quantam.retry count delayMs this h
  | BStepTimeout ms => Quantam.stepTimeout ms this h
  | BWithSignal sig => Quantam.withSignal sig this h
  | BTimeout ms => Quantam.timeout ms this h
  end.

(** The calls that assign to the last step; the calls that push a step. *)
Definition configures (b : Builder) : bool :=
  match b with
  | BName _ | BRetry _ _ | BStepTimeout _ => true
  | _ => false
  end.
Definition pushes (b : Builder) : bool :=
  match b with
  | BStep _ | BParallel _ => true
  | _ => false
  end.

(** [quantam()] followed by the calls [bs], each made on the flow the call
    before it returned; [h] holds the Step objects of the flows built
    earlier. *)
Definition chain (bs : list Builder) (h : Heap) : Quantam.t * Heap :=
  foldl (fun fh b => build b (fst fh) (snd fh)) (Quantam.quantam, h) bs.

(** Every address in the [steps] array of the flow has an object in the
    heap, and no address occurs twice. *)
Definition allocated (this : Quantam.t) (h : Heap) : Prop :=
  Forall (fun l => (l < length h)%nat) (Quantam.steps this) /\
  NoDup (Quantam.steps this).

(** *** Runs *)

(** A run followed by one more step: when the run [first] has resolved,
    the signal is polled and the step [next], which has no name, is handed
    the value and the context of index [i]; a run that has failed stays as
    it is. *)
Definition andThen (first : list Event * State * Settled value) (i : Z)
    (next : value -> State -> list Event * State * Settled value)
    : list Event * State * Settled value :=
  match first with
  | (tr, st, Resolved v) =>
      match Quantam.checkAborted (signal (context st)) (now st) with
      | Some e => (tr, st, Rejected e)
      | None =>
          let '(tr', st', r) :=
            next v {| now := now st;
                      context := {| signal := signal (context st); stepIndex := i;
                                    stepName := None; retryCount := 0 |} |} in
          (tr ++ tr', st', r)
      end
  | failed => failed
  end.

(** The context of an event belongs to a step of the flow whose [steps]
    array is [locs]: it carries the signal [sig] of the run, the index of
    the step and the name the Step object has in the heap; a call carries
    its attempt number in [retryCount]. *)
Definition contextOfStep (sig : option AbortSignal) (h : Heap) (locs : list loc)
    (ctx : ExecutionContext) : Prop :=
  signal ctx = sig /\
  exists (i : nat) l s,
    locs !! i = Some l /\ h !! l = Some s /\
    stepIndex ctx = Z.of_nat i /\ stepName ctx = Step.name s.
Definition eventOfRun (sig : option AbortSignal) (h : Heap) (locs : list loc)
    (ev : Event) : Prop :=
  match ev with
  | Invoked _ attempt ctx => contextOfStep sig h locs ctx /\ retryCount ctx = attempt
  | Resumed _ _ ctx => contextOfStep sig h locs ctx
  | Backoff _ => True
  end.

(** [quantam().step(double)] built after [flowA], in the same heap: the
    two flows share no Step object. *)
Definition flowOther : Quantam.t * Heap := chain [BStep double] (snd flowA).

(** *** Attempts, backoff and timeouts *)

(** The time attempt number [attempt] of a step takes, from the call of
    the function to the end of the [await]. *)
Definition attemptTime (this : Quantam.t) (fn : AsyncFn) (input : value)
    (stepT : option Z) (ctx : ExecutionContext) (attempt : Z) : Z :=
  fst (Quantam.awaited this fn input stepT (set_retryCount attempt ctx)).

(** The time the promise of the step function itself takes on that
    attempt. *)
Definition callTime (fn : AsyncFn) (input : value) (ctx : ExecutionContext)
    (attempt : Z) : Z :=
  fst (Quantam.settle (set_retryCount attempt ctx) (fn input (set_retryCount attempt ctx))).

Definition sumZ (l : list Z) : Z := foldr Z.add 0 l.

(** The errors of [createTimeout] and of the end of [executeSingleStep]
    when no attempt was made. *)
Definition timeoutError (ms : Z) : Error :=
  mkError ("Timeout after " +:+ pretty ms +:+ "ms").
Definition executionFailed (ctx : ExecutionContext) : Error :=
  mkError ("Step" +:+ Quantam.stepLabel ctx +:+ " execution failed").

(** A signal whose controller aborts it at instant 10, and a state at
    instant 0 of a run bound to it. *)
Definition abortsAtTen : AbortSignal := {| abortedAt := Some 10 |}.
Definition stateAbortsAtTen : State := startState (Some abortsAtTen) 0.

(** [quantam().step(slow)]: one step of 20 ms. *)
Definition flowSlowOnly : Quantam.t * Heap := chain [BStep slow] [].

(** *** Parallel groups whose members all return *)

(** The number of times a promise suspends before it settles, when the
    context it reads stays [ctx]. *)
Fixpoint waits (ctx : ExecutionContext) (p : Async) : nat :=
  match p with
  | Wait _ k => S (waits ctx (k ctx))
  | _ => 0%nat
  end.

(** The resumptions a task still needs, and those of all tasks. *)
Definition cost (ctx : ExecutionContext) (task : AsyncFn * Quantam.Task) : nat :=
  match snd task with
  | Quantam.Racing _ _ k _ => S (waits ctx (k ctx))
  | _ => 0%nat
  end.
Definition pending (ctx : ExecutionContext) (tasks : list (AsyncFn * Quantam.Task)) : nat :=
  foldr (fun task n => (cost ctx task + n)%nat) 0%nat tasks.

(** The resumptions the members of a group need when each is called with
    [input] and the context stays [ctx]. *)
Definition resumptions (ctx : ExecutionContext) (input : value) (fns : list AsyncFn) : nat :=
  foldr (fun fn n => (waits ctx (fn input ctx) + n)%nat) 0%nat fns.

(** A member that has returned [v], or that awaits, without a timeout, a
    call that resumes no earlier than [t] and will return [v]. *)
Definition returns (ctx : ExecutionContext) (t : Z) (task : AsyncFn * Quantam.Task)
    (v : value) : Prop :=
  match snd task with
  | Quantam.Finished (Resolved v') => v' = v
  | Quantam.Racing _ wake k None =>
      t <= wake /\ snd (Quantam.settle ctx (k ctx)) = Resolved v
  | _ => False
  end.

(** The instant at which a member that is still awaiting its call will
    have returned. *)
Definition finishTime (ctx : ExecutionContext) (task : AsyncFn * Quantam.Task) : option Z :=
  match snd task with
  | Quantam.Racing _ wake k _ => Some (wake + fst (Quantam.settle ctx (k ctx)))
  | _ => None
  end.

(** [M] is the later of the instant [t] and of the instants at which the
    members that are still awaiting will have returned. *)
Definition isLatest (ctx : ExecutionContext) (M t : Z)
    (tasks : list (AsyncFn * Quantam.Task)) : Prop :=
  t <= M /\
  (forall task e, task ∈ tasks -> finishTime ctx task = Some e -> e <= M) /\
  (M = t \/ exists task, task ∈ tasks /\ finishTime ctx task = Some M).

Definition maxZ (l : list Z) : Z := foldr Z.max 0 l.

(** The task of member [fn] right after the group has called it at instant
    [t] with the context [ctx], when no timeout is in effect. *)
Definition startedTask (input : value) (r d : Z) (ctx : ExecutionContext) (t : Z)
    (fn : AsyncFn) : AsyncFn * Quantam.Task :=
  (fn, Quantam.awaitFn r d 0 None (fn input ctx) {| now := t; context := ctx |}).

(** The calls that start a group: member [j] is called as attempt 0. *)
Definition firstCalls (ctx : ExecutionContext) (fns : list AsyncFn) : list Event :=
  imap (fun j _ => Invoked j 0 (set_retryCount 0 ctx)) fns.

(** Three members for the examples: 30 ms, no suspension, 10 ms. *)
Definition after30 : AsyncFn := fun _ _ => Wait 30 (fun _ => Resolve (VStr "a")).
Definition atOnce : AsyncFn := fun _ _ => Resolve (VStr "b").
Definition after10 : AsyncFn := fun _ _ => Wait 10 (fun _ => Resolve (VStr "c")).

(** *** Batches *)

(** The value the run of entry [i] resolves with. *)
Definition valueOfRun (runOf : nat -> value -> Settled value) (i : nat) (x : value) : value :=
  match runOf i x with
  | Resolved v => v
  | _ => VUndefined
  end.

(** The runs of a batch that have not settled yet: those not claimed and
    those in flight. *)
Definition unsettled (inputs : list value) (p : Quantam.Pool) : nat :=
  (length inputs - Nat.min (Quantam.index p) (length inputs) + Quantam.inFlight p)%nat.

(** The rejection [Promise.all(workers)] has seen is the rejection of a
    run of the batch. *)
Definition failedByRun (runOf : nat -> value -> Settled value) (inputs : list value)
    (p : Quantam.Pool) : Prop :=
  forall e, Quantam.failed p = Some e ->
            exists i x, inputs !! i = Some x /\ runOf i x = Rejected e.

(** A batch with an entry that is not a number, and two workers. *)
Definition mixedInputs : list value := [VNum 1; VStr "x"; VNum 3].
Definition twoWorkers : option RunManyOptions :=
  Some {| flowOptions := {| opt_signal := None |}; concurrency := Some 2 |}.
Definition noLimit : option RunManyOptions :=
  Some {| flowOptions := {| opt_signal := None |}; concurrency := None |}.

(** A worker that has thrown had claimed an entry whose run rejects. *)
Definition thrownByRun (runOf : nat -> value -> Settled value) (inputs : list value)
    (p : Quantam.Pool) : Prop :=
  forall w, Quantam.workers p !! w = Some Quantam.Thrown ->
            exists i x e, (w, i) ∈ Quantam.claimed p /\ inputs !! i = Some x /\
                          runOf i x = Rejected e.

(** *** Runs in which nothing goes wrong *)

(** [quantam().step(slow).step(slow)]: two steps of 20 ms. *)
Definition flowTwoSlow : Quantam.t * Heap := chain [BStep slow; BStep slow] [].

(** ** Facts about the primitives *)

(** A timer takes at least 1 ms and at most 2^31 - 1 ms, and exactly its
    delay when the delay is in that range. *)
Lemma setTimeout_bounds ms : 1 <= setTimeout ms <= 2147483647.
Proof.
  unfold setTimeout.
  destruct (Z.leb_spec 1 ms), (Z.leb_spec ms 2147483647); cbn [andb]; lia.
Qed.

Lemma setTimeout_in_range ms : 1 <= ms <= 2147483647 -> setTimeout ms = ms.
Proof.
  intros H. unfold setTimeout.
  destruct (Z.leb_spec 1 ms), (Z.leb_spec ms 2147483647); cbn [andb]; lia.
Qed.

Lemma toInt32_small z : 0 <= z < 2 ^ 31 -> toInt32 z = z.
Proof.
  intros Hz. unfold toInt32.
  rewrite Z.mod_small by lia.
  destruct (Z.ltb_spec z (2 ^ 31)); lia.
Qed.

(** Below the sign bit, [1 << i] is the power of two. *)
Lemma shl_one_pow2 i : 0 <= i <= 30 -> shl 1 i = 2 ^ i.
Proof.
  intros Hi. unfold shl.
  rewrite (toInt32_small 1) by lia.
  change 31 with (Z.ones 5).
  rewrite Z.land_ones, Z.mod_small by lia.
  rewrite Z.shiftl_mul_pow2, Z.mul_1_l by lia.
  apply toInt32_small. split; [lia |].
  apply Z.pow_lt_mono_r; lia.
Qed.

Lemma backoffDelay_pow2 d i :
  0 <= i <= 30 -> Quantam.backoffDelay d i = d * 2 ^ i.
Proof. intros Hi. unfold Quantam.backoffDelay. now rewrite shl_one_pow2. Qed.

Lemma set_retryCount_twice a b c :
  set_retryCount a (set_retryCount b c) = set_retryCount a c.
Proof. reflexivity. Qed.

Lemma includes_prefix s sub : String.prefix sub s = true -> includes s sub = true.
Proof. intros H. destruct s; simpl in *; rewrite H; reflexivity. Qed.

(** ** The builders *)

(** [step] allocates: the objects already in the heap stay as they are. *)
Lemma step_keeps_heap fn this h l :
  (l < length h)%nat -> snd (Quantam.step fn this h) !! l = h !! l.
Proof. intros Hl. simpl. now apply lookup_app_l. Qed.

Lemma step_lastStep fn this h :
  lastStep (fst (Quantam.step fn this h)) (snd (Quantam.step fn this h))
  = Some {| Step.type := Step.single; Step.fn := Some fn; Step.fns := None;
            Step.retries := None; Step.retryDelay := None;
            Step.timeout := None; Step.name := None |}.
Proof.
  unfold lastStep. simpl. rewrite last_snoc. simpl.
  now apply list_lookup_middle.
Qed.

(** What [name], [retry] and [stepTimeout] do to the heap is visible through
    every flow whose last address is the one they configure. *)
Lemma configureLast_lastStep f this h s :
  lastStep this h = Some s ->
  lastStep this (snd (Quantam.configureLast f this h)) = Some (f s).
Proof.
  unfold lastStep, Quantam.configureLast. cbn [Quantam.steps].
  destruct (last (Quantam.steps this)) as [l|] eqn:Hl; cbn [mbind option_bind snd]; [|discriminate].
  intros Hs. rewrite list_lookup_alter_eq, Hs. reflexivity.
Qed.

(** C2: a configuration call is expected to leave the flow it is called on
    as it was.  It does not: for [a = quantam().step(f)], after [a.name(label)],
    [a.retry(count, delay)] or [a.stepTimeout(ms)] the last step of [a]
    itself carries the new name, retry policy or timeout, because the copied
    [steps] array of the new flow points to the same Step object. *)
Theorem configuration_mutates_original_flow :
  forall (f : AsyncFn) (this : Quantam.t) (h : Heap) (label : string) (count delay ms : Z),
    let a := fst (Quantam.step f this h) in
    let h1 := snd (Quantam.step f this h) in
    (Step.name <$> lastStep a h1) = Some None /\
    (Step.retries <$> lastStep a h1) = Some None /\
    (Step.timeout <$> lastStep a h1) = Some None /\
    (Step.name <$> lastStep a (snd (Quantam.name label a h1))) = Some (Some label) /\
    (Step.retries <$> lastStep a (snd (Quantam.retry count (Some delay) a h1))) = Some (Some count) /\
    (Step.retryDelay <$> lastStep a (snd (Quantam.retry count (Some delay) a h1))) = Some (Some delay) /\
    (Step.timeout <$> lastStep a (snd (Quantam.stepTimeout ms a h1))) = Some (Some ms).
Proof.
  intros f this h label count delay ms a h1.
  pose proof (step_lastStep f this h) as Hlast. fold a h1 in Hlast.
  unfold Quantam.name, Quantam.retry, Quantam.stepTimeout.
  rewrite !(configureLast_lastStep _ _ _ _ Hlast), Hlast.
  repeat split; reflexivity.
Qed.

(** The mutation is visible to a run of the original flow: before
    [a.name("x")] the step function of [a] is called with no step name in
    its context, afterwards with the name "x". *)
Example renaming_shows_in_the_original_flow :
  (stepName <$> lastInvoked
     (traceOf (Quantam.run 0 (snd flowA) (fst flowA) (VNum 1) None 0)))
  = Some None /\
  (stepName <$> lastInvoked
     (traceOf (Quantam.run 0 (snd flowA_named) (fst flowA) (VNum 1) None 0)))
  = Some (Some "x").
Proof. split; reflexivity. Qed.

(** The builders that only append or only set a flow-level field leave
    every Step object as it is. *)
Lemma parallel_keeps_heap fns this h l :
  (l < length h)%nat -> snd (Quantam.parallel fns this h) !! l = h !! l.
Proof. intros Hl. simpl. now apply lookup_app_l. Qed.

Lemma timeout_withSignal_keep_heap ms sig this h :
  snd (Quantam.timeout ms this h) = h /\ snd (Quantam.withSignal sig this h) = h.
Proof. split; reflexivity. Qed.

(** ** The step executor *)

(** C6: the backoff between attempt [i] and [i+1] is expected to be
    [retryDelayMs * 2^i], also for a delay of 0 and for large [i].  The code
    computes [(step.retryDelay || 100) * (1 << attempt)]:
    [retry(1, 0)] sleeps 100 ms instead of 0, and with [retry(33, 1)] the
    delay after attempt 30 is [2^30], after attempt 31 it is [-2^31] and
    after attempt 32 it is [1] again. *)
Theorem backoff_zero_delay_and_shift_wrap :
  backoffs (fst (fst (Quantam.run 0 (snd flowZeroDelay) (fst flowZeroDelay) (VNum 1) None 0)))
    = [100] /\
  let delays :=
    backoffs (fst (fst (Quantam.run 0 (snd flowLongRetry) (fst flowLongRetry) (VNum 1) None 0))) in
  delays !! 30%nat = Some 1073741824 /\
  delays !! 31%nat = Some (-2147483648) /\
  delays !! 32%nat = Some 1.
Proof. vm_compute. repeat split; reflexivity. Qed.

Lemma awaited_zero this fn input stepT ctx :
  Quantam.effectiveTimeout this stepT = Some 0 ->
  Quantam.awaited this fn input stepT ctx = Quantam.settle ctx (fn input ctx).
Proof. intros H. unfold Quantam.awaited. rewrite H. reflexivity. Qed.

Lemma awaited_withoutTimeout this fn input ctx :
  Quantam.awaited (withoutTimeout this) fn input None ctx
  = Quantam.settle ctx (fn input ctx).
Proof. reflexivity. Qed.

Lemma tryAttempt_zero this fn input stepT attempt st :
  Quantam.effectiveTimeout this stepT = Some 0 ->
  Quantam.tryAttempt this fn input stepT attempt st
  = Quantam.tryAttempt (withoutTimeout this) fn input None attempt st.
Proof.
  intros H. unfold Quantam.tryAttempt.
  now rewrite awaited_zero, awaited_withoutTimeout.
Qed.

Lemma attemptLoop_zero this fn input r d stepT :
  Quantam.effectiveTimeout this stepT = Some 0 ->
  forall remaining attempt lastError st,
    Quantam.attemptLoop this fn input r d stepT remaining attempt lastError st
    = Quantam.attemptLoop (withoutTimeout this) fn input r d None remaining attempt lastError st.
Proof.
  intros H remaining.
  induction remaining as [|remaining IH]; intros attempt lastError st; [reflexivity|].
  cbn [Quantam.attemptLoop]. rewrite (tryAttempt_zero _ _ _ _ _ _ H).
  destruct (Quantam.tryAttempt _ _ _ _ _ _) as [[tr st1] [v|e|]]; try reflexivity.
  destruct (attempt <? r).
  - destruct (Quantam.sleep _ _ _) as [t [ab|]]; [reflexivity|]. now rewrite IH.
  - now rewrite IH.
Qed.

Lemma startAttempt_zero this input r stepT d fn member attempt lastError st :
  Quantam.effectiveTimeout this stepT = Some 0 ->
  Quantam.startAttempt this input r d stepT fn member attempt lastError st
  = Quantam.startAttempt (withoutTimeout this) input r d None fn member attempt lastError st.
Proof. intros H. unfold Quantam.startAttempt. rewrite H. reflexivity. Qed.

Lemma fire_zero this input r d stepT fn member task st :
  Quantam.effectiveTimeout this stepT = Some 0 ->
  Quantam.fire this input r d stepT fn member task st
  = Quantam.fire (withoutTimeout this) input r d None fn member task st.
Proof.
  intros H. destruct task as [a w k dl|a w [e|] le|res]; try reflexivity.
  cbn [Quantam.fire]. now rewrite (startAttempt_zero _ _ _ _ _ _ _ _ _ _ H).
Qed.

Lemma startAll_zero this input r d stepT :
  Quantam.effectiveTimeout this stepT = Some 0 ->
  forall fns member st,
    Quantam.startAll this input r d stepT fns member st
    = Quantam.startAll (withoutTimeout this) input r d None fns member st.
Proof.
  intros H fns. induction fns as [|fn fns IH]; intros member st; [reflexivity|].
  cbn [Quantam.startAll]. rewrite (startAttempt_zero _ _ _ _ _ _ _ _ _ _ H).
  destruct (Quantam.startAttempt _ _ _ _ _ _ _ _ _ _) as [[tr st1] task].
  now rewrite IH.
Qed.

Lemma groupLoop_zero this input r d stepT :
  Quantam.effectiveTimeout this stepT = Some 0 ->
  forall fuel tasks st,
    Quantam.groupLoop this input r d stepT fuel tasks st
    = Quantam.groupLoop (withoutTimeout this) input r d None fuel tasks st.
Proof.
  intros H fuel. induction fuel as [|fuel IH]; intros tasks st.
  - reflexivity.
  - cbn [Quantam.groupLoop].
    destruct (list_find _ tasks) as [[i task]|]; [reflexivity|].
    destruct (Quantam.earliest 0 tasks) as [[j due]|]; [|reflexivity].
    destruct (tasks !! j) as [[fn task]|]; [|reflexivity].
    rewrite (fire_zero _ _ _ _ _ _ _ _ _ H).
    destruct (Quantam.fire _ _ _ _ _ _ _ _ _) as [[tr st1] task'].
    now rewrite IH.
Qed.

(** C10: when the effective timeout of a step is 0 (its own [stepTimeout(0)],
    whatever the flow-level timeout is, or no step timeout and a flow-level
    [timeout(0)]), each attempt awaits the step function's promise alone:
    the awaited result is the function's own, however long it takes, and
    the whole execution of the step, single or group, is the one of a flow
    with no timeout configured at all. *)
Theorem zero_timeout_never_races :
  (forall this, Quantam.effectiveTimeout this (Some 0) = Some 0) /\
  (forall this stepT,
     stepT = Some 0 \/ (stepT = None /\ Quantam.timeoutMs this = Some 0) <->
     Quantam.effectiveTimeout this stepT = Some 0) /\
  (forall this stepT fn input,
     Quantam.effectiveTimeout this stepT = Some 0 ->
     (forall ctx, Quantam.awaited this fn input stepT ctx
                  = Quantam.settle ctx (fn input ctx)) /\
     (forall st r d,
        Quantam.executeSingleStep this fn input st r d stepT
        = Quantam.executeSingleStep (withoutTimeout this) fn input st r d None)) /\
  (forall this stepT fuel fns input st r d,
     Quantam.effectiveTimeout this stepT = Some 0 ->
     Quantam.executeParallelSteps fuel this fns input st r d stepT
     = Quantam.executeParallelSteps fuel (withoutTimeout this) fns input st r d None).
Proof.
  split; [reflexivity|]. split; [|split].
  - intros this stepT. unfold Quantam.effectiveTimeout, nullish. split.
    + intros [-> | [-> ->]]; reflexivity.
    + destruct stepT as [z|]; intros H; [left | right]; auto.
  - intros this stepT fn input H. split.
    + intros ctx. now apply awaited_zero.
    + intros st r d. unfold Quantam.executeSingleStep. now apply attemptLoop_zero.
  - intros this stepT fuel fns input st r d H. unfold Quantam.executeParallelSteps.
    rewrite (startAll_zero _ _ _ _ _ H).
    destruct (Quantam.startAll _ _ _ _ _ _ _ _) as [[tr st1] tasks].
    now rewrite (groupLoop_zero _ _ _ _ _ H).
Qed.

(** The flow [timeout(5).step(slow).stepTimeout(0)] resolves although the
    step takes 20 ms, and the step is handled as in a flow without
    timeouts. *)
Lemma zero_timeout_never_races_witness :
  Quantam.effectiveTimeout (fst flowStepTimeoutZero) (Some 0) = Some 0 /\
  snd (Quantam.run 0 (snd flowStepTimeoutZero) (fst flowStepTimeoutZero) (VNum 1) None 0)
    = Resolved (VNum 2) /\
  Quantam.executeSingleStep (fst flowStepTimeoutZero) slow (VNum 1) (startState None 0) 0 100 (Some 0)
  = Quantam.executeSingleStep (withoutTimeout (fst flowStepTimeoutZero)) slow (VNum 1)
      (startState None 0) 0 100 None.
Proof.
  split; [reflexivity|]. split; [reflexivity|].
  apply (proj1 (proj2 (proj2 zero_timeout_never_races))
           (fst flowStepTimeoutZero) (Some 0) slow (VNum 1)).
  reflexivity.
Defined.

(** *** Traces *)

Lemma invocations_app (tr tr' : list Event) :
  invocations (tr ++ tr') = (invocations tr + invocations tr')%nat.
Proof. unfold invocations. now rewrite List.filter_app, length_app. Qed.

Lemma invocations_backoff ms (tr : list Event) :
  invocations (Backoff ms :: tr) = invocations tr.
Proof. reflexivity. Qed.

Lemma lastInvoked_app (tr tr' : list Event) :
  lastInvoked (tr ++ tr')
  = match lastInvoked tr' with Some c => Some c | None => lastInvoked tr end.
Proof. unfold lastInvoked. now rewrite omap_app, last_app. Qed.

Lemma lastInvoked_backoff ms (tr : list Event) :
  lastInvoked (Backoff ms :: tr) = lastInvoked tr.
Proof. reflexivity. Qed.

(** *** Cancellation *)

Lemma neverAborted_no_instant sig :
  neverAborted sig -> sig ≫= abortedAt = None.
Proof.
  intros H. destruct sig as [[[a|]]|]; try reflexivity.
  specialize (H a). simpl in H. rewrite Z.leb_refl in H. discriminate.
Qed.

Lemma sleep_neverAborted ms sig t :
  neverAborted sig -> Quantam.sleep ms sig t = (t + setTimeout ms, None).
Proof.
  intros H. unfold Quantam.sleep.
  now rewrite (H t), (neverAborted_no_instant _ H).
Qed.

Lemma tryAttempt_neverAborted this fn input stepT attempt st :
  neverAborted (signal (context st)) ->
  Quantam.tryAttempt this fn input stepT attempt st
  = ([Invoked 0 attempt (set_retryCount attempt (context st))],
     {| now := now st
               + fst (Quantam.awaited this fn input stepT (set_retryCount attempt (context st)));
        context := set_retryCount attempt (context st) |},
     attemptOf this fn input stepT (context st) attempt).
Proof.
  intros H. unfold Quantam.tryAttempt, Quantam.checkAborted.
  now rewrite (H (now st)).
Qed.

(** An attempt that finds the signal aborted does nothing but fail. *)
Lemma tryAttempt_aborted this fn input stepT attempt st :
  Quantam.aborted (signal (context st)) (now st) = true ->
  Quantam.tryAttempt this fn input stepT attempt st = ([], st, Rejected pipelineAborted).
Proof.
  intros H. unfold Quantam.tryAttempt, Quantam.checkAborted. now rewrite H.
Qed.

(** C5: when the signal is already aborted as an attempt is about to start
    (any attempt, any number of iterations of the retry loop still to go),
    the execution of the step rejects on the spot with a cancellation
    error, the one of the aborted [sleep] when retries remain and the one
    of [checkAborted] otherwise: no event is recorded (the step function
    is not called, no backoff delay elapses, no further attempt is made)
    and the state is unchanged (the clock has not moved and [retryCount]
    has not been set to the attempt). *)
Theorem cancelled_attempt_fails_at_once :
  forall this fn input r d stepT remaining attempt lastError st,
    Quantam.aborted (signal (context st)) (now st) = true ->
    exists e,
      Quantam.attemptLoop this fn input r d stepT (S remaining) attempt lastError st
      = ([], st, Rejected e) /\
      (attempt < r -> e = sleepAborted) /\
      (r <= attempt -> e = Quantam.afterLoop (Some pipelineAborted) (context st)).
Proof.
  intros this fn input r d stepT remaining.
  induction remaining as [|remaining IH]; intros attempt lastError st Hab.
  - cbn [Quantam.attemptLoop]. rewrite tryAttempt_aborted by assumption.
    destruct (Z.ltb_spec attempt r) as [Hlt|Hge].
    + unfold Quantam.sleep. rewrite Hab. destruct st as [t c].
      exists sleepAborted. split; [reflexivity|]. split; [reflexivity | lia].
    + exists (Quantam.afterLoop (Some pipelineAborted) (context st)).
      split; [reflexivity|]. split; [lia | reflexivity].
  - remember (S remaining) as n eqn:Hn.
    cbn [Quantam.attemptLoop]. rewrite tryAttempt_aborted by assumption.
    destruct (Z.ltb_spec attempt r) as [Hlt|Hge].
    + unfold Quantam.sleep. rewrite Hab. destruct st as [t c].
      exists sleepAborted. split; [reflexivity|]. split; [reflexivity | lia].
    + subst n.
      destruct (IH (attempt + 1) (Some pipelineAborted) st Hab) as (e & -> & _ & Hlast).
      exists e. split; [reflexivity|]. split; [lia | intros _; apply Hlast; lia].
Qed.

(** The second attempt of a step with three retries finds the signal
    aborted: it fails with the error of the aborted sleep, records nothing
    and leaves clock and context alone. *)
Lemma cancelled_attempt_fails_at_once_witness :
  Quantam.aborted (signal (context cancelledState)) (now cancelledState) = true /\
  exists e,
    Quantam.attemptLoop Quantam.quantam increment (VNum 1) 3 100 None 3 1 None cancelledState
    = ([], cancelledState, Rejected e) /\
    (1 < 3 -> e = sleepAborted) /\
    (3 <= 1 -> e = Quantam.afterLoop (Some pipelineAborted) (context cancelledState)).
Proof.
  split; [reflexivity|].
  apply (cancelled_attempt_fails_at_once Quantam.quantam increment (VNum 1) 3 100 None 2 1 None
           cancelledState).
  reflexivity.
Defined.

(** *** Retries *)

Lemma tryAttempt_invocations this fn input stepT attempt st :
  (invocations (traceOf (Quantam.tryAttempt this fn input stepT attempt st)) <= 1)%nat.
Proof.
  unfold Quantam.tryAttempt.
  destruct (Quantam.checkAborted _ _); unfold traceOf, invocations; cbn; lia.
Qed.

(** Every iteration of the loop calls the step function at most once. *)
Lemma attemptLoop_invocations this fn input r d stepT remaining :
  forall attempt lastError st,
    (invocations (traceOf (Quantam.attemptLoop this fn input r d stepT
                             remaining attempt lastError st)) <= remaining)%nat.
Proof.
  induction remaining as [|remaining IH]; intros attempt lastError st.
  - cbn. lia.
  - cbn [Quantam.attemptLoop].
    pose proof (tryAttempt_invocations this fn input stepT attempt st) as Htry.
    destruct (Quantam.tryAttempt _ _ _ _ _ _) as [[tr st1] [v|e|]];
      unfold traceOf in *; cbn [fst snd] in *; try lia.
    destruct (attempt <? r).
    + destruct (Quantam.sleep _ _ _) as [t [ab|]]; cbn [fst snd]; [lia|].
      specialize (IH (attempt + 1) (Some e) {| now := t; context := context st1 |}).
      destruct (Quantam.attemptLoop _ _ _ _ _ _ _ _ _ _) as [[tr' st2] res].
      cbn [fst snd] in *. rewrite invocations_app, invocations_backoff. lia.
    + specialize (IH (attempt + 1) (Some e) st1).
      destruct (Quantam.attemptLoop _ _ _ _ _ _ _ _ _ _) as [[tr' st2] res].
      cbn [fst snd] in *. rewrite invocations_app. lia.
Qed.

(** [failures] failing attempts followed by a successful one. *)
Lemma attemptLoop_succeeds this fn input r d stepT v :
  forall (failures : nat) remaining attempt lastError st,
    neverAborted (signal (context st)) ->
    (forall a, attempt <= a < attempt + Z.of_nat failures ->
               exists e, attemptOf this fn input stepT (context st) a = Rejected e) ->
    attemptOf this fn input stepT (context st) (attempt + Z.of_nat failures) = Resolved v ->
    attempt + Z.of_nat failures <= r ->
    (failures < remaining)%nat ->
    let out := Quantam.attemptLoop this fn input r d stepT remaining attempt lastError st in
    resultOf out = Resolved v /\
    invocations (traceOf out) = S failures /\
    lastInvoked (traceOf out)
      = Some (set_retryCount (attempt + Z.of_nat failures) (context st)).
Proof.
  induction failures as [|failures IH];
    intros remaining attempt lastError st Hsig Hfail Hok Hle Hfuel;
    (destruct remaining as [|remaining]; [lia|]);
    cbn zeta; cbn [Quantam.attemptLoop];
    rewrite tryAttempt_neverAborted by assumption.
  - rewrite Z.add_0_r in Hok. rewrite Hok. repeat split.
    unfold traceOf, lastInvoked. simpl. now rewrite Z.add_0_r.
  - destruct (Hfail attempt ltac:(lia)) as [e He]. rewrite He.
    destruct (Z.ltb_spec attempt r) as [_|?]; [|lia].
    cbn [context now signal set_retryCount].
    rewrite (sleep_neverAborted _ _ _ Hsig).
    match goal with
    | |- context [Quantam.attemptLoop _ _ _ _ _ _ _ _ ?le ?s] =>
        specialize (IH remaining (attempt + 1) le s)
    end.
    cbn zeta in IH. cbn [context signal] in IH.
    destruct IH as (Hres & Hinv & Hlast); try assumption.
    + intros a Ha. apply Hfail. lia.
    + replace (attempt + 1 + Z.of_nat failures)
        with (attempt + Z.of_nat (S failures)) by lia. exact Hok.
    + lia.
    + lia.
    + destruct (Quantam.attemptLoop _ _ _ _ _ _ _ _ _ _) as [[tr' st2] res].
      unfold traceOf, resultOf in *. cbn [fst snd] in *.
      rewrite invocations_app, invocations_backoff, Hinv.
      rewrite lastInvoked_app, lastInvoked_backoff, Hlast.
      repeat split; [assumption|].
      f_equal. unfold set_retryCount. cbn. f_equal. lia.
Qed.

(** Every attempt fails, the last one with [e]. *)
Lemma attemptLoop_exhausted this fn input r d stepT e :
  forall remaining attempt lastError st,
    neverAborted (signal (context st)) ->
    Z.of_nat remaining = r - attempt + 1 ->
    (0 < remaining)%nat ->
    (forall a, attempt <= a < r ->
               exists e', attemptOf this fn input stepT (context st) a = Rejected e') ->
    attemptOf this fn input stepT (context st) r = Rejected e ->
    let out := Quantam.attemptLoop this fn input r d stepT remaining attempt lastError st in
    resultOf out = Rejected (Quantam.afterLoop (Some e) (context st)) /\
    invocations (traceOf out) = remaining.
Proof.
  induction remaining as [|remaining IH];
    intros attempt lastError st Hsig Hrem Hpos Hfail Hlast; [lia|].
  cbn zeta. cbn [Quantam.attemptLoop].
  rewrite tryAttempt_neverAborted by assumption.
  destruct (Z.ltb_spec attempt r) as [Hlt|Hge].
  - destruct (Hfail attempt ltac:(lia)) as [e' He']. rewrite He'.
    cbn [context now signal set_retryCount].
    rewrite (sleep_neverAborted _ _ _ Hsig).
    match goal with
    | |- context [Quantam.attemptLoop _ _ _ _ _ _ _ _ ?le ?s] =>
        specialize (IH (attempt + 1) le s)
    end.
    cbn zeta in IH. cbn [context signal] in IH.
    destruct IH as (Hres & Hinv); try assumption; try lia.
    + intros a Ha. apply Hfail. lia.
    + destruct (Quantam.attemptLoop _ _ _ _ _ _ _ _ _ _) as [[tr' st2] res].
      unfold traceOf, resultOf in *. cbn [fst snd] in *.
      rewrite invocations_app, invocations_backoff, Hinv.
      split; [assumption | reflexivity].
  - assert (attempt = r) as -> by lia.
    assert (remaining = 0%nat) as -> by lia.
    rewrite Hlast. split; reflexivity.
Qed.

(** *** The propagated failure *)

Lemma append_cons ch (a b : string) : String ch a +:+ b = String ch (a +:+ b).
Proof. reflexivity. Qed.

Lemma append_nil (b : string) : "" +:+ b = b.
Proof. reflexivity. Qed.

Lemma string_app_assoc (a b c : string) : (a +:+ b) +:+ c = a +:+ (b +:+ c).
Proof.
  induction a as [|ch a IH]; [reflexivity|].
  rewrite !append_cons. now f_equal.
Qed.

Lemma prefix_spec sub :
  forall s, String.prefix sub s = true <-> exists b, s = sub +:+ b.
Proof.
  induction sub as [|c sub IH]; intros s.
  - split; [intros _; now exists s | now destruct s].
  - destruct s as [|c' s]; cbn [String.prefix].
    + split; [discriminate | intros [b Hb]; discriminate].
    + destruct (Ascii.ascii_dec c c') as [<- | Hne].
      * rewrite IH. split; intros [b Hb]; exists b.
        -- rewrite append_cons. now f_equal.
        -- rewrite append_cons in Hb. now injection Hb.
      * split; [discriminate|]. intros [b Hb]. rewrite append_cons in Hb.
        injection Hb as Hc _. congruence.
Qed.

(** [includes] is the substring test. *)
Lemma includes_spec s sub :
  includes s sub = true <-> exists a b, s = a +:+ sub +:+ b.
Proof.
  split.
  - induction s as [|c s IH]; cbn [includes]; rewrite orb_true_iff;
      intros [Hpre | Hrest]; try discriminate.
    + apply prefix_spec in Hpre as [b Hb]. now exists "", b.
    + apply prefix_spec in Hpre as [b Hb]. now exists "", b.
    + destruct (IH Hrest) as (a & b & ->). exists (String c a), b.
      now rewrite append_cons.
  - intros (a & b & ->). induction a as [|c a IH].
    + rewrite append_nil. destruct (sub +:+ b) eqn:E; cbn [includes];
        rewrite orb_true_iff; left; apply prefix_spec; exists b; now rewrite E.
    + rewrite append_cons. cbn [includes]. rewrite IH. apply orb_true_r.
Qed.

Lemma includes_trans s t u :
  includes s t = true -> includes t u = true -> includes s u = true.
Proof.
  rewrite !includes_spec. intros (a & b & ->) (a' & b' & ->).
  exists (a +:+ a'), (b' +:+ b). now rewrite !string_app_assoc.
Qed.

(** A message that already ends in the suffix of the step contains the
    quoted label, so it is not suffixed again. *)
Lemma suffixed_twice n msg :
  includes msg (suffixOf n) = true -> suffixed (Some n) msg = msg.
Proof.
  intros H. unfold suffixed.
  assert (includes (suffixOf n) (quotedLabel n) = true) as Hlabel.
  { apply includes_spec. exists "(at step", ")". unfold suffixOf, quotedLabel.
    rewrite !append_cons, !append_nil, string_app_assoc.
    rewrite !append_cons, !append_nil. reflexivity. }
  rewrite (includes_trans _ _ _ H Hlabel). now rewrite orb_true_r.
Qed.

(** The error thrown after the loop, in terms of the step's name and the
    message of the last failure. *)
Lemma afterLoop_suffixed e ctx :
  Quantam.afterLoop (Some e) ctx = mkError (suffixed (stepName ctx) (message e)).
Proof.
  destruct e as [msg]. unfold Quantam.afterLoop, Quantam.stepLabel, suffixed, quotedLabel.
  cbn [message]. destruct (stepName ctx) as [n|]; [|reflexivity].
  destruct (String.eqb n "") eqn:Hn; [reflexivity|].
  replace (String.eqb (" '" +:+ n +:+ "'") "") with false by reflexivity.
  cbn [negb andb orb].
  destruct (includes msg (" '" +:+ n +:+ "'")); cbn [negb]; [reflexivity|].
  f_equal. f_equal. unfold suffixOf.
  rewrite !append_cons, !append_nil, string_app_assoc.
  rewrite !append_cons, !append_nil. reflexivity.
Qed.

(** X30: What the executor does with the failure when every attempt of a
    step, under a retry count that is not negative and without
    cancellation, has rejected with an [Error] object: the execution
    rejects with the failure [e] of the last attempt, and the message of
    [e] gets the suffix [(at step '<name>')] exactly when the step has a
    non-empty name and the message does not contain the quoted label
    [ '<name>'] (a space and the name in single quotes); otherwise the
    message is left as it is. *)
Theorem exhausted_failure_is_suffixed :
  forall this fn input st r d stepT e,
    0 <= r ->
    neverAborted (signal (context st)) ->
    (forall a, 0 <= a < r ->
               exists e', attemptOf this fn input stepT (context st) a = Rejected e') ->
    attemptOf this fn input stepT (context st) r = Rejected e ->
    resultOf (Quantam.executeSingleStep this fn input st r d stepT)
    = Rejected (mkError (suffixed (stepName (context st)) (message e))).
Proof.
  intros this fn input st r d stepT e Hr Hsig Hfail Hlast.
  unfold Quantam.executeSingleStep.
  destruct (attemptLoop_exhausted this fn input r d stepT e
              (Z.to_nat (r + 1)) 0 None st) as [Hres _]; try assumption; try lia.
  rewrite Hres. now rewrite afterLoop_suffixed.
Qed.

(** A step named load that fails with "boom" on all three attempts of
    [retry(2, 1)] is reported as "boom (at step 'load')". *)
Lemma exhausted_failure_is_suffixed_witness :
  resultOf (Quantam.executeSingleStep Quantam.quantam alwaysFails (VNum 1)
              (stateNamed "load") 2 1 None)
  = Rejected (mkError "boom (at step 'load')").
Proof.
  apply (exhausted_failure_is_suffixed Quantam.quantam alwaysFails (VNum 1)
           (stateNamed "load") 2 1 None (mkError "boom")).
  - lia.
  - intros t. reflexivity.
  - intros a _. exists (mkError "boom"). reflexivity.
  - reflexivity.
Defined.

(** C7: the executor misses the suffix.  The step of [flowBob] is named bob
    and its failure message, "no user 'bob'", does not contain the suffix
    "(at step 'bob')", yet the failure is propagated without the suffix that
    the claim and the README of the repository promise for the failure of a
    named step: the test [lastError.message.includes(stepLabel)] that is to
    keep the suffix from being added twice looks for the quoted label
    " 'bob'", which the message contains. *)
Lemma quoted_name_in_message_loses_the_suffix :
  let out := Quantam.run 0 (snd flowBob) (fst flowBob) (VNum 1) None 0 in
  (Step.name <$> lastStep (fst flowBob) (snd flowBob)) = Some (Some "bob") /\
  includes "no user 'bob'" (suffixOf "bob") = false /\
  resultOf out = Rejected (mkError "no user 'bob'") /\
  resultOf out <> Rejected (mkError (suffixedBySpec (Some "bob") "no user 'bob'")).
Proof.
  repeat split; try reflexivity.
  vm_compute. discriminate.
Qed.

(** ** The pipeline runner *)

Lemma tryAttempt_signal this fn input stepT attempt st :
  signal (context (stateOf (Quantam.tryAttempt this fn input stepT attempt st)))
  = signal (context st).
Proof. unfold Quantam.tryAttempt. destruct (Quantam.checkAborted _ _); reflexivity. Qed.

(** The executor leaves the signal of the context alone. *)
Lemma attemptLoop_signal this fn input r d stepT remaining :
  forall attempt lastError st,
    signal (context (stateOf (Quantam.attemptLoop this fn input r d stepT
                                remaining attempt lastError st)))
    = signal (context st).
Proof.
  induction remaining as [|remaining IH]; intros attempt lastError st; [reflexivity|].
  cbn [Quantam.attemptLoop].
  pose proof (tryAttempt_signal this fn input stepT attempt st) as Htry.
  destruct (Quantam.tryAttempt _ _ _ _ _ _) as [[tr st1] [v|e|]];
    unfold stateOf in *; cbn [fst snd] in *; try assumption.
  destruct (attempt <? r).
  - destruct (Quantam.sleep _ _ _) as [t [ab|]]; cbn [fst snd context]; [assumption|].
    specialize (IH (attempt + 1) (Some e) {| now := t; context := context st1 |}).
    destruct (Quantam.attemptLoop _ _ _ _ _ _ _ _ _ _) as [[tr' st2] res].
    cbn [fst snd context] in *. congruence.
  - specialize (IH (attempt + 1) (Some e) st1).
    destruct (Quantam.attemptLoop _ _ _ _ _ _ _ _ _ _) as [[tr' st2] res].
    cbn [fst snd] in *. congruence.
Qed.

(** A call that has settled before the timer of its timeout is due is
    awaited to its own end. *)
Lemma awaited_inTime this fn input stepT ctx :
  inTime this stepT (fst (Quantam.settle ctx (fn input ctx))) = true ->
  Quantam.awaited this fn input stepT ctx = Quantam.settle ctx (fn input ctx).
Proof.
  intros Hfire. unfold Quantam.awaited, inTime, timeoutTimer in *.
  destruct (truthy (Quantam.effectiveTimeout this stepT)); [|reflexivity].
  unfold Quantam.race. apply Z.ltb_lt in Hfire.
  destruct (Z.leb_spec (fst (Quantam.settle ctx (fn input ctx)))
              (fst (Quantam.createTimeout
                      (default 0 (Quantam.effectiveTimeout this stepT)))));
    [reflexivity | lia].
Qed.

(** A first attempt that is not cancelled and returns a value. *)
Lemma first_attempt_returns this fn input st r d stepT v :
  0 <= r ->
  Quantam.aborted (signal (context st)) (now st) = false ->
  snd (Quantam.awaited this fn input stepT (set_retryCount 0 (context st))) = Resolved v ->
  Quantam.executeSingleStep this fn input st r d stepT
  = ([Invoked 0 0 (set_retryCount 0 (context st))],
     {| now := now st
               + fst (Quantam.awaited this fn input stepT (set_retryCount 0 (context st)));
        context := set_retryCount 0 (context st) |},
     Resolved v).
Proof.
  intros Hr Hab Hv. unfold Quantam.executeSingleStep.
  destruct (Z.to_nat (r + 1)) as [|n] eqn:Hn; [lia|].
  cbn [Quantam.attemptLoop]. unfold Quantam.tryAttempt, Quantam.checkAborted.
  now rewrite Hab, Hv.
Qed.

Lemma invocations_sequentialCalls sig ss :
  forall i, invocations (sequentialCalls sig i ss) = length ss.
Proof.
  induction ss as [|s ss IH]; intros i; [reflexivity|].
  cbn [sequentialCalls length]. rewrite <- (IH (i + 1)). reflexivity.
Qed.

(** The run of single steps with retry counts that are counts, when the
    signal is not aborted at the start of any step, no function throws and
    every call has returned before the timer of its timeout, if any, is
    due: the result, the calls and the time. *)
Lemma runLoop_sequential fuel (h : list Step.t) this sig :
  forall locs ss,
    Forall2 (fun l s => h !! l = Some s) locs ss ->
    forall i x st,
      signal (context st) = sig ->
      Forall (fun s => 0 <= retriesOf s) ss ->
      notAbortedAtSteps sig (now st) i ss x ->
      undisturbed this sig i ss x ->
      let out := Quantam.runLoop fuel h this i locs x st in
      resultOf out = Resolved (composition sig i ss x) /\
      traceOf out = sequentialCalls sig i ss /\
      now (stateOf out) = now st + sequentialTime sig i ss x.
Proof.
  intros locs ss Hlook.
  induction Hlook as [|l s locs ss Hl Hrest IH]; intros i x st Hst Hcount Hpoll Hrun.
  - cbn. repeat split; try reflexivity. lia.
  - destruct Hrun as (f & v & Hty & Hfn & Hv & Hfire & Hnext).
    apply Forall_cons in Hcount as [Hr Hcount].
    cbn zeta. cbn [Quantam.runLoop composition sequentialCalls sequentialTime].
    assert (Quantam.aborted sig (now st) = false) as Hab.
    { specialize (Hpoll 0%nat ltac:(cbn; lia)). cbn in Hpoll.
      now rewrite Z.add_0_r in Hpoll. }
    unfold Quantam.checkAborted. rewrite Hst, Hab, Hl, Hty, Hfn.
    fold (contextAt sig i s).
    set (st1 := {| now := now st; context := contextAt sig i s |}).
    assert (set_retryCount 0 (context st1) = contextAt sig i s) as Hc by reflexivity.
    rewrite (first_attempt_returns this f x st1 _ _ _ v Hr).
    + rewrite !Hc, (awaited_inTime _ _ _ _ _ Hfire).
      match goal with
      | |- context [Quantam.runLoop _ _ _ _ _ _ ?s0] =>
          specialize (IH (i + 1) v s0 eq_refl Hcount)
      end.
      cbn zeta in IH. cbn [now] in IH.
      destruct IH as (Hres & Htr & Hnow); [|exact Hnext|].
      { intros j Hj. specialize (Hpoll (S j) ltac:(cbn; lia)).
        cbn [take sequentialTime] in Hpoll. rewrite Hfn in Hpoll.
        unfold outputOf in Hpoll. rewrite Hv in Hpoll.
        subst st1. cbn [now]. now rewrite <- Z.add_assoc. }
      destruct (Quantam.runLoop _ _ _ _ _ _ _) as [[tr' st3] res'].
      unfold resultOf, traceOf, stateOf in *. cbn [fst snd now] in *.
      subst res' tr'. unfold outputOf. rewrite Hv, Hnow.
      subst st1. cbn [now]. repeat split; try reflexivity. lia.
    + exact Hab.
    + rewrite Hc. now rewrite (awaited_inTime _ _ _ _ _ Hfire).
Qed.

(** C1, as the runner does it: sequential composition.  For a flow whose
    steps are the single steps [ss] with functions [f_1 .. f_k] and retry
    counts that are not negative, run on [x] with nothing going wrong (the
    signal is not aborted when a step starts, no function throws on the
    value it is given, every call has returned before the timer of its
    timeout, if any, is due, hence no retry is made), [run] returns
    [f_k(...(f_1(x)))]: each function is given the value returned by the
    one before it, and there are as many calls as steps. *)
Theorem run_is_sequential_composition :
  forall fuel h this x options t0 ss,
    Forall2 (fun l s => h !! l = Some s) (Quantam.steps this) ss ->
    Forall (fun s => 0 <= retriesOf s) ss ->
    notAbortedAtSteps (runSignal this options) t0 0 ss x ->
    undisturbed this (runSignal this options) 0 ss x ->
    let out := Quantam.run fuel h this x options t0 in
    resultOf out = Resolved (composition (runSignal this options) 0 ss x) /\
    invocations (traceOf out) = length ss.
Proof.
  intros fuel h this x options t0 ss Hlook Hcount Hpoll Hrun.
  unfold Quantam.run. fold (runSignal this options).
  destruct (runLoop_sequential fuel h this (runSignal this options) _ _ Hlook 0 x
              {| now := t0;
                 context := {| signal := runSignal this options; stepIndex := 0;
                               stepName := None; retryCount := 0 |} |}
              eq_refl Hcount Hpoll Hrun) as (Hres & Htr & _).
  split; [exact Hres|]. rewrite Htr. apply invocations_sequentialCalls.
Qed.

(** The flow of the repository's first test: [n => n + 1] then [n => n * 2]
    on 1 gives 4, with one call per step. *)
Lemma run_is_sequential_composition_witness :
  let out := Quantam.run 0 (snd flowBasic) (fst flowBasic) (VNum 1) None 0 in
  resultOf out = Resolved (VNum 4) /\ invocations (traceOf out) = 2%nat.
Proof.
  apply (run_is_sequential_composition 0 (snd flowBasic) (fst flowBasic) (VNum 1) None 0
           (snd flowBasic)).
  - repeat constructor.
  - repeat constructor; unfold retriesOf; cbn; lia.
  - intros j _. reflexivity.
  - cbn. exists increment, (VNum 2). repeat split; try reflexivity.
    exists double, (VNum 4). repeat split; reflexivity.
Defined.

(** C1 as stated fails.  In the run of [quantam().step(n => n + 1)] on 1
    under a signal that is already aborted, and in the run of
    [quantam().step(n => n + 1).retry(-1)] on 1, the step function does not
    throw on the value it would be given, no timeout is configured and no
    retry is made (nothing is called, no backoff is slept), yet the run
    does not return [f_1(1) = 2]: it rejects, with [Pipeline aborted] in the
    first case and with [Step execution failed] in the second. *)
Lemma sequential_composition_as_stated_counterexample :
  (undisturbed (fst flowA) (Some abortedSignal) 0 (snd flowA) (VNum 1) /\
   composition (Some abortedSignal) 0 (snd flowA) (VNum 1) = VNum 2 /\
   Quantam.run 0 (snd flowA) (fst flowA) (VNum 1)
     (Some {| opt_signal := Some abortedSignal |}) 0
   = ([], startState (Some abortedSignal) 0, Rejected pipelineAborted)) /\
  (undisturbed (fst flowNegativeRetry) None 0 (snd flowNegativeRetry) (VNum 1) /\
   composition None 0 (snd flowNegativeRetry) (VNum 1) = VNum 2 /\
   Quantam.run 0 (snd flowNegativeRetry) (fst flowNegativeRetry) (VNum 1) None 0
   = ([], startState None 0, Rejected (mkError "Step execution failed"))).
Proof.
  split; (split; [|split; reflexivity]).
  - exists increment, (VNum 2). repeat split; reflexivity.
  - exists increment, (VNum 2). repeat split; reflexivity.
Qed.

(** ** Parallel groups *)

Lemma sharesOneContext_app c tr tr' :
  sharesOneContext c tr ->
  sharesOneContext (cellAfter c tr) tr' ->
  sharesOneContext c (tr ++ tr').
Proof.
  revert c. induction tr as [|[m a ctx|m a ctx|ms] tr IH]; intros c H H'; cbn in *.
  - assumption.
  - destruct H as [-> H]. split; [reflexivity | now apply IH].
  - destruct H as [-> H]. split; [reflexivity | now apply IH].
  - now apply IH.
Qed.

Lemma cellAfter_app c tr tr' :
  cellAfter c (tr ++ tr') = cellAfter (cellAfter c tr) tr'.
Proof.
  revert c. induction tr as [|[m a ctx|m a ctx|ms] tr IH]; intros c; cbn; auto.
Qed.

Section SharedContext.
Variables (this : Quantam.t) (input : value) (r d : Z) (stepT : option Z).

Lemma startAttempt_shares fn member attempt lastError st :
  let out := Quantam.startAttempt this input r d stepT fn member attempt lastError st in
  sharesOneContext (context st) (traceOf out) /\
  context (stateOf out) = cellAfter (context st) (traceOf out).
Proof.
  unfold Quantam.startAttempt.
  destruct (attempt <=? r); [|split; reflexivity].
  destruct (Quantam.checkAborted _ _); repeat split; reflexivity.
Qed.

Lemma fire_shares fn member task st :
  let out := Quantam.fire this input r d stepT fn member task st in
  sharesOneContext (context st) (traceOf out) /\
  context (stateOf out) = cellAfter (context st) (traceOf out).
Proof.
  destruct task as [a w k [[dl e]|]|a w [e|] le|res]; cbn zeta; cbn [Quantam.fire];
    try (repeat split; reflexivity).
  - destruct (dl <? w); repeat split; reflexivity.
  - pose proof (startAttempt_shares fn member (a + 1) le st) as H. cbn zeta in H.
    destruct (Quantam.startAttempt _ _ _ _ _ _ _ _ _ _) as [[tr st1] task].
    exact H.
Qed.

Lemma startAll_shares fns :
  forall member st,
    let out := Quantam.startAll this input r d stepT fns member st in
    sharesOneContext (context st) (traceOf out) /\
    context (stateOf out) = cellAfter (context st) (traceOf out).
Proof.
  induction fns as [|fn fns IH]; intros member st; [split; reflexivity|].
  cbn zeta. cbn [Quantam.startAll].
  pose proof (startAttempt_shares fn member 0 None st) as H. cbn zeta in H.
  destruct (Quantam.startAttempt _ _ _ _ _ _ _ _ _ _) as [[tr st1] task].
  specialize (IH (S member) st1). cbn zeta in IH.
  destruct (Quantam.startAll _ _ _ _ _ _ _ _) as [[tr' st2] tasks].
  unfold traceOf, stateOf in *. cbn [fst snd] in *.
  destruct H as [H Hc], IH as [H' Hc']. rewrite Hc in H', Hc'. split.
  - now apply sharesOneContext_app.
  - now rewrite cellAfter_app.
Qed.

Lemma groupLoop_shares fuel :
  forall tasks st,
    let out := Quantam.groupLoop this input r d stepT fuel tasks st in
    sharesOneContext (context st) (traceOf out) /\
    context (stateOf out) = cellAfter (context st) (traceOf out).
Proof.
  induction fuel as [|fuel IH]; intros tasks st; cbn zeta; cbn [Quantam.groupLoop];
    (destruct (list_find _ tasks) as [[i task]|]; [split; reflexivity|]);
    (destruct (Quantam.earliest 0 tasks) as [[j due]|]; [|split; reflexivity]).
  - split; reflexivity.
  - destruct (tasks !! j) as [[fn task]|]; [|split; reflexivity].
    pose proof (fire_shares fn j task {| now := due; context := context st |}) as H.
    cbn zeta in H.
    destruct (Quantam.fire _ _ _ _ _ _ _ _ _) as [[tr st1] task'].
    specialize (IH (<[j := (fn, task')]> tasks) st1). cbn zeta in IH.
    destruct (Quantam.groupLoop _ _ _ _ _ _ _ _) as [[tr' st2] res].
    unfold traceOf, stateOf in *. cbn [fst snd context] in *.
    destruct H as [H Hc], IH as [H' Hc']. rewrite Hc in H', Hc'. split.
    + now apply sharesOneContext_app.
    + now rewrite cellAfter_app.
Qed.

End SharedContext.

Lemma sharesOneContext_sameStep c0 tr :
  forall c,
    signal c = signal c0 -> stepIndex c = stepIndex c0 -> stepName c = stepName c0 ->
    sharesOneContext c tr -> Forall (sameStep c0) tr.
Proof.
  induction tr as [|[m a ctx|m a ctx|ms] tr IH]; intros c Hs Hi Hn H; cbn in H.
  - constructor.
  - destruct H as [-> H]. constructor.
    + cbn. auto.
    + apply (IH (set_retryCount a c)); auto.
  - destruct H as [-> H]. constructor; [cbn; auto | eauto].
  - constructor; [exact I | eauto].
Qed.

(** *** Calls per member *)

Lemma invocationsOf_app j (tr tr' : list Event) :
  invocationsOf j (tr ++ tr') = (invocationsOf j tr + invocationsOf j tr')%nat.
Proof. unfold invocationsOf. now rewrite List.filter_app, length_app. Qed.

Section MemberCalls.
Variables (this : Quantam.t) (input : value) (r d : Z) (stepT : option Z).

Lemma failAttempt_left attempt e st :
  attempt <= r ->
  attemptInRange r (Quantam.failAttempt r d attempt e st) /\
  attemptsLeft r (Quantam.failAttempt r d attempt e st) <= r - attempt.
Proof.
  intros Hle. unfold Quantam.failAttempt.
  destruct (Z.ltb_spec attempt r).
  - destruct (Quantam.sleep _ _ _) as [t ab]. cbn. lia.
  - cbn. lia.
Qed.

Lemma awaitFn_left attempt deadline p st :
  attempt <= r ->
  attemptInRange r (Quantam.awaitFn r d attempt deadline p st) /\
  attemptsLeft r (Quantam.awaitFn r d attempt deadline p st) <= r - attempt.
Proof.
  intros Hle. destruct p as [v|e|ms k]; cbn [Quantam.awaitFn].
  - cbn. lia.
  - now apply failAttempt_left.
  - cbn. lia.
Qed.

(** Starting attempt [attempt] calls the member's function at most once and
    leaves at most the attempts after it. *)
Lemma startAttempt_calls fn member attempt lastError st j :
  let out := Quantam.startAttempt this input r d stepT fn member attempt lastError st in
  attemptInRange r (resultOf out) /\
  Z.of_nat (invocationsOf j (traceOf out)) + attemptsLeft r (resultOf out)
  <= (if (member =? j)%nat then Z.max 0 (r + 1 - attempt) else attemptsLeft r (resultOf out)).
Proof.
  cbn zeta. unfold Quantam.startAttempt.
  destruct (Z.leb_spec attempt r) as [Hle|Hgt].
  - destruct (Quantam.checkAborted _ _) as [e|]; cbn [resultOf traceOf fst snd].
    + destruct (failAttempt_left attempt e st Hle) as [Hin Hleft].
      split; [assumption|]. cbn. destruct (member =? j)%nat; lia.
    + match goal with
      | |- context [Quantam.awaitFn r d attempt ?dl ?p ?s] =>
          destruct (awaitFn_left attempt dl p s Hle) as [Hin Hleft]
      end.
      split; [assumption|]. unfold invocationsOf. cbn [List.filter isInvokedBy].
      destruct (member =? j)%nat; cbn [length]; lia.
  - cbn. split; [exact I|]. destruct (member =? j)%nat; lia.
Qed.

(** Resuming a task of member [member] uses up one of its remaining
    attempts for every call it makes, and calls no other member. *)
Lemma fire_calls fn member task st j :
  attemptInRange r task ->
  let out := Quantam.fire this input r d stepT fn member task st in
  attemptInRange r (resultOf out) /\
  Z.of_nat (invocationsOf j (traceOf out)) + attemptsLeft r (resultOf out)
  <= (if (member =? j)%nat then attemptsLeft r task else attemptsLeft r (resultOf out)).
Proof.
  intros Hin. cbn zeta.
  destruct task as [a w k [[dl e]|]|a w [e|] le|res]; cbn [Quantam.fire]; cbn in Hin.
  - destruct (dl <? w); cbn [resultOf traceOf fst snd].
    + destruct (failAttempt_left a e st Hin). split; [assumption|].
      cbn. destruct (member =? j)%nat; lia.
    + match goal with
      | |- context [Quantam.awaitFn r d a ?dl' ?p ?s] =>
          destruct (awaitFn_left a dl' p s Hin)
      end.
      split; [assumption|]. cbn. destruct (member =? j)%nat; lia.
  - cbn [resultOf traceOf fst snd].
    match goal with
    | |- context [Quantam.awaitFn r d a ?dl' ?p ?s] =>
        destruct (awaitFn_left a dl' p s Hin)
    end.
    split; [assumption|]. cbn. destruct (member =? j)%nat; lia.
  - cbn. split; [exact I|]. destruct (member =? j)%nat; lia.
  - pose proof (startAttempt_calls fn member (a + 1) le st j) as H. cbn zeta in H.
    destruct (Quantam.startAttempt _ _ _ _ _ _ _ _ _ _) as [[tr st1] task].
    unfold resultOf, traceOf in *. cbn [fst snd] in *.
    destruct H as [Hin' H]. split; [assumption|].
    change (invocationsOf j (Backoff (Quantam.backoffDelay d a) :: tr))
      with (invocationsOf j tr).
    cbn [attemptsLeft]. destruct (member =? j)%nat; lia.
  - cbn. split; [exact I|]. destruct (member =? j)%nat; lia.
Qed.

Lemma groupLoop_calls fuel :
  forall tasks st j,
    Forall (fun task => attemptInRange r (snd task)) tasks ->
    Z.of_nat (invocationsOf j
                (traceOf (Quantam.groupLoop this input r d stepT fuel tasks st)))
    <= leftOf r tasks j.
Proof.
  induction fuel as [|fuel IH]; intros tasks st j Hin.
  - assert (0 <= leftOf r tasks j) as Hpos.
    { unfold leftOf. destruct (tasks !! j) as [[fn task]|] eqn:Hj; [|lia].
      apply (Forall_lookup_1 _ _ _ _ Hin) in Hj. destruct task; cbn in *; lia. }
    cbn [Quantam.groupLoop].
    destruct (list_find _ tasks) as [[i task]|]; [exact Hpos|].
    destruct (Quantam.earliest 0 tasks) as [[i due]|]; exact Hpos.
  - assert (0 <= leftOf r tasks j) as Hpos.
    { unfold leftOf. destruct (tasks !! j) as [[fn task]|] eqn:Hj; [|lia].
      apply (Forall_lookup_1 _ _ _ _ Hin) in Hj. destruct task; cbn in *; lia. }
    cbn [Quantam.groupLoop].
    destruct (list_find _ tasks) as [[i task]|]; [exact Hpos|].
    destruct (Quantam.earliest 0 tasks) as [[i due]|]; [|exact Hpos].
    destruct (tasks !! i) as [[fn task]|] eqn:Hi; [|exact Hpos].
    pose proof (Forall_lookup_1 _ _ _ _ Hin Hi) as Htask. cbn [snd] in Htask.
    pose proof (fire_calls fn i task {| now := due; context := context st |} j Htask) as Hfire.
    cbn zeta in Hfire.
    destruct (Quantam.fire _ _ _ _ _ _ _ _ _) as [[tr st1] task'].
    unfold resultOf, traceOf in Hfire. cbn [fst snd] in Hfire.
    destruct Hfire as [Hin' Hfire].
    specialize (IH (<[i := (fn, task')]> tasks) st1 j).
    destruct (Quantam.groupLoop _ _ _ _ _ _ _ _) as [[tr' st2] res].
    unfold traceOf in *. cbn [fst snd] in *.
    rewrite invocationsOf_app.
    assert (Z.of_nat (invocationsOf j tr') <= leftOf r (<[i := (fn, task')]> tasks) j) as Hrest.
    { apply IH. apply Forall_insert; assumption. }
    unfold leftOf in *.
    destruct (Nat.eqb_spec i j) as [-> | Hne].
    + rewrite Hi. rewrite list_lookup_insert_eq in Hrest by (eapply lookup_lt_Some; eauto).
      lia.
    + rewrite list_lookup_insert_ne in Hrest by assumption.
      destruct (tasks !! j) as [[fn' task'']|]; lia.
Qed.

Lemma startAll_calls fns :
  forall member st j,
    let out := Quantam.startAll this input r d stepT fns member st in
    Forall (fun task => attemptInRange r (snd task)) (resultOf out) /\
    ((member <= j)%nat ->
     Z.of_nat (invocationsOf j (traceOf out))
     + leftOf r (resultOf out) (j - member) <= Z.max 0 (r + 1)) /\
    ((j < member)%nat -> invocationsOf j (traceOf out) = 0%nat).
Proof.
  induction fns as [|fn fns IH]; intros member st j; cbn zeta; cbn [Quantam.startAll].
  - unfold resultOf, traceOf. cbn [fst snd].
    split; [apply Forall_nil_2|]. split; [|reflexivity].
    intros _. unfold leftOf, invocationsOf. rewrite lookup_nil. cbn. lia.
  - pose proof (startAttempt_calls fn member 0 None st j) as Hstart. cbn zeta in Hstart.
    destruct (Quantam.startAttempt _ _ _ _ _ _ _ _ _ _) as [[tr st1] task].
    specialize (IH (S member) st1 j). cbn zeta in IH.
    destruct (Quantam.startAll _ _ _ _ _ _ _ _) as [[tr' st2] tasks].
    unfold resultOf, traceOf in *. cbn [fst snd] in *.
    destruct Hstart as [Hin Hstart], IH as (Hins & Hcalls & Hnone).
    rewrite invocationsOf_app.
    assert (0 <= attemptsLeft r task) as Hleft by (destruct task; cbn in *; lia).
    split; [|split].
    + apply Forall_cons_2; assumption.
    + intros Hle. unfold leftOf in *. destruct (Nat.eqb_spec member j) as [-> | Hne].
      * rewrite Nat.sub_diag. cbn [lookup list_lookup].
        rewrite Hnone by lia. lia.
      * replace (j - member)%nat with (S (j - S member)) by lia.
        cbn [lookup list_lookup]. specialize (Hcalls ltac:(lia)).
        destruct (tasks !! (j - S member)%nat) as [[fn' task']|]; lia.
    + intros Hlt. rewrite Hnone by lia.
      destruct (Nat.eqb_spec member j); lia.
Qed.

(** In one execution of a group, the function of each member is called at
    most [r + 1] times (not at all when [r] is negative). *)
Lemma group_member_calls fuel fns st j :
  Z.of_nat (invocationsOf j
              (traceOf (Quantam.executeParallelSteps fuel this fns input st r d stepT)))
  <= Z.max 0 (r + 1).
Proof.
  unfold Quantam.executeParallelSteps.
  pose proof (startAll_calls fns 0%nat st j) as Hstart. cbn zeta in Hstart.
  destruct (Quantam.startAll _ _ _ _ _ _ _ _) as [[tr st1] tasks].
  unfold resultOf, traceOf in Hstart. cbn [fst snd] in Hstart.
  destruct Hstart as (Hin & Hcalls & _).
  specialize (Hcalls ltac:(lia)). rewrite Nat.sub_0_r in Hcalls.
  pose proof (groupLoop_calls fuel tasks st1 j Hin) as Hloop.
  destruct (Quantam.groupLoop _ _ _ _ _ _ _ _) as [[tr' st2] res].
  unfold traceOf in *. cbn [fst snd] in *.
  rewrite invocationsOf_app. lia.
Qed.

End MemberCalls.

(** *** Retries, for single steps and for members of a group *)

(** C4: a step with retry count [r] (a count: [0 <= r]) calls its function
    at most [r + 1] times in one execution, and so does a group with each of
    its members' functions; and when the attempts [0 .. k-1] fail and
    attempt [k <= r] succeeds with [v], the execution resolves with [v],
    has called the function exactly [k + 1] times, and the last call saw
    [retryCount = k] in its context. *)
Theorem retry_invocations_and_retryCount :
  forall this fn input st r d stepT,
    0 <= r ->
    let out := Quantam.executeSingleStep this fn input st r d stepT in
    Z.of_nat (invocations (traceOf out)) <= r + 1 /\
    (forall fuel fns member,
       Z.of_nat (invocationsOf member
                   (traceOf (Quantam.executeParallelSteps fuel this fns input st r d stepT)))
       <= r + 1) /\
    forall k v,
      0 <= k <= r ->
      neverAborted (signal (context st)) ->
      (forall a, 0 <= a < k ->
                 exists e, attemptOf this fn input stepT (context st) a = Rejected e) ->
      attemptOf this fn input stepT (context st) k = Resolved v ->
      resultOf out = Resolved v /\
      Z.of_nat (invocations (traceOf out)) = k + 1 /\
      (retryCount <$> lastInvoked (traceOf out)) = Some k.
Proof.
  intros this fn input st r d stepT Hr out. subst out.
  unfold Quantam.executeSingleStep. split; [|split].
  - pose proof (attemptLoop_invocations this fn input r d stepT
                  (Z.to_nat (r + 1)) 0 None st). lia.
  - intros fuel fns member.
    pose proof (group_member_calls this input r d stepT fuel fns st member). lia.
  - intros k v Hk Hsig Hfail Hok.
    destruct (attemptLoop_succeeds this fn input r d stepT v
                (Z.to_nat k) (Z.to_nat (r + 1)) 0 None st) as (Hres & Hinv & Hlast).
    + assumption.
    + intros a Ha. apply Hfail. lia.
    + rewrite Z.add_0_l, Z2Nat.id by lia. assumption.
    + lia.
    + lia.
    + rewrite Hres, Hinv, Hlast. repeat split; [lia|].
      cbn. f_equal. lia.
Qed.

(** The step of the retry test under [retry(3, 1)]: it fails on attempts 0
    and 1 and succeeds on attempt 2, so it is called three times and
    returns [1 + 2]. *)
Lemma retry_invocations_and_retryCount_witness :
  let out :=
    Quantam.executeSingleStep Quantam.quantam transient (VNum 1) (startState None 0) 3 1 None in
  Z.of_nat (invocations (traceOf out)) <= 3 + 1 /\
  resultOf out = Resolved (VNum 3) /\
  Z.of_nat (invocations (traceOf out)) = 2 + 1 /\
  (retryCount <$> lastInvoked (traceOf out)) = Some 2.
Proof.
  destruct (retry_invocations_and_retryCount Quantam.quantam transient (VNum 1)
              (startState None 0) 3 1 None ltac:(lia)) as (Hmost & _ & Hexact).
  split; [exact Hmost|].
  apply Hexact.
  - lia.
  - intros t. reflexivity.
  - intros a Ha. exists (mkError "transient").
    assert (a = 0 \/ a = 1) as [-> | ->] by lia; reflexivity.
  - reflexivity.
Defined.

(** C8, as the executor does it: the members of a group do not get a
    context each, they all work on the one context of the run.  The events
    of a group are those of executions sharing one cell: every call of a
    member function is made right after its attempt number was written to
    [retryCount] and sees the group's signal, step index and step name and
    its own attempt number; a member that is resumed after a suspension
    reads the context as the latest call of any member left it. *)
Theorem group_members_share_the_context :
  forall fuel this fns input st r d stepT,
    let tr := traceOf (Quantam.executeParallelSteps fuel this fns input st r d stepT) in
    sharesOneContext (context st) tr /\ Forall (sameStep (context st)) tr.
Proof.
  intros fuel this fns input st r d stepT tr.
  assert (sharesOneContext (context st) tr) as H.
  { subst tr. unfold Quantam.executeParallelSteps.
    pose proof (startAll_shares this input r d stepT fns 0%nat st) as H. cbn zeta in H.
    destruct (Quantam.startAll _ _ _ _ _ _ _ _) as [[tr0 st1] tasks].
    pose proof (groupLoop_shares this input r d stepT fuel tasks st1) as H'.
    cbn zeta in H'.
    destruct (Quantam.groupLoop _ _ _ _ _ _ _ _) as [[tr1 st2] res].
    unfold traceOf, stateOf in *. cbn [fst snd] in *.
    destruct H as [H Hc], H' as [H' _]. rewrite Hc in H'.
    now apply sharesOneContext_app. }
  split; [exact H|].
  now apply (sharesOneContext_sameStep (context st) tr (context st)).
Qed.

(** C8 as stated fails: in the group [failsOnce, readsLate] under
    [retry(1, 10)], the second member is called once, as attempt 0; when it
    resumes after 50 ms it reads [retryCount = 1], which the retry of the
    first member wrote 10 ms into the step, and returns it. *)
Lemma group_retryCount_isolated_counterexample :
  let out := Quantam.run 8 (snd flowGroup) (fst flowGroup) (VNum 7) None 0 in
  resultOf out = Resolved (VArr [VNum 1; VNum 1]) /\
  traceOf out !! 4%nat
    = Some (Resumed 1 0 {| signal := None; stepIndex := 0; stepName := None; retryCount := 1 |}) /\
  ~ Forall observesOwnAttempt (traceOf out).
Proof.
  split; [reflexivity|]. split; [reflexivity|].
  intros H.
  apply (Forall_lookup_1 _ _ 4%nat
           (Resumed 1 0 {| signal := None; stepIndex := 0; stepName := None;
                           retryCount := 1 |})) in H; [|reflexivity].
  cbn in H. discriminate.
Qed.

(** ** A group of one member is a single step

    [executeSingleStep] is embedded twice: as a function that runs a step
    to its end ([Quantam.attemptLoop]) and as a task of the event loop of a
    group.  For a group of one member the two agree: same result, same
    final clock and context, same calls and backoff sleeps. *)

Section OneMember.
Variables (this : Quantam.t) (fn : AsyncFn) (input : value) (r d : Z) (stepT : option Z).

Lemma attemptLoop_S remaining attempt lastError st :
  Quantam.attemptLoop this fn input r d stepT (S remaining) attempt lastError st
  = match Quantam.tryAttempt this fn input stepT attempt st with
    | (tr, st1, Rejected error) =>
        let '(tr', st2, res) :=
          catchBlock this fn input r d stepT remaining attempt error st1 in
        (tr ++ tr', st2, res)
    | settled => settled
    end.
Proof.
  cbn [Quantam.attemptLoop]. unfold catchBlock.
  destruct (Quantam.tryAttempt _ _ _ _ _ _) as [[tr st1] [v|e|]]; try reflexivity.
  destruct (attempt <? r).
  - destruct (Quantam.sleep _ _ _) as [t [ab|]].
    + now rewrite app_nil_r.
    + now destruct (Quantam.attemptLoop _ _ _ _ _ _ _ _ _ _) as [[tr' st2] res].
  - reflexivity.
Qed.

Lemma settle_nonneg ctx p : 0 <= fst (Quantam.settle ctx p).
Proof.
  induction p as [v|e|ms k IH]; cbn; try lia.
  specialize (IH ctx). destruct (Quantam.settle ctx (k ctx)). cbn in *. lia.
Qed.

(** The event loop over one member that has finished. *)
Lemma groupLoop_finished fuel res st :
  Quantam.groupLoop this input r d stepT fuel [(fn, Quantam.Finished res)] st
  = ([], st, settledMap (fun v => [v]) res).
Proof. destruct fuel, res; reflexivity. Qed.

(** One round of the event loop over one member that is due at [due]. *)
Lemma groupLoop_round fuel task st due :
  Quantam.dueAt task = Some due ->
  Quantam.groupLoop this input r d stepT (S fuel) [(fn, task)] st
  = let '(tr, st1, task') :=
      Quantam.fire this input r d stepT fn 0 task {| now := due; context := context st |} in
    let '(tr', st2, res) :=
      Quantam.groupLoop this input r d stepT fuel [(fn, task')] st1 in
    (tr ++ tr', st2, res).
Proof.
  intros Hdue. cbn [Quantam.groupLoop].
  assert (list_find (fun task => is_Some (Quantam.rejection task)) [(fn, task)] = None) as ->.
  { destruct task; try discriminate; cbn; case_decide as H; try reflexivity;
      destruct H as [? H]; discriminate. }
  cbn [Quantam.earliest]. rewrite Hdue. reflexivity.
Qed.


Lemma settle_Wait ctx ms k :
  Quantam.settle ctx (Wait ms k)
  = (Z.max 0 ms + fst (Quantam.settle ctx (k ctx)), snd (Quantam.settle ctx (k ctx))).
Proof. cbn. now destruct (Quantam.settle ctx (k ctx)). Qed.

Lemma raceEnd_shift deadline st st' x d' :
  now st' = now st + x ->
  raceEnd deadline st' d' = raceEnd deadline st (x + d').
Proof.
  intros Hnow. unfold raceEnd. destruct deadline as [[T e]|]; [|reflexivity].
  now rewrite Hnow, Z.add_assoc.
Qed.

Lemma raceState_shift deadline st st' x d' :
  now st' = now st + x -> context st' = context st ->
  raceState deadline st' d' = raceState deadline st (x + d').
Proof.
  intros Hnow Hctx. unfold raceState.
  rewrite (raceEnd_shift deadline st st' x d' Hnow), Hnow, Hctx, Z.add_assoc.
  reflexivity.
Qed.

Lemma raceTask_shift attempt deadline st st' x d' res :
  now st' = now st + x -> context st' = context st ->
  raceTask r d attempt deadline st' d' res = raceTask r d attempt deadline st (x + d') res.
Proof.
  intros Hnow Hctx. unfold raceTask.
  now rewrite (raceEnd_shift deadline st st' x d' Hnow),
    (raceState_shift deadline st st' x d' Hnow Hctx).
Qed.

Lemma raceEnd_zero deadline st :
  (forall T e, deadline = Some (T, e) -> now st <= T) ->
  raceEnd deadline st 0 = None.
Proof.
  intros Hdl. unfold raceEnd. destruct deadline as [[T e]|]; [|reflexivity].
  specialize (Hdl T e eq_refl). destruct (Z.ltb_spec T (now st + 0)); [lia | reflexivity].
Qed.

Lemma raceState_zero deadline st :
  (forall T e, deadline = Some (T, e) -> now st <= T) ->
  raceState deadline st 0 = st.
Proof.
  intros Hdl. unfold raceState. rewrite (raceEnd_zero _ _ Hdl), Z.add_0_r.
  now destruct st.
Qed.

(** A member that awaits its step function: after as many rounds as the
    function is resumed (or one round less and the deadline), the member is
    where the race of the function's promise against the timeout ends. *)
Lemma awaitFn_rounds (p : Async) :
  forall attempt deadline st,
    (forall T e, deadline = Some (T, e) -> now st <= T) ->
    exists m, forall fuel, exists tr,
      withoutResumed tr = [] /\
      Quantam.groupLoop this input r d stepT (m + fuel)
        [(fn, Quantam.awaitFn r d attempt deadline p st)] st
      = let '(tr', st2, res) :=
          Quantam.groupLoop this input r d stepT fuel
            [(fn, raceTask r d attempt deadline st
                    (fst (Quantam.settle (context st) p))
                    (snd (Quantam.settle (context st) p)))]
            (raceState deadline st (fst (Quantam.settle (context st) p))) in
        (tr ++ tr', st2, res).
Proof.
  induction p as [v|e|ms k IH]; intros attempt deadline st Hdl.
  - exists 0%nat. intros fuel. exists []. split; [reflexivity|].
    cbn [Quantam.settle fst snd Quantam.awaitFn Nat.add app].
    unfold raceTask. rewrite (raceState_zero _ _ Hdl), (raceEnd_zero _ _ Hdl).
    now destruct (Quantam.groupLoop _ _ _ _ _ _ _ _) as [[tr' st2] res].
  - exists 0%nat. intros fuel. exists []. split; [reflexivity|].
    cbn [Quantam.settle fst snd Quantam.awaitFn Nat.add app].
    unfold raceTask. rewrite (raceState_zero _ _ Hdl), (raceEnd_zero _ _ Hdl).
    now destruct (Quantam.groupLoop _ _ _ _ _ _ _ _) as [[tr' st2] res].
  - rewrite settle_Wait. cbn [fst snd Quantam.awaitFn].
    pose proof (settle_nonneg (context st) (k (context st))) as Hd.
    set (wake := now st + Z.max 0 ms).
    set (stw := {| now := wake; context := context st |}).
    assert ((forall T e, deadline = Some (T, e) -> wake <= T) ->
            exists m, forall fuel, exists tr,
              withoutResumed tr = [] /\
              Quantam.groupLoop this input r d stepT (m + fuel)
                [(fn, Quantam.awaitFn r d attempt deadline (k (context st)) stw)] stw
              = let '(tr', st2, res) :=
                  Quantam.groupLoop this input r d stepT fuel
                    [(fn, raceTask r d attempt deadline st
                            (Z.max 0 ms + fst (Quantam.settle (context st) (k (context st))))
                            (snd (Quantam.settle (context st) (k (context st)))))]
                    (raceState deadline st
                       (Z.max 0 ms + fst (Quantam.settle (context st) (k (context st))))) in
                (tr ++ tr', st2, res)) as Hresume.
    { intros Hwake.
      destruct (IH (context st) attempt deadline stw Hwake) as [m Hm].
      exists m. intros fuel. destruct (Hm fuel) as (tr & Htr & Heq).
      exists tr. split; [assumption|]. rewrite Heq.
      now rewrite (raceTask_shift attempt deadline st stw (Z.max 0 ms)),
        (raceState_shift deadline st stw (Z.max 0 ms)). }
    destruct deadline as [[T e]|].
    + destruct (Z.ltb_spec T wake) as [Hlt|Hge].
      * (* the deadline comes first *)
        exists 1%nat. intros fuel. exists []. split; [reflexivity|].
        cbn [Nat.add]. rewrite (groupLoop_round _ _ _ T).
        2:{ cbn [Quantam.dueAt]. f_equal. lia. }
        cbn [Quantam.fire]. destruct (Z.ltb_spec T wake); [|lia].
        unfold raceTask, raceState, raceEnd.
        destruct (Z.ltb_spec T
                    (now st + (Z.max 0 ms + fst (Quantam.settle (context st) (k (context st))))));
          [reflexivity | lia].
      * (* the function is resumed first *)
        destruct Hresume as [m Hm]; [intros T' e' [= <- <-]; cbn; lia|].
        exists (S m). intros fuel. destruct (Hm fuel) as (tr & Htr & Heq).
        exists (Resumed 0 attempt (context st) :: tr). split; [exact Htr|].
        cbn [Nat.add]. rewrite (groupLoop_round _ _ _ wake).
        2:{ cbn [Quantam.dueAt]. f_equal. lia. }
        cbn [Quantam.fire context]. destruct (Z.ltb_spec T wake); [lia|].
        fold stw. rewrite Heq. clear Heq Hm.
        now destruct (Quantam.groupLoop _ _ _ _ _ _ _ _) as [[tr' st2] res].
    + destruct Hresume as [m Hm]; [intros T' e' [=]|].
      exists (S m). intros fuel. destruct (Hm fuel) as (tr & Htr & Heq).
      exists (Resumed 0 attempt (context st) :: tr). split; [exact Htr|].
      cbn [Nat.add]. rewrite (groupLoop_round _ _ _ wake) by reflexivity.
      cbn [Quantam.fire context]. fold stw. rewrite Heq. clear Heq Hm.
      now destruct (Quantam.groupLoop _ _ _ _ _ _ _ _) as [[tr' st2] res].
Qed.


Lemma settle_settles ctx p : snd (Quantam.settle ctx p) <> Pending.
Proof.
  induction p as [v|e|ms k IH]; cbn; try discriminate.
  specialize (IH ctx). now destruct (Quantam.settle ctx (k ctx)).
Qed.

Lemma withoutResumed_app tr tr' :
  withoutResumed (tr ++ tr') = withoutResumed tr ++ withoutResumed tr'.
Proof. apply List.filter_app. Qed.

(** The end of the race as the event loop reaches it is the awaited result
    of the [try] block. *)
Lemma race_link attempt st :
  let ctx := set_retryCount attempt (context st) in
  let st' := {| now := now st; context := ctx |} in
  let deadline :=
    if truthy (Quantam.effectiveTimeout this stepT) then
      let timer := Quantam.createTimeout (default 0 (Quantam.effectiveTimeout this stepT)) in
      Some (now st + fst timer, snd timer)
    else None in
  let promise := Quantam.settle ctx (fn input ctx) in
  let result := Quantam.awaited this fn input stepT ctx in
  raceState deadline st' (fst promise) = {| now := now st + fst result; context := ctx |} /\
  raceTask r d attempt deadline st' (fst promise) (snd promise)
  = match snd result with
    | Resolved v => Quantam.Finished (Resolved v)
    | Rejected e =>
        Quantam.failAttempt r d attempt e {| now := now st + fst result; context := ctx |}
    | Pending => Quantam.Finished Pending
    end.
Proof.
  cbn zeta.
  unfold Quantam.awaited, raceTask, raceState, raceEnd, Quantam.race, Quantam.createTimeout.
  destruct (truthy (Quantam.effectiveTimeout this stepT)); cbn [fst snd now context].
  - set (M := setTimeout (default 0 (Quantam.effectiveTimeout this stepT))).
    destruct (Z.leb_spec
                (fst (Quantam.settle (set_retryCount attempt (context st))
                        (fn input (set_retryCount attempt (context st))))) M) as [Hle|Hgt].
    + destruct (Z.ltb_spec (now st + M)
                  (now st + fst (Quantam.settle (set_retryCount attempt (context st))
                                   (fn input (set_retryCount attempt (context st))))));
        [lia|]. split; reflexivity.
    + destruct (Z.ltb_spec (now st + M)
                  (now st + fst (Quantam.settle (set_retryCount attempt (context st))
                                   (fn input (set_retryCount attempt (context st))))));
        [|lia]. cbn [fst snd]. split; reflexivity.
  - split; reflexivity.
Qed.

Lemma awaited_settles ctx : snd (Quantam.awaited this fn input stepT ctx) <> Pending.
Proof.
  unfold Quantam.awaited, Quantam.race.
  destruct (truthy _); [|apply settle_settles].
  destruct (_ <=? _); [apply settle_settles | discriminate].
Qed.

(** The retry loop and the task of a one-member group, from the start of
    attempt [attempt] on. *)
Lemma one_member_loop remaining :
  forall attempt lastError st,
    Z.of_nat remaining = Z.max 0 (r + 1 - attempt) ->
    let started := Quantam.startAttempt this input r d stepT fn 0 attempt lastError st in
    let single :=
      Quantam.attemptLoop this fn input r d stepT remaining attempt lastError st in
    exists n, forall fuel, exists tr,
      Quantam.groupLoop this input r d stepT (n + fuel)
        [(fn, resultOf started)] (stateOf started)
      = (tr, stateOf single, settledMap (fun v => [v]) (resultOf single)) /\
      withoutResumed (traceOf started ++ tr) = traceOf single.
Proof.
  induction remaining as [|remaining IH]; intros attempt lastError st Hrem; cbn zeta.
  - exists 0%nat. intros fuel. exists [].
    unfold Quantam.startAttempt. destruct (Z.leb_spec attempt r); [lia|].
    cbn [resultOf stateOf traceOf fst snd Quantam.attemptLoop].
    rewrite groupLoop_finished. split; reflexivity.
  - assert (attempt <= r) as Hle by lia.
    (* the catch block, for a failure [e] of this attempt in state [stf] *)
    assert (forall e stf,
              let caught := catchBlock this fn input r d stepT remaining attempt e stf in
              exists n, forall fuel, exists tr,
                Quantam.groupLoop this input r d stepT (n + fuel)
                  [(fn, Quantam.failAttempt r d attempt e stf)] stf
                = (tr, stateOf caught, settledMap (fun v => [v]) (resultOf caught)) /\
                withoutResumed tr = traceOf caught) as Hcatch.
    { intros e stf. cbn zeta. unfold Quantam.failAttempt, catchBlock.
      destruct (Z.ltb_spec attempt r) as [Hlt|Hge].
      - destruct (Quantam.sleep _ _ _) as [t [ab|]].
        + exists 1%nat. intros fuel. exists []. cbn [Nat.add].
          rewrite (groupLoop_round _ _ _ t) by reflexivity.
          cbn [Quantam.fire]. rewrite groupLoop_finished. split; reflexivity.
        + destruct (IH (attempt + 1) (Some e) {| now := t; context := context stf |}
                      ltac:(lia)) as [n Hn].
          exists (S n). intros fuel. destruct (Hn fuel) as (tr & Heq & Htr).
          cbn [Nat.add]. rewrite (groupLoop_round _ _ _ t) by reflexivity.
          cbn [Quantam.fire].
          destruct (Quantam.startAttempt _ _ _ _ _ _ _ _ _ _) as [[tr0 st0] task0].
          destruct (Quantam.attemptLoop _ _ _ _ _ _ _ _ _ _) as [[trS stS] resS].
          unfold traceOf, stateOf, resultOf in *. cbn [fst snd] in *.
          rewrite Heq. eexists. split; [reflexivity|].
          cbn [app]. unfold withoutResumed in *. cbn [List.filter isResumed negb].
          now rewrite Htr.
      - assert (remaining = 0%nat) as -> by lia.
        exists 0%nat. intros fuel. exists [].
        rewrite groupLoop_finished. split; reflexivity. }
    rewrite attemptLoop_S.
    unfold Quantam.startAttempt, Quantam.tryAttempt.
    destruct (Z.leb_spec attempt r); [|lia].
    destruct (Quantam.checkAborted _ _) as [e|].
    + (* cancelled before the call *)
      destruct (Hcatch e st) as [n Hn]. exists n. intros fuel.
      destruct (Hn fuel) as (tr & Heq & Htr). exists tr.
      cbn zeta in *. destruct (catchBlock _ _ _ _ _ _ _ _ _ _) as [[trS stS] resS].
      unfold traceOf, stateOf, resultOf in *. cbn [fst snd app] in *.
      split; assumption.
    + (* the call *)
      pose proof (race_link attempt st) as Hlink. cbn zeta in Hlink.
      destruct Hlink as [Hstate Htask].
      set (ctx := set_retryCount attempt (context st)) in *.
      set (st' := {| now := now st; context := ctx |}) in *.
      set (deadline := if truthy (Quantam.effectiveTimeout this stepT) then _ else None) in *.
      destruct (awaitFn_rounds (fn input ctx) attempt deadline st') as [m Hm].
      { subst deadline. intros T e.
        destruct (truthy _); [|discriminate].
        intros [= <- _]. unfold Quantam.createTimeout. cbn [fst now].
        pose proof (setTimeout_bounds (default 0 (Quantam.effectiveTimeout this stepT))).
        subst st'. cbn [now]. lia. }
      change (context st') with ctx in Hm. rewrite Hstate, Htask in Hm.
      pose proof (awaited_settles ctx) as Hsettles.
      cbn [resultOf stateOf traceOf fst snd].
      destruct (snd (Quantam.awaited this fn input stepT ctx)) as [v|e|] eqn:Hres;
        [| |contradiction].
      * exists m. intros fuel. destruct (Hm fuel) as (tr & Htr & Heq).
        rewrite groupLoop_finished in Heq. rewrite Heq.
        eexists. split; [reflexivity|].
        rewrite app_nil_r. unfold withoutResumed in *.
        cbn [app List.filter isResumed negb]. now rewrite Htr.
      * destruct (Hcatch e {| now := now st + fst (Quantam.awaited this fn input stepT ctx);
                              context := ctx |}) as [n Hn].
        exists (m + n)%nat. intros fuel.
        destruct (Hm (n + fuel)%nat) as (tr & Htr & Heq).
        destruct (Hn fuel) as (tr' & Heq' & Htr').
        rewrite <- Nat.add_assoc, Heq, Heq'. cbn zeta in *.
        destruct (catchBlock _ _ _ _ _ _ _ _ _ _) as [[trS stS] resS].
        unfold traceOf, stateOf, resultOf in *. cbn [fst snd] in *.
        eexists. split; [reflexivity|].
        unfold withoutResumed in *. cbn [app List.filter isResumed negb].
        now rewrite List.filter_app, Htr, Htr'.
Qed.

End OneMember.

(** X21: The two embeddings of [executeSingleStep] agree: given enough fuel,
    a group whose only member is [fn] ends as the single step [fn] does,
    with the value in a one-element array. *)
Theorem one_member_group_is_single_step :
  forall this fn input st r d stepT,
    exists fuel0, forall fuel, (fuel0 <= fuel)%nat ->
      let group := Quantam.executeParallelSteps fuel this [fn] input st r d stepT in
      let single := Quantam.executeSingleStep this fn input st r d stepT in
      resultOf group = settledMap (fun v => VArr [v]) (resultOf single) /\
      stateOf group = stateOf single /\
      withoutResumed (traceOf group) = traceOf single.
Proof.
  intros this fn input st r d stepT.
  destruct (one_member_loop this fn input r d stepT (Z.to_nat (r + 1)) 0 None st
              ltac:(lia)) as [n Hn].
  exists n. intros fuel Hfuel. cbn zeta in *.
  destruct (Hn (fuel - n)%nat) as (tr & Heq & Htr).
  replace (n + (fuel - n))%nat with fuel in Heq by lia.
  unfold Quantam.executeParallelSteps, Quantam.executeSingleStep.
  cbn [Quantam.startAll].
  destruct (Quantam.startAttempt _ _ _ _ _ _ _ _ _ _) as [[tr0 st0] task0].
  unfold traceOf, stateOf, resultOf in *. cbn [fst snd] in *.
  rewrite Heq. cbn [fst snd]. rewrite app_nil_r.
  destruct (Quantam.attemptLoop _ _ _ _ _ _ _ _ _ _) as [[trS stS] [v|e|]];
    cbn [fst snd settledMap] in *; auto.
Qed.

(** ** The batch scheduler *)

Section BatchFacts.
Variable runOf : nat -> value -> Settled value.
Variable inputs : list value.

Lemma runningFrom_length k ws :
  length (Quantam.runningFrom k ws) = length (List.filter isRunning ws).
Proof.
  revert k. induction ws as [|[i| |] ws IH]; intros k; cbn; auto.
Qed.

Lemma runningFrom_bound k ws : (length (Quantam.runningFrom k ws) <= length ws)%nat.
Proof.
  revert k. induction ws as [|[i| |] ws IH]; intros k; cbn;
    [lia | specialize (IH (S k)); lia ..].
Qed.

Lemma runningFrom_elem k ws w :
  w ∈ Quantam.runningFrom k ws ->
  exists i, (k <= w)%nat /\ ws !! (w - k)%nat = Some (Quantam.Running i).
Proof.
  revert k. induction ws as [|wk ws IH]; intros k Hw; cbn in Hw.
  - inversion Hw.
  - assert (w ∈ Quantam.runningFrom (S k) ws ->
            exists i, (k <= w)%nat /\ (wk :: ws) !! (w - k)%nat = Some (Quantam.Running i))
      as Hrest.
    { intros H. destruct (IH _ H) as (i & Hk & Hi). exists i. split; [lia|].
      replace (w - k)%nat with (S (w - S k)) by lia. exact Hi. }
    destruct wk as [i| |]; auto.
    apply elem_of_cons in Hw as [-> | Hw]; auto.
    exists i. split; [lia|]. now rewrite Nat.sub_diag.
Qed.

Lemma runningFrom_all k ws :
  Forall (fun wk => isRunning wk = true) ws ->
  length (Quantam.runningFrom k ws) = length ws.
Proof.
  intros H. revert k. induction H as [|[i| |] ws Hwk H IH]; intros k; cbn in *;
    try discriminate; auto.
Qed.

Lemma runningFrom_app k ws wk :
  length (Quantam.runningFrom k (ws ++ [wk]))
  = (length (Quantam.runningFrom k ws) + (if isRunning wk then 1 else 0))%nat.
Proof.
  rewrite !runningFrom_length, List.filter_app, length_app. cbn.
  destruct (isRunning wk); reflexivity.
Qed.

Lemma runningFrom_insert k ws w old new :
  ws !! w = Some old ->
  (length (Quantam.runningFrom k (<[w := new]> ws)) + (if isRunning old then 1 else 0)
   = length (Quantam.runningFrom k ws) + (if isRunning new then 1 else 0))%nat.
Proof.
  rewrite !runningFrom_length. clear k.
  revert w. induction ws as [|wk ws IH]; intros w Hw; [discriminate|].
  destruct w as [|w].
  - injection Hw as ->.
    change (<[0%nat := new]> (old :: ws)) with (new :: ws).
    cbn [List.filter]. destruct (isRunning old), (isRunning new); cbn [length]; lia.
  - specialize (IH w Hw).
    change (<[S w := new]> (wk :: ws)) with (wk :: <[w := new]> ws).
    cbn [List.filter].
    destruct (isRunning old), (isRunning new), (isRunning wk); cbn [length] in *; lia.
Qed.

(** The worker picked by the scheduler is one that awaits a run. *)
Lemma pick_running choice p w :
  Quantam.pick choice p = Some w ->
  exists i, Quantam.workers p !! w = Some (Quantam.Running i).
Proof.
  unfold Quantam.pick. intros H.
  apply list_elem_of_lookup_2 in H. apply runningFrom_elem in H as (i & _ & Hi).
  exists i. now rewrite Nat.sub_0_r in Hi.
Qed.

(** While a run is in flight, the scheduler has a worker to pick. *)
Lemma pick_some choice p :
  (0 < Quantam.inFlight p)%nat -> is_Some (Quantam.pick choice p).
Proof.
  unfold Quantam.pick, Quantam.inFlight. intros H.
  apply lookup_lt_is_Some. apply Nat.mod_upper_bound. lia.
Qed.


(** *** The invariant of the pool *)

Lemma poolInv_initial :
  poolInv runOf inputs
    {| Quantam.index := 0%nat; Quantam.results := replicate (length inputs) None;
       Quantam.workers := []; Quantam.claimed := []; Quantam.settled := [];
       Quantam.failed := None |}.
Proof.
  constructor; cbn; try (intros; discriminate); try reflexivity.
  - apply length_replicate.
  - intros; lia.
  - intros; constructor.
Qed.

Lemma poolInv_spawn p :
  poolInv runOf inputs p -> poolInv runOf inputs (Quantam.spawn inputs p).
Proof.
  intros [Hcl Hres Hrun Huni Hsto Hret Hthr Hbusy Hlog].
  unfold Quantam.spawn, Quantam.enter.
  destruct (Nat.leb_spec (length inputs) (Quantam.index p)) as [Hge|Hlt];
    constructor; cbn [Quantam.index Quantam.results Quantam.workers Quantam.claimed
                      Quantam.settled Quantam.failed].
  - rewrite Hcl. f_equal. lia.
  - assumption.
  - intros w i Hw. apply lookup_app_Some in Hw as [Hw | [_ Hw]].
    + destruct (Hrun w i Hw). split; [lia | assumption].
    + apply list_lookup_singleton_Some in Hw as [_ Hw]. discriminate.
  - intros w w' i Hw Hw'.
    apply lookup_app_Some in Hw as [Hw | [_ Hw]];
      [|apply list_lookup_singleton_Some in Hw as [_ Hw]; discriminate].
    apply lookup_app_Some in Hw' as [Hw' | [_ Hw']];
      [|apply list_lookup_singleton_Some in Hw' as [_ Hw']; discriminate].
    eauto.
  - intros i Hf Hi. destruct (Hsto i Hf ltac:(lia)) as [[w Hw] | Hv]; [left | right; exact Hv].
    exists w. apply lookup_app_Some. now left.
  - intros; lia.
  - intros w Hw. apply lookup_app_Some in Hw as [Hw | [_ Hw]]; [eauto|].
    apply list_lookup_singleton_Some in Hw as [_ Hw]. discriminate.
  - intros; lia.
  - unfold Quantam.inFlight in *. cbn [Quantam.workers]. rewrite runningFrom_app. cbn. lia.
  - rewrite fmap_app, Hcl.
    replace (Nat.min (S (Quantam.index p)) (length inputs)) with (S (Quantam.index p)) by lia.
    replace (Nat.min (Quantam.index p) (length inputs)) with (Quantam.index p) by lia.
    rewrite seq_S. reflexivity.
  - assumption.
  - intros w i Hw. apply lookup_app_Some in Hw as [Hw | [Hlen Hw]].
    + destruct (Hrun w i Hw). split; [lia | apply elem_of_app; now left].
    + apply list_lookup_singleton_Some in Hw as [Hw0 Hw]. injection Hw as <-.
      assert (w = length (Quantam.workers p)) as -> by lia.
      split; [lia | apply elem_of_app; right; apply list_elem_of_singleton; reflexivity].
  - intros w w' i Hw Hw'.
    apply lookup_app_Some in Hw as [Hw | [Hlen Hw]];
      apply lookup_app_Some in Hw' as [Hw' | [Hlen' Hw']].
    + eauto.
    + apply list_lookup_singleton_Some in Hw' as [_ Hw']. injection Hw' as <-.
      destruct (Hrun w _ Hw). lia.
    + apply list_lookup_singleton_Some in Hw as [_ Hw]. injection Hw as <-.
      destruct (Hrun w' _ Hw'). lia.
    + apply list_lookup_singleton_Some in Hw as [Hw0 _].
      apply list_lookup_singleton_Some in Hw' as [Hw0' _]. lia.
  - intros i Hf Hi.
    destruct (decide (i = Quantam.index p)) as [-> | Hne].
    + left. exists (length (Quantam.workers p)). now apply list_lookup_middle.
    + destruct (Hsto i Hf ltac:(lia)) as [[w Hw] | Hv]; [left | right; exact Hv].
      exists w. apply lookup_app_Some. now left.
  - intros w Hw. apply lookup_app_Some in Hw as [Hw | [_ Hw]].
    + specialize (Hret w Hw). lia.
    + apply list_lookup_singleton_Some in Hw as [_ Hw]. discriminate.
  - intros w Hw. apply lookup_app_Some in Hw as [Hw | [_ Hw]]; [eauto|].
    apply list_lookup_singleton_Some in Hw as [_ Hw]. discriminate.
  - intros Hf _. apply Forall_app. split; [apply Hbusy; [assumption | lia]|].
    repeat constructor.
  - unfold Quantam.inFlight in *. cbn [Quantam.workers].
    rewrite runningFrom_app, length_app. cbn. lia.
Qed.


Lemma poolInv_settleRun w p :
  poolInv runOf inputs p -> poolInv runOf inputs (Quantam.settleRun runOf inputs w p).
Proof.
  intros Hinv. pose proof Hinv as [Hcl Hres Hrun Huni Hsto Hret Hthr Hbusy Hlog].
  unfold Quantam.settleRun.
  destruct (Quantam.workers p !! w) as [[i| |]|] eqn:Hw; try exact Hinv.
  destruct (runOf i (default VUndefined (inputs !! i))) as [v|e|] eqn:Hv; try exact Hinv.
  - (* the run resolved: store the value and go round the loop *)
    destruct (Hrun w i Hw) as [Hi Hin].
    pose proof (lookup_lt_Some _ _ _ Hw) as Hwlt.
    unfold Quantam.enter. cbn [Quantam.index].
    destruct (Nat.leb_spec (length inputs) (Quantam.index p)) as [Hge|Hlt];
      constructor; cbn [Quantam.index Quantam.results Quantam.workers Quantam.claimed
                        Quantam.settled Quantam.failed].
    + rewrite Hcl. f_equal. lia.
    + now rewrite length_insert.
    + intros w' i' Hw'. apply list_lookup_insert_Some in Hw' as [(_ & Heq & _) | [Hne Hw']];
        [discriminate|].
      destruct (Hrun w' i' Hw'). split; [lia | assumption].
    + intros w1 w2 i' H1 H2.
      apply list_lookup_insert_Some in H1 as [(_ & Heq & _) | [_ H1]]; [discriminate|].
      apply list_lookup_insert_Some in H2 as [(_ & Heq & _) | [_ H2]]; [discriminate|].
      eauto.
    + intros i' Hf Hi'. destruct (decide (i' = i)) as [-> | Hne].
      * right. exists v. split; [|assumption].
        apply list_lookup_insert_eq. lia.
      * destruct (Hsto i' Hf ltac:(lia)) as [[w' Hw'] | (v' & Hv' & Hr')].
        -- left. exists w'. rewrite list_lookup_insert_ne; [assumption|].
           intros <-. congruence.
        -- right. exists v'. split; [|assumption]. now rewrite list_lookup_insert_ne.
    + intros w' Hw'. lia.
    + intros w' Hw'. apply list_lookup_insert_Some in Hw' as [(_ & Heq & _) | [_ Hw']];
        [discriminate | eauto].
    + intros; lia.
    + unfold Quantam.inFlight in *. cbn [Quantam.workers].
      pose proof (runningFrom_insert 0 _ w _ Quantam.Returned Hw) as Hcount.
      rewrite length_app. cbn in *. lia.
    + rewrite fmap_app, Hcl.
      replace (Nat.min (S (Quantam.index p)) (length inputs)) with (S (Quantam.index p)) by lia.
      replace (Nat.min (Quantam.index p) (length inputs)) with (Quantam.index p) by lia.
      rewrite seq_S. reflexivity.
    + now rewrite length_insert.
    + intros w' i' Hw'. apply list_lookup_insert_Some in Hw' as [(<- & Heq & _) | [Hne Hw']].
      * injection Heq as <-. split; [lia | apply elem_of_app; right; constructor].
      * destruct (Hrun w' i' Hw'). split; [lia | apply elem_of_app; now left].
    + intros w1 w2 i' H1 H2.
      apply list_lookup_insert_Some in H1 as [(<- & Heq1 & _) | [Hne1 H1]];
        apply list_lookup_insert_Some in H2 as [(<- & Heq2 & _) | [Hne2 H2]].
      * reflexivity.
      * injection Heq1 as <-. destruct (Hrun w2 _ H2). lia.
      * injection Heq2 as <-. destruct (Hrun w1 _ H1). lia.
      * eauto.
    + intros i' Hf Hi'. destruct (decide (i' = i)) as [-> | Hne].
      * right. exists v. split; [|assumption].
        apply list_lookup_insert_eq. lia.
      * destruct (decide (i' = Quantam.index p)) as [-> | Hne'].
        -- left. exists w. now apply list_lookup_insert_eq.
        -- destruct (Hsto i' Hf ltac:(lia)) as [[w' Hw'] | (v' & Hv' & Hr')].
           ++ left. exists w'. rewrite list_lookup_insert_ne; [assumption|].
              intros <-. congruence.
           ++ right. exists v'. split; [|assumption]. now rewrite list_lookup_insert_ne.
    + intros w' Hw'. apply list_lookup_insert_Some in Hw' as [(_ & Heq & _) | [_ Hw']];
        [discriminate|]. specialize (Hret w' Hw'). lia.
    + intros w' Hw'. apply list_lookup_insert_Some in Hw' as [(_ & Heq & _) | [_ Hw']];
        [discriminate | eauto].
    + intros Hf _. apply Forall_insert; [apply Hbusy; [assumption | lia] | reflexivity].
    + unfold Quantam.inFlight in *. cbn [Quantam.workers].
      pose proof (runningFrom_insert 0 _ w _ (Quantam.Running (Quantam.index p)) Hw) as Hcount.
      rewrite !length_app. cbn in *. lia.
  - (* the run rejected: the worker rethrows *)
    constructor; cbn [Quantam.index Quantam.results Quantam.workers Quantam.claimed
                      Quantam.settled Quantam.failed]; try assumption.
    + intros w' i' Hw'. apply list_lookup_insert_Some in Hw' as [(_ & Heq & _) | [_ Hw']];
        [discriminate | eauto].
    + intros w1 w2 i' H1 H2.
      apply list_lookup_insert_Some in H1 as [(_ & Heq & _) | [_ H1]]; [discriminate|].
      apply list_lookup_insert_Some in H2 as [(_ & Heq & _) | [_ H2]]; [discriminate|].
      eauto.
    + intros i' Hf. destruct (Quantam.failed p); discriminate.
    + intros w' Hw'. apply list_lookup_insert_Some in Hw' as [(_ & Heq & _) | [_ Hw']];
        [discriminate | eauto].
    + intros w' _. destruct (Quantam.failed p); discriminate.
    + intros Hf. destruct (Quantam.failed p); discriminate.
    + unfold Quantam.inFlight in *. cbn [Quantam.workers].
      pose proof (runningFrom_insert 0 _ w _ Quantam.Thrown Hw) as Hcount.
      rewrite length_app. cbn in *. lia.
Qed.


Lemma poolInv_startWorkers n : poolInv runOf inputs (Quantam.startWorkers inputs n).
Proof.
  unfold Quantam.startWorkers. induction n as [|n IH].
  - apply poolInv_initial.
  - rewrite Nat.iter_succ. now apply poolInv_spawn.
Qed.

Lemma poolInv_drain k :
  forall sched t p,
    poolInv runOf inputs p -> poolInv runOf inputs (Quantam.drain runOf inputs k sched t p).
Proof.
  induction k as [|k IH]; intros sched t p Hinv; cbn [Quantam.drain]; [assumption|].
  destruct (Quantam.pick (sched t) p); [|assumption].
  apply IH. now apply poolInv_settleRun.
Qed.

Lemma pick_none choice choice' p :
  Quantam.pick choice p = None -> Quantam.pick choice' p = None.
Proof.
  unfold Quantam.pick. intros H. apply lookup_ge_None in H.
  destruct (Quantam.runningFrom 0 (Quantam.workers p)) as [|w ws]; [reflexivity|].
  pose proof (Nat.mod_upper_bound choice (length (w :: ws))) as Hlt.
  cbn [length] in *. lia.
Qed.

(** A drain of [k + 1] rounds is a drain of [k] rounds and one more
    settlement: the pools after 0, 1, 2, ... rounds are the successive
    states of a batch. *)
Lemma drain_S k :
  forall sched t p,
    Quantam.drain runOf inputs (S k) sched t p
    = match Quantam.pick (sched (t + k)%nat) (Quantam.drain runOf inputs k sched t p) with
      | Some w =>
          Quantam.settleRun runOf inputs w (Quantam.drain runOf inputs k sched t p)
      | None => Quantam.drain runOf inputs k sched t p
      end.
Proof.
  induction k as [|k IH]; intros sched t p.
  - cbn [Quantam.drain]. rewrite Nat.add_0_r. now destruct (Quantam.pick _ _).
  - remember (S k) as k' eqn:Hk'. cbn [Quantam.drain]. subst k'.
    destruct (Quantam.pick (sched t) p) as [w|] eqn:Hpick.
    + rewrite IH. replace (S t + k)%nat with (t + S k)%nat by lia.
      cbn [Quantam.drain]. now rewrite Hpick.
    + cbn [Quantam.drain]. rewrite Hpick.
      now rewrite (pick_none _ (sched (t + S k)%nat) _ Hpick).
Qed.

(** *** Workers *)

Lemma spawn_workers p :
  length (Quantam.workers (Quantam.spawn inputs p)) = S (length (Quantam.workers p)).
Proof.
  unfold Quantam.spawn, Quantam.enter.
  destruct (length inputs <=? Quantam.index p)%nat; cbn; rewrite length_app; cbn; lia.
Qed.

Lemma settleRun_workers w p :
  length (Quantam.workers (Quantam.settleRun runOf inputs w p))
  = length (Quantam.workers p).
Proof.
  unfold Quantam.settleRun, Quantam.enter.
  destruct (Quantam.workers p !! w) as [[i| |]|]; try reflexivity.
  destruct (runOf _ _); try reflexivity; cbn [Quantam.index].
  - destruct (length inputs <=? Quantam.index p)%nat; cbn; now rewrite length_insert.
  - cbn. now rewrite length_insert.
Qed.

Lemma startWorkers_workers n :
  length (Quantam.workers (Quantam.startWorkers inputs n)) = n.
Proof.
  unfold Quantam.startWorkers. induction n as [|n IH]; [reflexivity|].
  now rewrite Nat.iter_succ, spawn_workers, IH.
Qed.

Lemma drain_workers k :
  forall sched t p,
    length (Quantam.workers (Quantam.drain runOf inputs k sched t p))
    = length (Quantam.workers p).
Proof.
  induction k as [|k IH]; intros sched t p; cbn [Quantam.drain]; [reflexivity|].
  destruct (Quantam.pick (sched t) p); [|reflexivity].
  now rewrite IH, settleRun_workers.
Qed.

Lemma startWorkers_index n :
  (n <= length inputs)%nat ->
  Quantam.index (Quantam.startWorkers inputs n) = n /\
  Quantam.failed (Quantam.startWorkers inputs n) = None /\
  Quantam.inFlight (Quantam.startWorkers inputs n) = n.
Proof.
  unfold Quantam.startWorkers. induction n as [|n IH]; intros Hn.
  - repeat split.
  - destruct IH as (Hi & Hf & Hr); [lia|]. rewrite Nat.iter_succ.
    set (p := Nat.iter n _ _) in *.
    unfold Quantam.spawn, Quantam.enter. rewrite Hi.
    destruct (Nat.leb_spec (length inputs) n); [lia|].
    unfold Quantam.inFlight in *. cbn [Quantam.index Quantam.failed Quantam.workers].
    rewrite runningFrom_app, Hr. cbn. repeat split; [assumption | lia].
Qed.

(** The runs in flight never outnumber the workers. *)
Lemma inFlight_workers p : (Quantam.inFlight p <= length (Quantam.workers p))%nat.
Proof. apply runningFrom_bound. Qed.

Lemma runsInFlight_inFlight p :
  poolInv runOf inputs p -> runsInFlight p = Quantam.inFlight p.
Proof. intros H. unfold runsInFlight. rewrite (inv_logs _ _ _ H). lia. Qed.

Lemma inFlight_zero p w wk :
  Quantam.inFlight p = 0%nat -> Quantam.workers p !! w = Some wk -> isRunning wk = false.
Proof.
  unfold Quantam.inFlight. rewrite runningFrom_length.
  generalize (Quantam.workers p). intros ws. revert w.
  induction ws as [|wk' ws IH]; intros w Hlen Hw; [discriminate|].
  cbn [List.filter] in Hlen. destruct (isRunning wk') eqn:Hwk'; [discriminate|].
  destruct w as [|w]; [injection Hw as <-; assumption | eauto].
Qed.

Lemma forallb_returned ws :
  forallb (fun wk => match wk with Quantam.Returned => true | _ => false end) ws = true
  <-> (forall w wk, ws !! w = Some wk -> wk = Quantam.Returned).
Proof.
  induction ws as [|wk ws IH]; cbn [forallb].
  - split; [intros _ w wk Hw; discriminate | reflexivity].
  - rewrite andb_true_iff, IH. split.
    + intros [Hwk Hws] [|w] wk' Hw; [|eauto].
      injection Hw as <-. now destruct wk.
    + intros H. split; [now rewrite (H 0%nat wk eq_refl)|].
      intros w wk' Hw. exact (H (S w) wk' Hw).
Qed.


(** *** What a finished batch returns *)

(** Safety: when the workers have all returned and none has thrown, every
    index was claimed once and the slot of each input holds the value its
    run resolved with. *)
Lemma collect_resolved p rs :
  poolInv runOf inputs p ->
  (0 < length (Quantam.workers p))%nat ->
  Quantam.collect p = Resolved rs ->
  (Quantam.claimed p).*2 = seq 0 (length inputs) /\
  length rs = length inputs /\
  (forall i x, inputs !! i = Some x ->
               exists v, rs !! i = Some v /\ runOf i x = Resolved v).
Proof.
  intros [Hcl Hres Hrun Huni Hsto Hret Hthr Hbusy Hlog] Hpos.
  unfold Quantam.collect.
  destruct (Quantam.failed p) eqn:Hf; [discriminate|].
  destruct (forallb _ _) eqn:Hall; [|discriminate].
  intros [= <-]. rewrite forallb_returned in Hall.
  assert (length inputs <= Quantam.index p)%nat as Hidx.
  { destruct (lookup_lt_is_Some_2 (Quantam.workers p) 0%nat Hpos) as [wk Hwk].
    apply (Hret 0%nat). now rewrite Hwk, (Hall _ _ Hwk). }
  split; [|split].
  - rewrite Hcl. f_equal. lia.
  - now rewrite length_fmap.
  - intros i x Hx.
    pose proof (lookup_lt_Some _ _ _ Hx) as Hi.
    destruct (Hsto i eq_refl ltac:(lia)) as [[w Hw] | (v & Hv & Hr)].
    + specialize (Hall _ _ Hw). discriminate.
    + exists v. rewrite list_lookup_fmap, Hv. rewrite Hx in Hr. split; [reflexivity | exact Hr].
Qed.

(** Liveness: while no run rejects, each round settles one run, and after
    as many rounds as there are runs still to settle, every worker has
    left its loop. *)
Lemma drain_completes k :
  forall sched t p,
    poolInv runOf inputs p ->
    Quantam.failed p = None ->
    (forall i x, inputs !! i = Some x -> exists v, runOf i x = Resolved v) ->
    (0 < length (Quantam.workers p))%nat ->
    (length inputs - Nat.min (Quantam.index p) (length inputs) + Quantam.inFlight p = k)%nat ->
    let p' := Quantam.drain runOf inputs k sched t p in
    Quantam.failed p' = None /\ Quantam.inFlight p' = 0%nat.
Proof.
  induction k as [|k IH]; intros sched t p Hinv Hf Hall Hpos Hk; cbn zeta;
    cbn [Quantam.drain].
  - split; [assumption | lia].
  - assert (0 < Quantam.inFlight p)%nat as Hbusy.
    { destruct (Nat.eq_dec (Quantam.inFlight p) 0%nat) as [Hz|]; [|lia].
      assert (Quantam.index p < length inputs)%nat as Hlt by lia.
      pose proof (inv_busy _ _ _ Hinv Hf Hlt) as Hrunning.
      unfold Quantam.inFlight in *. rewrite (runningFrom_all _ _ Hrunning) in Hz. lia. }
    destruct (pick_some (sched t) p Hbusy) as [w Hpick]. rewrite Hpick.
    destruct (pick_running _ _ _ Hpick) as [i Hw].
    destruct (inv_running _ _ _ Hinv w i Hw) as [Hi _].
    destruct (lookup_lt_is_Some_2 inputs i ltac:(lia)) as [x Hx].
    destruct (Hall i x Hx) as [v Hv].
    apply IH.
    + now apply poolInv_settleRun.
    + unfold Quantam.settleRun, Quantam.enter. rewrite Hw, Hx.
      replace (default VUndefined (Some x)) with x by reflexivity.
      rewrite Hv. cbn [Quantam.index].
      now destruct (length inputs <=? Quantam.index p)%nat.
    + exact Hall.
    + now rewrite settleRun_workers.
    + unfold Quantam.settleRun, Quantam.enter. rewrite Hw, Hx.
      replace (default VUndefined (Some x)) with x by reflexivity.
      rewrite Hv. cbn [Quantam.index]. unfold Quantam.inFlight in *.
      destruct (Nat.leb_spec (length inputs) (Quantam.index p));
        cbn [Quantam.index Quantam.workers].
      * pose proof (runningFrom_insert 0%nat _ w _ Quantam.Returned Hw) as Hcount.
        cbn [isRunning] in Hcount. lia.
      * pose proof (runningFrom_insert 0%nat _ w _
                      (Quantam.Running (Quantam.index p)) Hw) as Hcount.
        cbn [isRunning] in Hcount. lia.
Qed.

Lemma collect_complete p :
  poolInv runOf inputs p ->
  Quantam.failed p = None -> Quantam.inFlight p = 0%nat ->
  Quantam.collect p = Resolved (default VUndefined <$> Quantam.results p).
Proof.
  intros Hinv Hf Hz. unfold Quantam.collect. rewrite Hf.
  replace (forallb _ _) with true; [reflexivity|].
  symmetry. apply forallb_returned. intros w wk Hw.
  pose proof (inFlight_zero _ _ _ Hz Hw) as Hrun.
  destruct wk as [i| |]; [discriminate | reflexivity|].
  now destruct (inv_thrown _ _ _ Hinv w Hw).
Qed.

(** The bounded branch of [runMany]. *)
Lemma batch_pool C sched :
  0 < C < Z.of_nat (length inputs) ->
  Quantam.batch runOf inputs (Some C) sched
  = Quantam.collect (poolAfter runOf inputs C sched (length inputs)).
Proof.
  intros HC. unfold Quantam.batch, poolAfter.
  destruct (Nat.eqb_spec (length inputs) 0); [lia|].
  destruct (Z.leb_spec C 0); [lia|].
  destruct (Z.leb_spec (Z.of_nat (length inputs)) C); [lia|].
  reflexivity.
Qed.

End BatchFacts.

Lemma poolInv_poolAfter runOf inputs C sched k :
  poolInv runOf inputs (poolAfter runOf inputs C sched k).
Proof. apply poolInv_drain, poolInv_startWorkers. Qed.

Lemma poolAfter_workers runOf inputs C sched k :
  0 < C < Z.of_nat (length inputs) ->
  length (Quantam.workers (poolAfter runOf inputs C sched k)) = Z.to_nat C.
Proof.
  intros HC. unfold poolAfter. rewrite drain_workers, startWorkers_workers.
  f_equal. lia.
Qed.

(** C3: with [0 < C < N], whatever the order [sched] in which the runs
    settle and whenever they are started: at every moment the claimed
    indices are pairwise distinct (no index is run twice); once a worker
    has left its loop, and so when [runMany] resolves, the log of claims
    lists every index of [0, N) exactly once, each with the one worker that
    claimed it (no index is skipped); when [runMany] resolves, the returned
    array has the length of [inputs] and holds at position [i] the value
    the run of [inputs[i]] resolved with; and [runMany] does resolve when
    every run does. *)
Theorem runMany_claims_once_and_aligns_results :
  forall fuel h this inputs options C starts sched,
    options ≫= concurrency = Some C ->
    0 < C < Z.of_nat (length inputs) ->
    let runOf := runOfFlow fuel h this options starts in
    (forall k, NoDup (Quantam.claimed (poolAfter runOf inputs C sched k)).*2) /\
    (forall k w,
       Quantam.workers (poolAfter runOf inputs C sched k) !! w = Some Quantam.Returned ->
       (Quantam.claimed (poolAfter runOf inputs C sched k)).*2 = seq 0 (length inputs)) /\
    (forall rs,
       Quantam.runMany fuel h this inputs options starts sched = Resolved rs ->
       (Quantam.claimed (poolAfter runOf inputs C sched (length inputs))).*2
         = seq 0 (length inputs) /\
       length rs = length inputs /\
       forall i x, inputs !! i = Some x ->
                   exists v, rs !! i = Some v /\ runOf i x = Resolved v) /\
    ((forall i x, inputs !! i = Some x -> exists v, runOf i x = Resolved v) ->
     exists rs, Quantam.runMany fuel h this inputs options starts sched = Resolved rs).
Proof.
  intros fuel h this inputs options C starts sched Hopt HC runOf.
  assert (Quantam.runMany fuel h this inputs options starts sched
          = Quantam.collect (poolAfter runOf inputs C sched (length inputs))) as Hrun.
  { unfold Quantam.runMany. rewrite Hopt. now apply batch_pool. }
  rewrite Hrun. split; [|split; [|split]].
  - intros k. rewrite (inv_claimed _ _ _ (poolInv_poolAfter runOf inputs C sched k)).
    apply NoDup_seq.
  - intros k w Hw.
    pose proof (poolInv_poolAfter runOf inputs C sched k) as Hinv.
    rewrite (inv_claimed _ _ _ Hinv). f_equal.
    pose proof (inv_returned _ _ _ Hinv w Hw). lia.
  - intros rs Hrs.
    apply (collect_resolved runOf inputs) in Hrs; [assumption | apply poolInv_poolAfter |].
    rewrite poolAfter_workers by assumption. lia.
  - intros Hall.
    pose proof (startWorkers_index inputs (Z.to_nat (Z.min C (Z.of_nat (length inputs))))
                  ltac:(lia)) as (Hi & Hf & Hr).
    destruct (drain_completes runOf inputs (length inputs) sched 0
                (Quantam.startWorkers inputs (Z.to_nat (Z.min C (Z.of_nat (length inputs))))))
      as [Hf' Hz]; try assumption.
    + apply poolInv_startWorkers.
    + rewrite startWorkers_workers. lia.
    + rewrite Hi, Hr. lia.
    + eexists.
      apply (collect_complete runOf inputs); [apply poolInv_poolAfter | exact Hf' | exact Hz].
Qed.

(** The batch of the repository's test: sixteen inputs, four workers. *)
Lemma runMany_claims_once_and_aligns_results_witness :
  let runOf := runOfFlow 0 (snd flowA) (fst flowA) fourWorkers someStarts in
  (forall k, NoDup (Quantam.claimed (poolAfter runOf sixteen 4 someOrder k)).*2) /\
  (forall k w,
     Quantam.workers (poolAfter runOf sixteen 4 someOrder k) !! w = Some Quantam.Returned ->
     (Quantam.claimed (poolAfter runOf sixteen 4 someOrder k)).*2 = seq 0 (length sixteen)) /\
  (forall rs,
     Quantam.runMany 0 (snd flowA) (fst flowA) sixteen fourWorkers someStarts someOrder
     = Resolved rs ->
     (Quantam.claimed (poolAfter runOf sixteen 4 someOrder (length sixteen))).*2
       = seq 0 (length sixteen) /\
     length rs = length sixteen /\
     forall i x, sixteen !! i = Some x ->
                 exists v, rs !! i = Some v /\ runOf i x = Resolved v) /\
  ((forall i x, sixteen !! i = Some x -> exists v, runOf i x = Resolved v) ->
   exists rs, Quantam.runMany 0 (snd flowA) (fst flowA) sixteen fourWorkers someStarts someOrder
              = Resolved rs).
Proof.
  apply (runMany_claims_once_and_aligns_results 0 (snd flowA) (fst flowA) sixteen
           fourWorkers 4 someStarts someOrder).
  - reflexivity.
  - cbn. lia.
Defined.

(** The test itself: the results are the inputs plus one, in order. *)
Example runMany_sixteen :
  Quantam.runMany 0 (snd flowA) (fst flowA) sixteen fourWorkers someStarts someOrder
  = Resolved ((fun n => VNum (Z.of_nat n + 1)) <$> seq 0 16).
Proof. vm_compute. reflexivity. Qed.

(** C3 as stated fails.  [quantam().step(n => n + 1)] run on the batch
    ["x", 1, 2] with [concurrency: 1], so that [0 < C < N]: the one worker
    claims index 0, the run of "x" rejects, the worker rethrows and leaves
    its loop.  Whatever the schedule and however long one waits, index 0 is
    the only index ever claimed: indices 1 and 2 are skipped, and [runMany]
    rejects with the error of that run. *)
Lemma every_index_is_claimed_counterexample :
  0 < 1 < Z.of_nat (length stringFirst) /\
  (forall sched k,
     (Quantam.claimed
        (poolAfter (runOfFlow 0 (snd flowA) (fst flowA) oneWorker someStarts)
           stringFirst 1 sched k)).*2 = [0%nat]) /\
  (forall sched,
     Quantam.runMany 0 (snd flowA) (fst flowA) stringFirst oneWorker someStarts sched
     = Rejected (mkError "not a number")).
Proof.
  assert (forall sched k,
            Quantam.drain (runOfFlow 0 (snd flowA) (fst flowA) oneWorker someStarts)
              stringFirst (S k) sched 0 (Quantam.startWorkers stringFirst 1)
            = {| Quantam.index := 1; Quantam.results := [None; None; None];
                 Quantam.workers := [Quantam.Thrown]; Quantam.claimed := [(0, 0)%nat];
                 Quantam.settled := [0%nat];
                 Quantam.failed := Some (mkError "not a number") |}) as Hpool.
  { intros sched k. cbn [Quantam.drain]. unfold Quantam.pick.
    change (Quantam.runningFrom 0 (Quantam.workers (Quantam.startWorkers stringFirst 1)))
      with [0%nat].
    cbn [length]. rewrite Nat.mod_1_r. cbn [lookup list_lookup].
    change (Quantam.settleRun (runOfFlow 0 (snd flowA) (fst flowA) oneWorker someStarts)
              stringFirst 0 (Quantam.startWorkers stringFirst 1))
      with {| Quantam.index := 1; Quantam.results := [None; None; None];
              Quantam.workers := [Quantam.Thrown]; Quantam.claimed := [(0, 0)%nat];
              Quantam.settled := [0%nat];
              Quantam.failed := Some (mkError "not a number") |}.
    destruct k; reflexivity. }
  split; [cbn; lia|]. split.
  - intros sched k. unfold poolAfter.
    change (Z.to_nat (Z.min 1 (Z.of_nat (length stringFirst)))) with 1%nat.
    destruct k as [|k]; [reflexivity|]. now rewrite Hpool.
  - intros sched. unfold Quantam.runMany, Quantam.batch.
    cbn [mbind option_bind oneWorker concurrency length Nat.eqb].
    change (Z.to_nat (Z.min 1 (Z.of_nat (length stringFirst)))) with 1%nat.
    cbn [Z.leb Z.of_nat Z.compare orb Pos.of_succ_nat Pos.succ Pos.compare Pos.compare_cont
         stringFirst length].
    change (Quantam.drain _ _ 3 sched 0 _)
      with (Quantam.drain (runOfFlow 0 (snd flowA) (fst flowA) oneWorker someStarts)
              stringFirst 3 sched 0 (Quantam.startWorkers stringFirst 1)).
    now rewrite Hpool.
Qed.

(** C9: with [0 < C < N], whatever the order in which the runs settle, the
    number of runs that have been started and have not settled, as counted
    from the logs of the pool, is at most [C]: while the workers are being
    started and after any number of settlements.  The pool after [N]
    settlements is the one [runMany] collects its result from. *)
Theorem runMany_in_flight_at_most_concurrency :
  forall fuel h this inputs options C starts sched,
    options ≫= concurrency = Some C ->
    0 < C < Z.of_nat (length inputs) ->
    let runOf := runOfFlow fuel h this options starts in
    (forall j, (j <= Z.to_nat C)%nat ->
               Z.of_nat (runsInFlight (Quantam.startWorkers inputs j)) <= C) /\
    (forall k, Z.of_nat (runsInFlight (poolAfter runOf inputs C sched k)) <= C) /\
    Quantam.runMany fuel h this inputs options starts sched
    = Quantam.collect (poolAfter runOf inputs C sched (length inputs)).
Proof.
  intros fuel h this inputs options C starts sched Hopt HC runOf. split; [|split].
  - intros j Hj.
    rewrite (runsInFlight_inFlight runOf inputs _ (poolInv_startWorkers runOf inputs j)).
    pose proof (inFlight_workers (Quantam.startWorkers inputs j)) as Hle.
    rewrite startWorkers_workers in Hle. lia.
  - intros k.
    rewrite (runsInFlight_inFlight runOf inputs _ (poolInv_poolAfter runOf inputs C sched k)).
    pose proof (inFlight_workers (poolAfter runOf inputs C sched k)) as Hle.
    rewrite poolAfter_workers in Hle by assumption. lia.
  - unfold Quantam.runMany. rewrite Hopt. now apply batch_pool.
Qed.

Lemma runMany_in_flight_at_most_concurrency_witness :
  let runOf := runOfFlow 0 (snd flowA) (fst flowA) fourWorkers someStarts in
  (forall j, (j <= Z.to_nat 4)%nat ->
             Z.of_nat (runsInFlight (Quantam.startWorkers sixteen j)) <= 4) /\
  (forall k, Z.of_nat (runsInFlight (poolAfter runOf sixteen 4 someOrder k)) <= 4) /\
  Quantam.runMany 0 (snd flowA) (fst flowA) sixteen fourWorkers someStarts someOrder
  = Quantam.collect (poolAfter runOf sixteen 4 someOrder (length sixteen)).
Proof.
  apply (runMany_in_flight_at_most_concurrency 0 (snd flowA) (fst flowA) sixteen
           fourWorkers 4 someStarts someOrder).
  - reflexivity.
  - cbn. lia.
Defined.

(** ** Further properties of the builders and of the pipeline runner *)

(** *** The executors read the effective timeout only *)

Section SameTimeout.
Variables (a b : Quantam.t) (sa sb : option Z).
Hypothesis Hsame : Quantam.effectiveTimeout a sa = Quantam.effectiveTimeout b sb.

Lemma awaited_same fn input ctx :
  Quantam.awaited a fn input sa ctx = Quantam.awaited b fn input sb ctx.
Proof. unfold Quantam.awaited. now rewrite Hsame. Qed.

Lemma attemptLoop_same fn input r d remaining :
  forall attempt lastError st,
    Quantam.attemptLoop a fn input r d sa remaining attempt lastError st
    = Quantam.attemptLoop b fn input r d sb remaining attempt lastError st.
Proof.
  induction remaining as [|remaining IH]; intros attempt lastError st; [reflexivity|].
  cbn [Quantam.attemptLoop]. unfold Quantam.tryAttempt. rewrite awaited_same.
  destruct (Quantam.checkAborted _ _).
  - destruct (attempt <? r).
    + destruct (Quantam.sleep _ _ _) as [t [ab|]]; [reflexivity|]. now rewrite IH.
    + now rewrite IH.
  - destruct (snd (Quantam.awaited b fn input sb _)); try reflexivity.
    destruct (attempt <? r).
    + destruct (Quantam.sleep _ _ _) as [t [ab|]]; [reflexivity|]. now rewrite IH.
    + now rewrite IH.
Qed.

Lemma startAttempt_same input r d fn member attempt lastError st :
  Quantam.startAttempt a input r d sa fn member attempt lastError st
  = Quantam.startAttempt b input r d sb fn member attempt lastError st.
Proof. unfold Quantam.startAttempt. now rewrite Hsame. Qed.

Lemma fire_same input r d fn member task st :
  Quantam.fire a input r d sa fn member task st
  = Quantam.fire b input r d sb fn member task st.
Proof.
  destruct task as [at_ w k dl|at_ w [e|] le|res]; try reflexivity.
  cbn [Quantam.fire]. now rewrite startAttempt_same.
Qed.

Lemma startAll_same input r d fns :
  forall member st,
    Quantam.startAll a input r d sa fns member st
    = Quantam.startAll b input r d sb fns member st.
Proof.
  induction fns as [|fn fns IH]; intros member st; [reflexivity|].
  cbn [Quantam.startAll]. rewrite startAttempt_same.
  destruct (Quantam.startAttempt _ _ _ _ _ _ _ _ _ _) as [[tr st1] task].
  now rewrite IH.
Qed.

Lemma groupLoop_same input r d fuel :
  forall tasks st,
    Quantam.groupLoop a input r d sa fuel tasks st
    = Quantam.groupLoop b input r d sb fuel tasks st.
Proof.
  induction fuel as [|fuel IH]; intros tasks st; [reflexivity|].
  cbn [Quantam.groupLoop].
  destruct (list_find _ tasks) as [[i task]|]; [reflexivity|].
  destruct (Quantam.earliest 0 tasks) as [[j due]|]; [|reflexivity].
  destruct (tasks !! j) as [[fn task]|]; [|reflexivity].
  rewrite fire_same.
  destruct (Quantam.fire _ _ _ _ _ _ _ _ _) as [[tr st1] task'].
  now rewrite IH.
Qed.

End SameTimeout.

Lemma effectiveTimeout_this a b stepT :
  Quantam.timeoutMs a = Quantam.timeoutMs b ->
  Quantam.effectiveTimeout a stepT = Quantam.effectiveTimeout b stepT.
Proof. intros H. unfold Quantam.effectiveTimeout. now rewrite H. Qed.

Lemma attemptLoop_this a b fn input r d stepT remaining attempt lastError st :
  Quantam.timeoutMs a = Quantam.timeoutMs b ->
  Quantam.attemptLoop a fn input r d stepT remaining attempt lastError st
  = Quantam.attemptLoop b fn input r d stepT remaining attempt lastError st.
Proof. intros H. apply attemptLoop_same. now apply effectiveTimeout_this. Qed.

Lemma startAll_this a b input r d stepT fns member st :
  Quantam.timeoutMs a = Quantam.timeoutMs b ->
  Quantam.startAll a input r d stepT fns member st
  = Quantam.startAll b input r d stepT fns member st.
Proof. intros H. apply startAll_same. now apply effectiveTimeout_this. Qed.

Lemma groupLoop_this a b input r d stepT fuel tasks st :
  Quantam.timeoutMs a = Quantam.timeoutMs b ->
  Quantam.groupLoop a input r d stepT fuel tasks st
  = Quantam.groupLoop b input r d stepT fuel tasks st.
Proof. intros H. apply groupLoop_same. now apply effectiveTimeout_this. Qed.

Lemma runLoop_this a b fuel h locs :
  Quantam.timeoutMs a = Quantam.timeoutMs b ->
  forall i x st,
    Quantam.runLoop fuel h a i locs x st = Quantam.runLoop fuel h b i locs x st.
Proof.
  intros Hsame.
  induction locs as [|l locs IH]; intros i x st; [reflexivity|].
  cbn [Quantam.runLoop].
  destruct (Quantam.checkAborted _ _); [reflexivity|].
  destruct (h !! l) as [s|]; [|apply IH].
  unfold Quantam.executeSingleStep, Quantam.executeParallelSteps.
  destruct (Step.type s), (Step.fn s) as [fn|], (Step.fns s) as [fns|];
    rewrite ?(attemptLoop_this a b) by exact Hsame;
    rewrite ?(startAll_this a b) by exact Hsame;
    repeat match goal with
    | |- context [Quantam.attemptLoop b ?f ?x ?r ?d ?t ?n ?at_ ?le ?s0] =>
        destruct (Quantam.attemptLoop b f x r d t n at_ le s0) as [[? ?] [?|?|]]
    | |- context [Quantam.startAll b ?x ?r ?d ?t ?fs ?m ?s0] =>
        destruct (Quantam.startAll b x r d t fs m s0) as [[? ?] ?];
        rewrite (groupLoop_this a b) by exact Hsame
    | |- context [Quantam.groupLoop b ?x ?r ?d ?t ?fu ?ts ?s0] =>
        destruct (Quantam.groupLoop b x r d t fu ts s0) as [[? ?] [?|?|]]
    end;
    rewrite ?IH; reflexivity.
Qed.

(** *** Builders and the heap *)

(** [run] reads the heap at the addresses of the flow only. *)
Lemma runLoop_heap fuel (h h' : list Step.t) this locs :
  (forall l, l ∈ locs -> h' !! l = h !! l) ->
  forall i x st,
    Quantam.runLoop fuel h' this i locs x st = Quantam.runLoop fuel h this i locs x st.
Proof.
  induction locs as [|l locs IH]; intros Hsame i x st; [reflexivity|].
  assert (forall l0, l0 ∈ locs -> h' !! l0 = h !! l0) as Hrest
    by (intros l0 Hl0; apply Hsame; now right).
  cbn [Quantam.runLoop]. rewrite (Hsame l) by left.
  destruct (Quantam.checkAborted _ _); [reflexivity|].
  destruct (h !! l) as [s|]; [|now apply IH].
  destruct (Step.type s), (Step.fn s) as [fn|], (Step.fns s) as [fns|];
    repeat match goal with
    | |- context [Quantam.executeSingleStep ?t ?f ?v ?s0 ?r ?d ?to] =>
        destruct (Quantam.executeSingleStep t f v s0 r d to) as [[? ?] [?|?|]]
    | |- context [Quantam.executeParallelSteps ?fu ?t ?f ?v ?s0 ?r ?d ?to] =>
        destruct (Quantam.executeParallelSteps fu t f v s0 r d to) as [[? ?] [?|?|]]
    end;
    rewrite ?IH by assumption; reflexivity.
Qed.

Lemma build_steps b this h :
  Quantam.steps (fst (build b this h))
  = if pushes b then Quantam.steps this ++ [length h] else Quantam.steps this.
Proof.
  destruct b; cbn [build pushes]; try reflexivity;
    unfold Quantam.name, Quantam.retry, Quantam.stepTimeout, Quantam.configureLast;
    cbn [Quantam.steps]; destruct (last _); reflexivity.
Qed.

Lemma build_length b this h :
  length (snd (build b this h)) = if pushes b then S (length h) else length h.
Proof.
  destruct b; cbn [build pushes];
    unfold Quantam.step, Quantam.parallel, Quantam.name, Quantam.retry,
      Quantam.stepTimeout, Quantam.withSignal, Quantam.timeout, Quantam.configureLast;
    cbn [Quantam.steps snd];
    try (destruct (last _); cbn [snd]; rewrite ?length_alter; reflexivity);
    try reflexivity;
    rewrite length_app; cbn [length]; lia.
Qed.

(** A builder call changes no object other than the one the last address
    of [this] points to, and that one only when it is a configuration
    call. *)
Lemma build_keeps b this (h : list Step.t) l :
  (l < length h)%nat ->
  (configures b = true -> last (Quantam.steps this) <> Some l) ->
  snd (build b this h) !! l = h !! l.
Proof.
  intros Hl Hlast.
  destruct b; cbn [build configures] in *;
    unfold Quantam.step, Quantam.parallel, Quantam.name, Quantam.retry,
      Quantam.stepTimeout, Quantam.withSignal, Quantam.timeout, Quantam.configureLast;
    cbn [Quantam.steps snd];
    try reflexivity;
    try (apply lookup_app_l; assumption);
    (destruct (last (Quantam.steps this)) as [l'|] eqn:Hl'; cbn [snd]; [|reflexivity];
     apply list_lookup_alter_ne; intros ->; now apply Hlast).
Qed.

Lemma build_allocated b this h :
  allocated this h -> allocated (fst (build b this h)) (snd (build b this h)).
Proof.
  intros [Hin Hnd]. unfold allocated. rewrite build_steps, build_length.
  destruct (pushes b); [|split; assumption].
  split.
  - apply Forall_app. split.
    + eapply Forall_impl; [exact Hin|]. cbn. intros; lia.
    + repeat constructor.
  - apply NoDup_app. split; [assumption|]. split; [|apply NoDup_singleton].
    intros l Hl Hl'. apply list_elem_of_singleton in Hl'. subst l.
    rewrite Forall_forall in Hin. specialize (Hin _ Hl). lia.
Qed.

(** What holds of the flow and of the heap after any chain of calls that
    starts from [quantam()] in the heap [h]. *)
Lemma chain_invariant bs (h : list Step.t) :
  let flow := fst (chain bs h) in
  let h' := snd (chain bs h) in
  allocated flow h' /\
  Forall (fun l => (length h <= l)%nat) (Quantam.steps flow) /\
  (length h <= length h')%nat /\
  (forall l, (l < length h)%nat -> h' !! l = h !! l) /\
  length (Quantam.steps flow) = length (List.filter pushes bs).
Proof.
  induction bs as [|b bs IH] using rev_ind.
  - cbn. repeat split; try constructor; try reflexivity.
  - cbn zeta in *. unfold chain in *. rewrite foldl_snoc.
    set (fh := foldl _ _ bs) in *.
    destruct IH as (Hal & Hge & Hlen & Hold & Hcount).
    split; [now apply build_allocated|].
    rewrite build_steps, build_length, List.filter_app, length_app.
    split; [|split; [|split]].
    + destruct (pushes b); [|assumption].
      apply Forall_app. split; [assumption|]. repeat constructor. assumption.
    + destruct (pushes b); lia.
    + intros l Hl. rewrite <- (Hold l Hl). apply build_keeps; [lia|].
      intros _ Hlast.
      rewrite Forall_forall in Hge.
      assert (l ∈ Quantam.steps (fst fh)) as Hin.
      { destruct (Quantam.steps (fst fh)) as [|l0 ls] using rev_ind; [discriminate|].
        rewrite last_snoc in Hlast. injection Hlast as ->.
        apply elem_of_app. right. left. }
      specialize (Hge _ Hin). lia.
    + cbn [List.filter]. destruct (pushes b); cbn [length]; rewrite ?length_app; cbn; lia.
Qed.

(** X1: A flow built from [quantam()] by any chain of builder calls, in a
    heap [h] that holds the Step objects of other flows: its steps are
    distinct objects, one per [step] or [parallel] call, all of them
    allocated by the chain itself, and no object that was in [h] has
    changed. (Flows share Step objects only when one is derived from the
    other.) *)
Theorem built_flow_owns_its_steps :
  forall bs (h : list Step.t),
    let flow := fst (chain bs h) in
    let h' := snd (chain bs h) in
    NoDup (Quantam.steps flow) /\
    Forall (fun l => is_Some (h' !! l) /\ h !! l = None) (Quantam.steps flow) /\
    length (Quantam.steps flow) = length (List.filter pushes bs) /\
    (forall l s, h !! l = Some s -> h' !! l = Some s).
Proof.
  intros bs h flow h'.
  destruct (chain_invariant bs h) as ([Hin Hnd] & Hge & Hlen & Hold & Hcount).
  fold flow h' in Hin, Hnd, Hge, Hlen, Hold, Hcount.
  split; [assumption|]. split; [|split; [assumption|]].
  - rewrite Forall_forall in *. intros l Hl. split.
    + apply lookup_lt_is_Some_2. now apply Hin.
    + apply lookup_ge_None_2. now apply Hge.
  - intros l s Hs. rewrite Hold; [assumption|]. now apply lookup_lt_Some in Hs.
Qed.

(** X2: A builder call on [this] does not change what another flow [other]
    does when it is run, unless the call is [name], [retry] or [stepTimeout]
    and the last step of [this] is also a step of [other]. *)
Theorem builder_call_leaves_other_flows_alone :
  forall b this other (h : list Step.t) fuel x options t0,
    allocated other h ->
    (configures b = true ->
     forall l, last (Quantam.steps this) = Some l -> l ∉ Quantam.steps other) ->
    Quantam.run fuel (snd (build b this h)) other x options t0
    = Quantam.run fuel h other x options t0.
Proof.
  intros b this other h fuel x options t0 [Hin _] Hlast.
  unfold Quantam.run. apply runLoop_heap. intros l Hl.
  apply build_keeps.
  - rewrite Forall_forall in Hin. now apply Hin.
  - intros Hc Heq. exact (Hlast Hc l Heq Hl).
Qed.

(** [flowA] runs as before after the step of another flow was named. *)
Lemma builder_call_leaves_other_flows_alone_witness :
  Quantam.run 0 (snd (build (BName "dbl") (fst flowOther) (snd flowOther)))
    (fst flowA) (VNum 1) None 0
  = Quantam.run 0 (snd flowOther) (fst flowA) (VNum 1) None 0.
Proof.
  apply (builder_call_leaves_other_flows_alone (BName "dbl") (fst flowOther) (fst flowA)
           (snd flowOther) 0 (VNum 1) None 0).
  - split; [repeat constructor | apply NoDup_singleton].
  - intros _ l Hl. injection Hl as <-. intros Hin.
    apply list_elem_of_singleton in Hin. discriminate Hin.
Defined.

(** X3: [name], [retry] and [stepTimeout] each assign their own fields of
    the last step and keep the others: calls of different kinds give the
    same flow and the same heap in either order, also on a flow without
    steps, and of two calls of the same kind the later one decides. *)
Theorem configuration_calls_commute :
  forall this (h : list Step.t) label label' count count' delayMs delayMs' ms ms',
    let named := fun fh : Quantam.t * list Step.t => Quantam.name label (fst fh) (snd fh) in
    let retried := fun fh : Quantam.t * list Step.t =>
                     Quantam.retry count delayMs (fst fh) (snd fh) in
    let timed := fun fh : Quantam.t * list Step.t => Quantam.stepTimeout ms (fst fh) (snd fh) in
    named (retried (this, h)) = retried (named (this, h)) /\
    named (timed (this, h)) = timed (named (this, h)) /\
    retried (timed (this, h)) = timed (retried (this, h)) /\
    named (Quantam.name label' this h) = named (this, h) /\
    retried (Quantam.retry count' delayMs' this h) = retried (this, h) /\
    timed (Quantam.stepTimeout ms' this h) = timed (this, h).
Proof.
  intros this h label label' count count' delayMs delayMs' ms ms' named retried timed.
  subst named retried timed.
  unfold Quantam.name, Quantam.retry, Quantam.stepTimeout, Quantam.configureLast.
  cbn [fst snd Quantam.steps Quantam.timeoutMs Quantam.abortSignal].
  destruct (last (Quantam.steps this)) as [l|] eqn:Hl;
    cbn [fst snd Quantam.steps Quantam.timeoutMs Quantam.abortSignal];
    rewrite ?Hl; cbn [fst snd Quantam.steps Quantam.timeoutMs Quantam.abortSignal];
    [|repeat split; reflexivity].
  rewrite !list_alter_alter_eq.
  repeat split; f_equal; apply list_alter_ext; try reflexivity; intros s _; reflexivity.
Qed.

(** *** The pipeline runner, step after step *)

(** The loop of [run] over the addresses [locs1 ++ locs2]: the iterations
    for [locs1], then, if they all resolved, those for [locs2]. *)
Lemma runLoop_app fuel h this locs1 locs2 :
  forall i x st,
    Quantam.runLoop fuel h this i (locs1 ++ locs2) x st
    = match Quantam.runLoop fuel h this i locs1 x st with
      | (tr, st1, Resolved v) =>
          let '(tr', st2, r) :=
            Quantam.runLoop fuel h this (i + Z.of_nat (length locs1)) locs2 v st1 in
          (tr ++ tr', st2, r)
      | failed => failed
      end.
Proof.
  induction locs1 as [|l locs1 IH]; intros i x st.
  - cbn [app length Quantam.runLoop]. rewrite Z.add_0_r.
    now destruct (Quantam.runLoop _ _ _ _ _ _ _) as [[tr st2] r].
  - cbn [app length Quantam.runLoop].
    replace (i + Z.of_nat (S (length locs1))) with (i + 1 + Z.of_nat (length locs1)) by lia.
    destruct (Quantam.checkAborted _ _); [reflexivity|].
    destruct (h !! l) as [s|]; [|apply IH].
    destruct (Step.type s), (Step.fn s) as [fn|], (Step.fns s) as [fns|];
      repeat match goal with
      | |- context [Quantam.executeSingleStep ?t ?f ?v ?s0 ?r ?d ?to] =>
          destruct (Quantam.executeSingleStep t f v s0 r d to) as [[? ?] [?|?|]]
      | |- context [Quantam.executeParallelSteps ?fu ?t ?f ?v ?s0 ?r ?d ?to] =>
          destruct (Quantam.executeParallelSteps fu t f v s0 r d to) as [[? ?] [?|?|]]
      end;
      try reflexivity;
      rewrite IH;
      repeat match goal with
      | |- context [Quantam.runLoop ?fu ?hh ?t ?j ?ls ?v ?s0] =>
          destruct (Quantam.runLoop fu hh t j ls v s0) as [[? ?] [?|?|]]
      end;
      rewrite ?app_assoc; reflexivity.
Qed.

Lemma run_andThen :
  forall this (h : list Step.t) fuel x options t0,
    allocated this h ->
    (forall fn,
       Quantam.run fuel (snd (Quantam.step fn this h)) (fst (Quantam.step fn this h))
         x options t0
       = andThen (Quantam.run fuel h this x options t0)
           (Z.of_nat (length (Quantam.steps this)))
           (fun v st => Quantam.executeSingleStep this fn v st 0 100 None)) /\
    (forall fns,
       Quantam.run fuel (snd (Quantam.parallel fns this h)) (fst (Quantam.parallel fns this h))
         x options t0
       = andThen (Quantam.run fuel h this x options t0)
           (Z.of_nat (length (Quantam.steps this)))
           (fun v st => Quantam.executeParallelSteps fuel this fns v st 0 100 None)).
Proof.
  intros this h fuel x options t0 [Hin _].
  assert (forall new pushed,
            Quantam.timeoutMs new = Quantam.timeoutMs this ->
            forall i v st,
              Quantam.runLoop fuel (h ++ [pushed]) new i (Quantam.steps this) v st
              = Quantam.runLoop fuel h this i (Quantam.steps this) v st) as Hpre.
  { intros new pushed Hto i v st.
    rewrite (runLoop_this new this _ _ _ Hto). apply runLoop_heap.
    intros l Hl. apply lookup_app_l. rewrite Forall_forall in Hin. now apply Hin. }
  split.
  - intros fn. unfold Quantam.run, Quantam.step, andThen.
    cbn [fst snd Quantam.steps Quantam.abortSignal].
    rewrite runLoop_app, Hpre by reflexivity.
    destruct (Quantam.runLoop fuel h this 0 _ _ _) as [[tr st] [v|e|]]; try reflexivity.
    cbn [Quantam.runLoop]. rewrite Z.add_0_l.
    destruct (Quantam.checkAborted _ _); [now rewrite app_nil_r|].
    rewrite list_lookup_middle by reflexivity.
    cbn [Step.type Step.fn Step.fns Step.retries Step.retryDelay Step.timeout Step.name
         orDefault].
    unfold Quantam.executeSingleStep.
    rewrite (attemptLoop_this _ this) by reflexivity.
    destruct (Quantam.attemptLoop _ _ _ _ _ _ _ _ _ _) as [[tr' st'] [v'|e'|]];
      rewrite ?app_nil_r; reflexivity.
  - intros fns. unfold Quantam.run, Quantam.parallel, andThen.
    cbn [fst snd Quantam.steps Quantam.abortSignal].
    rewrite runLoop_app, Hpre by reflexivity.
    destruct (Quantam.runLoop fuel h this 0 _ _ _) as [[tr st] [v|e|]]; try reflexivity.
    cbn [Quantam.runLoop]. rewrite Z.add_0_l.
    destruct (Quantam.checkAborted _ _); [now rewrite app_nil_r|].
    rewrite list_lookup_middle by reflexivity.
    cbn [Step.type Step.fn Step.fns Step.retries Step.retryDelay Step.timeout Step.name
         orDefault].
    unfold Quantam.executeParallelSteps.
    rewrite (startAll_this _ this) by reflexivity.
    destruct (Quantam.startAll _ _ _ _ _ _ _ _) as [[tr0 st0] tasks].
    rewrite (groupLoop_this _ this) by reflexivity.
    destruct (Quantam.groupLoop _ _ _ _ _ _ _ _) as [[tr' st'] [v'|e'|]];
      rewrite ?app_nil_r; reflexivity.
Qed.

(** X4: Running [this.step(fn)] is running [this] and then, if that run
    resolved and the signal is not aborted by then, executing [fn] on its
    value as one more step without name, retries or step timeout; running
    [this.parallel(fns)] likewise. When the run of [this] fails the new step
    is not executed and the failure is the result. *)
Theorem run_of_extended_flow :
  forall this (h : list Step.t) fuel x options t0,
    allocated this h ->
    (forall fn,
       Quantam.run fuel (snd (Quantam.step fn this h)) (fst (Quantam.step fn this h))
         x options t0
       = andThen (Quantam.run fuel h this x options t0)
           (Z.of_nat (length (Quantam.steps this)))
           (fun v st => Quantam.executeSingleStep this fn v st 0 100 None)) /\
    (forall fns,
       Quantam.run fuel (snd (Quantam.parallel fns this h)) (fst (Quantam.parallel fns this h))
         x options t0
       = andThen (Quantam.run fuel h this x options t0)
           (Z.of_nat (length (Quantam.steps this)))
           (fun v st => Quantam.executeParallelSteps fuel this fns v st 0 100 None)).
Proof. exact run_andThen. Qed.

(** [flowBasic] is [flowA.step(double)]: its run on 1 is the run of
    [flowA], which gives 2, followed by [double]. *)
Lemma run_of_extended_flow_witness :
  Quantam.run 0 (snd flowBasic) (fst flowBasic) (VNum 1) None 0
  = andThen (Quantam.run 0 (snd flowA) (fst flowA) (VNum 1) None 0) 1
      (fun v st => Quantam.executeSingleStep (fst flowA) double v st 0 100 None).
Proof.
  apply (run_of_extended_flow (fst flowA) (snd flowA) 0 (VNum 1) None 0).
  split; [repeat constructor | apply NoDup_singleton].
Defined.

Lemma run_aborted_at_start :
  forall fuel (h : list Step.t) this x options t0,
    Quantam.aborted (runSignal this options) t0 = true ->
    Quantam.run fuel h this x options t0
    = ([], startState (runSignal this options) t0,
       match Quantam.steps this with
       | [] => Resolved x
       | _ :: _ => Rejected pipelineAborted
       end).
Proof.
  intros fuel h this x options t0 Hab.
  unfold Quantam.run. fold (runSignal this options).
  destruct (Quantam.steps this) as [|l locs]; [reflexivity|].
  cbn [Quantam.runLoop]. unfold Quantam.checkAborted. cbn [context signal now].
  now rewrite Hab.
Qed.

(** X5: A run that is started with its signal already aborted calls no step
    function and takes no time: it rejects with the plain message [Pipeline
    aborted], whatever the name of the first step, unless the flow has no
    steps, in which case it resolves with its input without looking at the
    signal. *)
Theorem run_started_with_aborted_signal :
  forall fuel (h : list Step.t) this x options t0,
    Quantam.aborted (runSignal this options) t0 = true ->
    Quantam.run fuel h this x options t0
    = ([], startState (runSignal this options) t0,
       match Quantam.steps this with
       | [] => Resolved x
       | _ :: _ => Rejected pipelineAborted
       end).
Proof. exact run_aborted_at_start. Qed.

(** The named flow run under a signal that was aborted before the start. *)
Lemma run_started_with_aborted_signal_witness :
  Quantam.run 0 (snd flowA_named) (fst flowA_named) (VNum 1)
    (Some {| opt_signal := Some abortedSignal |}) 7
  = ([], startState (Some abortedSignal) 7, Rejected pipelineAborted).
Proof.
  apply (run_started_with_aborted_signal 0 (snd flowA_named) (fst flowA_named) (VNum 1)
           (Some {| opt_signal := Some abortedSignal |}) 7).
  reflexivity.
Defined.

(** X6: The signal passed in the options of [run] replaces the signal bound
    with [withSignal]: the run is the one of the flow bound to the options'
    signal. Options without a signal leave the bound signal in use. *)
Theorem options_signal_replaces_bound_signal :
  forall fuel (h : list Step.t) this x t0,
    (forall s,
       Quantam.run fuel h this x (Some {| opt_signal := Some s |}) t0
       = Quantam.run fuel h (fst (Quantam.withSignal s this h)) x None t0) /\
    Quantam.run fuel h this x (Some {| opt_signal := None |}) t0
    = Quantam.run fuel h this x None t0.
Proof.
  intros fuel h this x t0. split; [|reflexivity].
  intros s. unfold Quantam.run, Quantam.withSignal.
  cbn [fst Quantam.steps Quantam.abortSignal mbind option_bind opt_signal].
  apply runLoop_this. reflexivity.
Qed.

(** *** The context handed to the step functions *)

Lemma attemptLoop_shares this fn input r d stepT remaining :
  forall attempt lastError st,
    let out := Quantam.attemptLoop this fn input r d stepT remaining attempt lastError st in
    sharesOneContext (context st) (traceOf out) /\
    context (stateOf out) = cellAfter (context st) (traceOf out).
Proof.
  induction remaining as [|remaining IH]; intros attempt lastError st; cbn zeta;
    [split; [exact I | reflexivity]|].
  cbn [Quantam.attemptLoop]. unfold Quantam.tryAttempt.
  destruct (Quantam.checkAborted _ _) as [ab|].
  - destruct (attempt <? r).
    + destruct (Quantam.sleep _ _ _) as [t [e|]]; [split; [exact I | reflexivity]|].
      specialize (IH (attempt + 1) (Some ab) {| now := t; context := context st |}).
      cbn zeta in IH.
      destruct (Quantam.attemptLoop _ _ _ _ _ _ _ _ _ _) as [[tr' st2] res].
      exact IH.
    + specialize (IH (attempt + 1) (Some ab) st). cbn zeta in IH.
      destruct (Quantam.attemptLoop _ _ _ _ _ _ _ _ _ _) as [[tr' st2] res].
      exact IH.
  - set (ctx := set_retryCount attempt (context st)).
    destruct (snd (Quantam.awaited this fn input stepT ctx)) as [v|e|];
      try (split; [split; [reflexivity | exact I] | reflexivity]).
    destruct (attempt <? r).
    + destruct (Quantam.sleep _ _ _) as [t [e'|]];
        [split; [split; [reflexivity | exact I] | reflexivity]|].
      cbn [context].
      specialize (IH (attempt + 1) (Some e) {| now := t; context := ctx |}).
      cbn zeta in IH.
      destruct (Quantam.attemptLoop _ _ _ _ _ _ _ _ _ _) as [[tr' st2] res].
      unfold traceOf, stateOf in *. cbn [fst snd context app] in *.
      fold ctx. destruct IH as [IH1 IH2]. split; [split; [reflexivity | exact IH1] | exact IH2].
    + match goal with
      | |- context [Quantam.attemptLoop _ _ _ _ _ _ _ _ _ ?s0] =>
          specialize (IH (attempt + 1) (Some e) s0)
      end.
      cbn zeta in IH.
      destruct (Quantam.attemptLoop _ _ _ _ _ _ _ _ _ _) as [[tr' st2] res].
      unfold traceOf, stateOf in *. cbn [fst snd context app] in *.
      fold ctx. destruct IH as [IH1 IH2]. split; [split; [reflexivity | exact IH1] | exact IH2].
Qed.

Lemma cellAfter_signal tr :
  forall c, sharesOneContext c tr -> signal (cellAfter c tr) = signal c.
Proof.
  induction tr as [|[m a ctx|m a ctx|ms] tr IH]; intros c H; cbn in *.
  - reflexivity.
  - destruct H as [-> H]. now rewrite (IH _ H).
  - destruct H as [_ H]. now apply IH.
  - now apply IH.
Qed.

(** What a step, single or parallel, does with the context: every event
    carries the signal, index and name of the step, and the signal is still
    in the context when the step is over. *)
Lemma single_step_events this fn input st r d stepT :
  let out := Quantam.executeSingleStep this fn input st r d stepT in
  Forall (sameStep (context st)) (traceOf out) /\
  signal (context (stateOf out)) = signal (context st).
Proof.
  cbn zeta. unfold Quantam.executeSingleStep.
  destruct (attemptLoop_shares this fn input r d stepT (Z.to_nat (r + 1)) 0 None st)
    as [H Hc].
  split.
  - now apply (sharesOneContext_sameStep (context st) _ (context st)).
  - rewrite Hc. now apply cellAfter_signal.
Qed.

Lemma group_events fuel this fns input st r d stepT :
  let out := Quantam.executeParallelSteps fuel this fns input st r d stepT in
  Forall (sameStep (context st)) (traceOf out) /\
  signal (context (stateOf out)) = signal (context st).
Proof.
  cbn zeta. unfold Quantam.executeParallelSteps.
  pose proof (startAll_shares this input r d stepT fns 0%nat st) as H. cbn zeta in H.
  destruct (Quantam.startAll _ _ _ _ _ _ _ _) as [[tr0 st1] tasks].
  pose proof (groupLoop_shares this input r d stepT fuel tasks st1) as H'. cbn zeta in H'.
  destruct (Quantam.groupLoop _ _ _ _ _ _ _ _) as [[tr1 st2] res].
  unfold traceOf, stateOf in *. cbn [fst snd] in *.
  destruct H as [H Hc], H' as [H' Hc']. rewrite Hc in H', Hc'.
  assert (sharesOneContext (context st) (tr0 ++ tr1)) as Hall
    by now apply sharesOneContext_app.
  split.
  - now apply (sharesOneContext_sameStep (context st) _ (context st)).
  - rewrite Hc', <- cellAfter_app. now apply cellAfter_signal.
Qed.

Lemma sameStep_eventOfRun sig (h : list Step.t) (locs : list nat) (i : nat) l s c ev :
  locs !! i = Some l -> h !! l = Some s ->
  signal c = sig -> stepIndex c = Z.of_nat i -> stepName c = Step.name s ->
  sameStep c ev -> eventOfRun sig h locs ev.
Proof.
  intros Hl Hs Hsig Hi Hn.
  destruct ev as [m a ctx|m a ctx|ms]; cbn; [| |trivial].
  - intros (H1 & H2 & H3 & H4). split; [|assumption].
    split; [congruence|]. exists i, l, s. repeat split; congruence.
  - intros (H1 & H2 & H3).
    split; [congruence|]. exists i, l, s. repeat split; congruence.
Qed.

Lemma runLoop_events fuel (h : list Step.t) this sig locs :
  forall pre x st,
    signal (context st) = sig ->
    Forall (eventOfRun sig h (pre ++ locs))
      (traceOf (Quantam.runLoop fuel h this (Z.of_nat (length pre)) locs x st)).
Proof.
  induction locs as [|l locs IH]; intros pre x st Hsig; [constructor|].
  cbn [Quantam.runLoop].
  assert (forall v st', signal (context st') = sig ->
            Forall (eventOfRun sig h (pre ++ l :: locs))
              (traceOf (Quantam.runLoop fuel h this (Z.of_nat (length pre) + 1) locs v st')))
    as Hnext.
  { intros v st' Hst'. specialize (IH (pre ++ [l]) v st' Hst').
    rewrite <- app_assoc, length_app in IH. cbn [app length] in IH.
    replace (Z.of_nat (length pre + 1)) with (Z.of_nat (length pre) + 1) in IH by lia.
    exact IH. }
  destruct (Quantam.checkAborted _ _); [constructor|].
  destruct (h !! l) as [s|] eqn:Hs; [|now apply Hnext].
  set (ctx := {| signal := signal (context st); stepIndex := Z.of_nat (length pre);
                 stepName := Step.name s; retryCount := 0 |}).
  set (st1 := {| now := now st; context := ctx |}).
  assert (forall ev, sameStep ctx ev -> eventOfRun sig h (pre ++ l :: locs) ev) as Hev.
  { intros ev. apply (sameStep_eventOfRun sig h _ (length pre) l s ctx); try reflexivity;
      try assumption. now apply list_lookup_middle. }
  assert (forall out : list Event * State * Settled value,
            Forall (sameStep ctx) (traceOf out) ->
            signal (context (stateOf out)) = sig ->
            Forall (eventOfRun sig h (pre ++ l :: locs))
              (traceOf match out with
                       | (tr, st2, Resolved v) =>
                           let '(tr', st3, r) :=
                             Quantam.runLoop fuel h this (Z.of_nat (length pre) + 1)
                               locs v st2 in
                           (tr ++ tr', st3, r)
                       | failed => failed
                       end)) as Hout.
  { intros [[tr st2] res] Htr Hst2. unfold traceOf, stateOf in *. cbn [fst snd] in *.
    assert (Forall (eventOfRun sig h (pre ++ l :: locs)) tr) as Htr'
      by (eapply Forall_impl; [exact Htr | exact Hev]).
    destruct res as [v|e|]; try exact Htr'.
    specialize (Hnext v st2 Hst2).
    destruct (Quantam.runLoop _ _ _ _ _ _ _) as [[tr' st3] r]. cbn [fst] in *.
    apply Forall_app. split; assumption. }
  assert (forall fn r d stepT,
            Forall (sameStep ctx) (traceOf (Quantam.executeSingleStep this fn x st1 r d stepT)) /\
            signal (context (stateOf (Quantam.executeSingleStep this fn x st1 r d stepT))) = sig)
    as Hsingle.
  { intros fn r d stepT. destruct (single_step_events this fn x st1 r d stepT) as [H1 H2].
    split; [exact H1 | rewrite H2; exact Hsig]. }
  assert (forall fns r d stepT,
            Forall (sameStep ctx)
              (traceOf (Quantam.executeParallelSteps fuel this fns x st1 r d stepT)) /\
            signal (context (stateOf (Quantam.executeParallelSteps fuel this fns x st1 r d stepT)))
            = sig) as Hgroup.
  { intros fns r d stepT. destruct (group_events fuel this fns x st1 r d stepT) as [H1 H2].
    split; [exact H1 | rewrite H2; exact Hsig]. }
  destruct (Step.type s), (Step.fn s) as [fn|], (Step.fns s) as [fns|];
    first [ apply Hout; apply Hsingle
          | apply Hout; apply Hgroup
          | apply (Hout ([], st1, Resolved x)); [constructor | exact Hsig] ].
Qed.

(** X7: In every run, whether its steps succeed, fail, are retried or run as
    a group, every call of a step function is made with the signal of the
    run, the index of its step in the flow, the name that step has in the
    heap, and its attempt number in [retryCount]; a member of a group that
    resumes while the group is awaiting it still finds the signal, index
    and name of its step. *)
Theorem run_calls_carry_the_step_context :
  forall fuel (h : list Step.t) this x options t0,
    Forall (eventOfRun (runSignal this options) h (Quantam.steps this))
      (traceOf (Quantam.run fuel h this x options t0)).
Proof.
  intros fuel h this x options t0. unfold Quantam.run. fold (runSignal this options).
  apply (runLoop_events fuel h this (runSignal this options) (Quantam.steps this) []).
  reflexivity.
Qed.

(** *** The calls and the time of a run in which nothing goes wrong *)

(** X8: In a run of single steps with retry counts that are not negative in
    which nothing goes wrong (the signal is not aborted when a step starts,
    no function throws, every call has returned before the timer of its
    timeout, if any, is due) the step functions are called one after the
    other, each exactly once, as attempt 0 and with the index and name of
    its step, and the run takes the sum of the times of the calls. *)
Theorem undisturbed_run_takes_the_sum_of_its_steps :
  forall fuel (h : list Step.t) this x options t0 ss,
    Forall2 (fun l s => h !! l = Some s) (Quantam.steps this) ss ->
    Forall (fun s => 0 <= retriesOf s) ss ->
    notAbortedAtSteps (runSignal this options) t0 0 ss x ->
    undisturbed this (runSignal this options) 0 ss x ->
    let out := Quantam.run fuel h this x options t0 in
    traceOf out = sequentialCalls (runSignal this options) 0 ss /\
    now (stateOf out) = t0 + sequentialTime (runSignal this options) 0 ss x.
Proof.
  intros fuel h this x options t0 ss Hlook Hcount Hpoll Hrun.
  unfold Quantam.run. fold (runSignal this options).
  destruct (runLoop_sequential fuel h this (runSignal this options) _ _ Hlook 0 x
              {| now := t0;
                 context := {| signal := runSignal this options; stepIndex := 0;
                               stepName := None; retryCount := 0 |} |}
              eq_refl Hcount Hpoll Hrun) as (_ & Htr & Hnow).
  split; assumption.
Qed.

(** Two steps of 20 ms each take 40 ms. *)
Lemma undisturbed_run_takes_the_sum_of_its_steps_witness :
  let out := Quantam.run 0 (snd flowTwoSlow) (fst flowTwoSlow) (VNum 1) None 0 in
  traceOf out
  = [Invoked 0 0 (contextAt None 0 (Step.mk Step.single (Some slow) None None None None None));
     Invoked 0 0 (contextAt None 1 (Step.mk Step.single (Some slow) None None None None None))] /\
  now (stateOf out) = 40.
Proof.
  apply (undisturbed_run_takes_the_sum_of_its_steps 0 (snd flowTwoSlow) (fst flowTwoSlow)
           (VNum 1) None 0 (snd flowTwoSlow)).
  - repeat constructor.
  - repeat constructor; unfold retriesOf; cbn; lia.
  - intros j _. reflexivity.
  - cbn. exists slow, (VNum 2). repeat split; try reflexivity.
    exists slow, (VNum 3). repeat split; reflexivity.
Defined.

(** ** Further properties of the step executor *)

(** *** A retry count below zero *)

Lemma alter_last {A} (f : A -> A) (l : list A) (x : A) :
  @alter nat A (list A) _ f (length l) (l ++ [x]) = l ++ [f x].
Proof. rewrite <- (Nat.add_0_r (length l)) at 1. now rewrite alter_app_r. Qed.

Lemma startAll_negative this input r d stepT fns :
  r < 0 ->
  forall member st,
    Quantam.startAll this input r d stepT fns member st
    = ([], st, (fun fn => (fn, Quantam.Finished (Rejected (executionFailed (context st)))))
               <$> fns).
Proof.
  intros Hr. induction fns as [|fn fns IH]; intros member st; [reflexivity|].
  cbn [Quantam.startAll]. unfold Quantam.startAttempt.
  destruct (Z.leb_spec 0 r) as [?|_]; [lia|]. now rewrite IH.
Qed.

(** X9: With a retry count below zero the loop of the executor has no
    iteration: no attempt is made, the step function is never called, and
    the step fails at once with [Step execution failed] (with the quoted
    name of the step after [Step] when it has one). So does a group with at
    least one member, and so does the run of [quantam().step(fn).retry(r,
    delay)]. *)
Theorem negative_retry_count_never_calls :
  forall this input st r d stepT,
    r < 0 ->
    (forall fn,
       Quantam.executeSingleStep this fn input st r d stepT
       = ([], st, Rejected (executionFailed (context st)))) /\
    (forall fuel fn fns,
       Quantam.executeParallelSteps fuel this (fn :: fns) input st r d stepT
       = ([], st, Rejected (executionFailed (context st)))) /\
    (forall fuel fn delay (h : list Step.t) t0,
       let flow := chain [BStep fn; BRetry r delay] h in
       Quantam.run fuel (snd flow) (fst flow) input None t0
       = ([], startState None t0, Rejected (mkError "Step execution failed"))).
Proof.
  intros this input st r d stepT Hr.
  assert (forall this' fn st', Quantam.executeSingleStep this' fn input st' r d stepT
                               = ([], st', Rejected (executionFailed (context st')))) as Hsingle.
  { intros this' fn st'. unfold Quantam.executeSingleStep.
    replace (Z.to_nat (r + 1)) with 0%nat by lia. reflexivity. }
  split; [intros fn; apply Hsingle|]. split.
  - intros fuel fn fns. unfold Quantam.executeParallelSteps.
    rewrite startAll_negative by assumption. cbn [fmap list_fmap].
    destruct fuel; reflexivity.
  - intros fuel fn delay h t0. cbn zeta.
    unfold chain. cbn [foldl build fst snd].
    unfold Quantam.retry, Quantam.configureLast, Quantam.step, Quantam.run, Quantam.quantam.
    cbn [fst snd Quantam.steps Quantam.abortSignal Quantam.timeoutMs
         mbind option_bind app last].
    cbn [Quantam.runLoop Quantam.checkAborted Quantam.aborted context signal now].
    rewrite alter_last.
    rewrite list_lookup_middle by reflexivity.
    cbn [Step.set_retry Step.type Step.fn Step.fns Step.retries Step.retryDelay
         Step.timeout Step.name orDefault].
    destruct (Z.eqb_spec r 0) as [?|_]; [lia|].
    unfold Quantam.executeSingleStep.
    replace (Z.to_nat (r + 1)) with 0%nat by lia. reflexivity.
Qed.

(** [quantam().step(increment).retry(-1)] run on 1. *)
Lemma negative_retry_count_never_calls_witness :
  Quantam.executeSingleStep Quantam.quantam increment (VNum 1) (stateNamed "load") (-1) 100 None
  = ([], stateNamed "load", Rejected (mkError "Step 'load' execution failed")) /\
  Quantam.run 0 (snd (chain [BStep increment; BRetry (-1) None] []))
    (fst (chain [BStep increment; BRetry (-1) None] [])) (VNum 1) None 0
  = ([], startState None 0, Rejected (mkError "Step execution failed")).
Proof.
  pose proof (negative_retry_count_never_calls Quantam.quantam (VNum 1) (stateNamed "load")
                (-1) 100 None ltac:(lia)) as (H1 & _ & H3).
  split; [exact (H1 increment) | exact (H3 0%nat increment None [] 0)].
Defined.

(** *** The time a failing step takes *)

Lemma backoffs_app (tr tr' : list Event) : backoffs (tr ++ tr') = backoffs tr ++ backoffs tr'.
Proof. apply omap_app. Qed.

Lemma backoffs_backoff ms (tr : list Event) : backoffs (Backoff ms :: tr) = ms :: backoffs tr.
Proof. reflexivity. Qed.

Lemma sumZ_cons x l : sumZ (x :: l) = x + sumZ l.
Proof. reflexivity. Qed.

Lemma sumZ_app l l' : sumZ (l ++ l') = sumZ l + sumZ l'.
Proof. induction l as [|x l IH]; cbn; [reflexivity|]. unfold sumZ in *. lia. Qed.

Lemma seqZ_first m n : 0 < n -> seqZ m n = m :: seqZ (m + 1) (n - 1).
Proof. intros H. now rewrite seqZ_cons by assumption. Qed.

(** When every attempt fails and nothing is cancelled, the loop sleeps
    after every attempt but the last, for the delay the [catch] block
    computes, and the clock advances by the attempts and the sleeps. *)
Lemma attemptLoop_elapsed this fn input r d stepT :
  forall remaining attempt lastError st,
    neverAborted (signal (context st)) ->
    Z.of_nat remaining = r - attempt + 1 ->
    (0 < remaining)%nat ->
    (forall a, attempt <= a <= r ->
               exists e, attemptOf this fn input stepT (context st) a = Rejected e) ->
    let out := Quantam.attemptLoop this fn input r d stepT remaining attempt lastError st in
    backoffs (traceOf out) = Quantam.backoffDelay d <$> seqZ attempt (r - attempt) /\
    now (stateOf out)
    = now st
      + sumZ (attemptTime this fn input stepT (context st) <$> seqZ attempt (r - attempt + 1))
      + sumZ ((fun i => setTimeout (Quantam.backoffDelay d i)) <$> seqZ attempt (r - attempt)).
Proof.
  induction remaining as [|remaining IH];
    intros attempt lastError st Hsig Hrem Hpos Hfail; [lia|].
  cbn zeta. cbn [Quantam.attemptLoop].
  rewrite tryAttempt_neverAborted by assumption.
  destruct (Hfail attempt ltac:(lia)) as [e He]. rewrite He.
  destruct (Z.ltb_spec attempt r) as [Hlt|Hge].
  - cbn [context now signal set_retryCount].
    rewrite (sleep_neverAborted _ _ _ Hsig).
    match goal with
    | |- context [Quantam.attemptLoop _ _ _ _ _ _ _ _ ?le ?s] =>
        specialize (IH (attempt + 1) le s)
    end.
    cbn zeta in IH. cbn [context signal now] in IH.
    destruct IH as (Hb & Hnow); try assumption; try lia.
    + intros a Ha. apply Hfail. lia.
    + destruct (Quantam.attemptLoop _ _ _ _ _ _ _ _ _ _) as [[tr' st2] res].
      unfold traceOf, stateOf in *. cbn [fst snd] in *.
      rewrite (seqZ_first attempt (r - attempt)) by lia.
      rewrite (seqZ_first attempt (r - attempt + 1)) by lia.
      replace (r - attempt + 1 - 1) with (r - (attempt + 1) + 1) by lia.
      replace (r - attempt - 1) with (r - (attempt + 1)) by lia.
      split.
      * rewrite backoffs_app, backoffs_backoff, Hb. reflexivity.
      * change (attemptTime this fn input stepT (set_retryCount attempt (context st)))
          with (attemptTime this fn input stepT (context st)) in Hnow.
        change (fst (Quantam.awaited this fn input stepT (set_retryCount attempt (context st))))
          with (attemptTime this fn input stepT (context st) attempt) in Hnow.
        rewrite Hnow, !fmap_cons, !sumZ_cons. lia.
  - assert (attempt = r) as -> by lia. assert (remaining = 0%nat) as -> by lia.
    cbn [Quantam.attemptLoop]. unfold traceOf, stateOf. cbn [fst snd app now].
    rewrite Z.sub_diag, (seqZ_nil r 0), (seqZ_first r (0 + 1)), (seqZ_nil (r + 1) (0 + 1 - 1)) by lia.
    split; [reflexivity|]. cbn. unfold attemptTime. lia.
Qed.

Lemma doubling_delays d (n : nat) :
  (n <= 31)%nat ->
  Quantam.backoffDelay d <$> seqZ 0 (Z.of_nat n)
  = (fun i => d * 2 ^ i) <$> seqZ 0 (Z.of_nat n).
Proof.
  intros Hn. apply list_eq. intros i. rewrite !list_lookup_fmap.
  destruct (seqZ 0 (Z.of_nat n) !! i) as [a|] eqn:Ha; [|reflexivity]. cbn.
  apply lookup_seqZ in Ha. f_equal. apply backoffDelay_pow2. lia.
Qed.

(** A delay [d * 2^k] that a timer takes as it is: then [k] is below the
    sign bit of the shift. *)
Lemma doubling_in_range d k :
  1 <= d -> 0 <= k -> d * 2 ^ k <= 2147483647 -> k <= 30 /\ 1 <= d * 2 ^ k.
Proof.
  intros Hd Hk Hmax.
  assert (0 < 2 ^ k) by (apply Z.pow_pos_nonneg; lia).
  split; [|nia].
  destruct (Z.le_gt_cases k 30) as [?|Hgt]; [assumption|].
  assert (2 ^ 31 <= 2 ^ k) by (apply Z.pow_le_mono_r; lia).
  change (2 ^ 31) with 2147483648 in *. nia.
Qed.

(** The sleeps before the first [n] retries add up to [d * (2^n - 1)] when
    the longest of them is a delay a timer takes as it is. *)
Lemma doubling_sum d (n : nat) :
  1 <= d -> d * 2 ^ (Z.of_nat n - 1) <= 2147483647 ->
  sumZ ((fun i => setTimeout (Quantam.backoffDelay d i)) <$> seqZ 0 (Z.of_nat n))
  = d * (2 ^ Z.of_nat n - 1).
Proof.
  intros Hd. induction n as [|n IH]; intros Hmax.
  { change (Z.of_nat 0) with 0. rewrite seqZ_nil, Z.pow_0_r by lia. cbn. lia. }
  replace (Z.of_nat (S n) - 1) with (Z.of_nat n) in Hmax by lia.
  destruct (doubling_in_range d (Z.of_nat n) Hd ltac:(lia) Hmax) as [Hn Hone].
  rewrite seqZ_S, fmap_app, sumZ_app, IH.
  - cbn [fmap list_fmap sumZ foldr]. rewrite Z.add_0_l, backoffDelay_pow2 by lia.
    rewrite setTimeout_in_range by lia.
    rewrite Nat2Z.inj_succ, Z.pow_succ_r by lia. lia.
  - destruct n as [|n]; [cbn; lia|].
    replace (Z.of_nat (S n) - 1) with (Z.of_nat n) by lia.
    rewrite Nat2Z.inj_succ, Z.pow_succ_r in Hmax by lia.
    assert (0 < 2 ^ Z.of_nat n) by (apply Z.pow_pos_nonneg; lia). nia.
Qed.

Lemma doubling_count d r :
  1 <= d -> 0 <= r -> d * 2 ^ (r - 1) <= 2147483647 -> r <= 31.
Proof.
  intros Hd Hr Hmax. destruct (Z.eq_dec r 0) as [->|Hne]; [lia|].
  destruct (doubling_in_range d (r - 1) Hd ltac:(lia) Hmax). lia.
Qed.

Lemma sumZ_constant (f : Z -> Z) c l :
  (forall a, a ∈ l -> f a = c) -> sumZ (f <$> l) = Z.of_nat (length l) * c.
Proof.
  induction l as [|x l IH]; intros H; [reflexivity|].
  cbn [fmap list_fmap sumZ foldr length].
  fold (sumZ (f <$> l)). rewrite IH by (intros a Ha; apply H; now right).
  rewrite (H x) by left. lia.
Qed.

(** X10: A step whose attempts all fail, run with a retry count [r >= 0] and a
    retry delay [d >= 1] whose longest backoff [d * 2^(r-1)] is at most
    [2^31 - 1] ms (a delay the timer takes as it is), and never cancelled:
    it sleeps [r] times, for [d], [2d], [4d], ..., in this order, and when
    it gives up the clock has advanced by the time of its [r + 1] attempts
    and by [d * (2^r - 1)] of backoff. *)
Theorem exhausted_step_backs_off_exponentially :
  forall this fn input st r d stepT,
    0 <= r -> 1 <= d -> d * 2 ^ (r - 1) <= 2147483647 ->
    neverAborted (signal (context st)) ->
    (forall a, 0 <= a <= r ->
               exists e, attemptOf this fn input stepT (context st) a = Rejected e) ->
    let out := Quantam.executeSingleStep this fn input st r d stepT in
    backoffs (traceOf out) = (fun i => d * 2 ^ i) <$> seqZ 0 r /\
    now (stateOf out)
    = now st
      + sumZ (attemptTime this fn input stepT (context st) <$> seqZ 0 (r + 1))
      + d * (2 ^ r - 1).
Proof.
  intros this fn input st r d stepT Hr Hd Hmax Hsig Hfail. cbn zeta.
  pose proof (doubling_count d r Hd Hr Hmax) as Hr31.
  unfold Quantam.executeSingleStep.
  destruct (attemptLoop_elapsed this fn input r d stepT (Z.to_nat (r + 1)) 0 None st)
    as [Hb Hnow]; try assumption; try lia.
  rewrite Z.sub_0_r in Hb, Hnow.
  rewrite Hb, Hnow. clear Hb Hnow Hfail.
  assert (r = Z.of_nat (Z.to_nat r)) as Hn by lia.
  assert (Z.to_nat r <= 31)%nat as Hle by lia.
  revert Hn Hle Hmax. generalize (Z.to_nat r). intros n -> Hle Hmax.
  rewrite doubling_delays, doubling_sum by assumption.
  split; reflexivity.
Qed.

(** [alwaysFails] under [retry(3, 10)]: sleeps of 10, 20 and 40 ms, 70 ms
    in all. *)
Lemma exhausted_step_backs_off_exponentially_witness :
  let out :=
    Quantam.executeSingleStep Quantam.quantam alwaysFails (VNum 1) (startState None 0)
      3 10 None in
  backoffs (traceOf out) = [10; 20; 40] /\ now (stateOf out) = 70.
Proof.
  apply (exhausted_step_backs_off_exponentially Quantam.quantam alwaysFails (VNum 1)
           (startState None 0) 3 10 None); try lia.
  - intros t. reflexivity.
  - intros a _. exists (mkError "boom"). reflexivity.
Defined.

(** [failures] failing attempts followed by a successful one: the sleeps
    and the time. *)
Lemma attemptLoop_succeeds_elapsed this fn input r d stepT v :
  forall (failures : nat) remaining attempt lastError st,
    neverAborted (signal (context st)) ->
    (forall a, attempt <= a < attempt + Z.of_nat failures ->
               exists e, attemptOf this fn input stepT (context st) a = Rejected e) ->
    attemptOf this fn input stepT (context st) (attempt + Z.of_nat failures) = Resolved v ->
    attempt + Z.of_nat failures <= r ->
    (failures < remaining)%nat ->
    let out := Quantam.attemptLoop this fn input r d stepT remaining attempt lastError st in
    backoffs (traceOf out) = Quantam.backoffDelay d <$> seqZ attempt (Z.of_nat failures) /\
    now (stateOf out)
    = now st
      + sumZ (attemptTime this fn input stepT (context st)
                <$> seqZ attempt (Z.of_nat failures + 1))
      + sumZ ((fun i => setTimeout (Quantam.backoffDelay d i))
                <$> seqZ attempt (Z.of_nat failures)).
Proof.
  induction failures as [|failures IH];
    intros remaining attempt lastError st Hsig Hfail Hok Hle Hfuel;
    (destruct remaining as [|remaining]; [lia|]);
    cbn zeta; cbn [Quantam.attemptLoop];
    rewrite tryAttempt_neverAborted by assumption.
  - rewrite Z.add_0_r in Hok. rewrite Hok.
    change (Z.of_nat 0) with 0.
    rewrite (seqZ_nil attempt 0), (seqZ_first attempt (0 + 1)), (seqZ_nil (attempt + 1) (0 + 1 - 1))
      by lia.
    unfold traceOf, stateOf. cbn [fst snd now fmap list_fmap sumZ foldr].
    split; [reflexivity|]. unfold attemptTime. lia.
  - destruct (Hfail attempt ltac:(lia)) as [e He]. rewrite He.
    destruct (Z.ltb_spec attempt r) as [_|?]; [|lia].
    cbn [context now signal set_retryCount].
    rewrite (sleep_neverAborted _ _ _ Hsig).
    match goal with
    | |- context [Quantam.attemptLoop _ _ _ _ _ _ _ _ ?le ?s] =>
        specialize (IH remaining (attempt + 1) le s)
    end.
    cbn zeta in IH. cbn [context signal now] in IH.
    destruct IH as (Hb & Hnow); try assumption; try lia.
    + intros a Ha. apply Hfail. lia.
    + replace (attempt + 1 + Z.of_nat failures)
        with (attempt + Z.of_nat (S failures)) by lia. exact Hok.
    + destruct (Quantam.attemptLoop _ _ _ _ _ _ _ _ _ _) as [[tr' st2] res].
      unfold traceOf, stateOf in *. cbn [fst snd] in *.
      rewrite (seqZ_first attempt (Z.of_nat (S failures))) by lia.
      rewrite (seqZ_first attempt (Z.of_nat (S failures) + 1)) by lia.
      replace (Z.of_nat (S failures) + 1 - 1) with (Z.of_nat failures + 1) by lia.
      replace (Z.of_nat (S failures) - 1) with (Z.of_nat failures) by lia.
      split.
      * rewrite backoffs_app, backoffs_backoff, Hb. reflexivity.
      * change (attemptTime this fn input stepT (set_retryCount attempt (context st)))
          with (attemptTime this fn input stepT (context st)) in Hnow.
        change (fst (Quantam.awaited this fn input stepT (set_retryCount attempt (context st))))
          with (attemptTime this fn input stepT (context st) attempt) in Hnow.
        rewrite Hnow, !fmap_cons, !sumZ_cons. lia.
Qed.

(** X27: A step that fails on attempts [0 .. k-1] and returns on attempt [k
    <= r], with a retry delay [d >= 1] whose longest backoff slept, [d *
    2^(k-1)], is at most [2^31 - 1] ms (a delay the timer takes as it is),
    and no cancellation: before it returns it has slept [k] times, for [d],
    [2d], [4d], ... in this order, and the clock has advanced by the time
    of its [k + 1] attempts and by [d * (2^k - 1)] of backoff. *)
Theorem retried_step_sleeps_before_it_returns :
  forall this fn input st r d stepT k v,
    0 <= k <= r -> 1 <= d -> d * 2 ^ (k - 1) <= 2147483647 ->
    neverAborted (signal (context st)) ->
    (forall a, 0 <= a < k ->
               exists e, attemptOf this fn input stepT (context st) a = Rejected e) ->
    attemptOf this fn input stepT (context st) k = Resolved v ->
    let out := Quantam.executeSingleStep this fn input st r d stepT in
    resultOf out = Resolved v /\
    backoffs (traceOf out) = (fun i => d * 2 ^ i) <$> seqZ 0 k /\
    now (stateOf out)
    = now st
      + sumZ (attemptTime this fn input stepT (context st) <$> seqZ 0 (k + 1))
      + d * (2 ^ k - 1).
Proof.
  intros this fn input st r d stepT k v Hk Hd Hmax Hsig Hfail Hok. cbn zeta.
  pose proof (doubling_count d k Hd ltac:(lia) Hmax) as Hk31.
  unfold Quantam.executeSingleStep.
  assert (k = Z.of_nat (Z.to_nat k)) as Hn by lia.
  assert (Z.to_nat k <= 31)%nat as Hle by lia.
  revert Hn Hle Hmax Hk Hfail Hok. generalize (Z.to_nat k). intros n -> Hle Hmax Hk Hfail Hok.
  destruct (attemptLoop_succeeds this fn input r d stepT v n (Z.to_nat (r + 1)) 0 None st)
    as (Hres & _ & _); try assumption; try lia.
  destruct (attemptLoop_succeeds_elapsed this fn input r d stepT v n (Z.to_nat (r + 1)) 0 None st)
    as (Hb & Hnow); try assumption; try lia.
  split; [assumption|].
  rewrite Hb, Hnow, doubling_delays, doubling_sum by assumption.
  split; reflexivity.
Qed.

(** The step of the repository's retry test under [retry(3, 1)]: it fails
    twice, sleeps 1 ms and 2 ms and returns 3. *)
Lemma retried_step_sleeps_before_it_returns_witness :
  let out :=
    Quantam.executeSingleStep Quantam.quantam transient (VNum 1) (startState None 0) 3 1 None in
  resultOf out = Resolved (VNum 3) /\
  backoffs (traceOf out) = [1; 2] /\
  now (stateOf out) = 3.
Proof.
  apply (retried_step_sleeps_before_it_returns Quantam.quantam transient (VNum 1)
           (startState None 0) 3 1 None 2 (VNum 3)); try lia.
  - intros t. reflexivity.
  - intros a Ha. exists (mkError "transient").
    assert (a = 0 \/ a = 1) as [-> | ->] by lia; reflexivity.
  - reflexivity.
Defined.

(** *** Timeouts *)

(** An attempt whose call takes longer than an effective timeout of [T]
    ms, with [T] a delay the timer takes as it is, ends when the timer
    fires, with the error of [createTimeout]. *)
Lemma awaited_timeout this fn input stepT ctx T :
  Quantam.effectiveTimeout this stepT = Some T -> 1 <= T <= 2147483647 ->
  T < fst (Quantam.settle ctx (fn input ctx)) ->
  Quantam.awaited this fn input stepT ctx = (T, Rejected (timeoutError T)).
Proof.
  intros Heff HT Hslow. unfold Quantam.awaited. rewrite Heff. cbn [truthy default]. unfold id.
  destruct (Z.eqb_spec T 0) as [?|_]; [lia|]. cbn [negb].
  unfold Quantam.race, Quantam.createTimeout. cbn [fst snd].
  rewrite setTimeout_in_range by assumption.
  destruct (Z.leb_spec (fst (Quantam.settle ctx (fn input ctx))) T) as [?|_]; [lia|].
  reflexivity.
Qed.

(** An attempt whose call is over before the timer of an effective timeout
    of [T] ms fires, with [T] a delay the timer takes as it is, ends as the
    call does. *)
Lemma awaited_in_time this fn input stepT ctx T :
  Quantam.effectiveTimeout this stepT = Some T -> T <= 2147483647 ->
  fst (Quantam.settle ctx (fn input ctx)) < T ->
  Quantam.awaited this fn input stepT ctx = Quantam.settle ctx (fn input ctx).
Proof.
  intros Heff HT Hfast. unfold Quantam.awaited. rewrite Heff. cbn [truthy default]. unfold id.
  destruct (negb (T =? 0)); [|reflexivity].
  pose proof (settle_nonneg ctx (fn input ctx)).
  unfold Quantam.race, Quantam.createTimeout. cbn [fst snd].
  rewrite setTimeout_in_range by lia.
  destruct (Z.leb_spec (fst (Quantam.settle ctx (fn input ctx))) T) as [_|?];
    [reflexivity | lia].
Qed.

(** X11: A step function that takes longer than the effective timeout [T]
    on every attempt, with [1 <= T <= 2^31 - 1], under a retry count [r >=
    0] and a retry delay [d >= 1] whose longest backoff [d * 2^(r-1)] is at
    most [2^31 - 1] ms (delays the timers take as they are), never
    cancelled: the function is called [r + 1] times, every attempt is given
    up after [T] ms, and the step fails with [Timeout after Tms] (suffixed
    with the step name, if any) after [(r + 1) * T + d * (2^r - 1)] ms. *)
Theorem slow_step_times_out_on_every_attempt :
  forall this fn input st r d stepT T,
    Quantam.effectiveTimeout this stepT = Some T -> 1 <= T <= 2147483647 ->
    0 <= r -> 1 <= d -> d * 2 ^ (r - 1) <= 2147483647 ->
    neverAborted (signal (context st)) ->
    (forall a, 0 <= a <= r -> T < callTime fn input (context st) a) ->
    let out := Quantam.executeSingleStep this fn input st r d stepT in
    resultOf out = Rejected (Quantam.afterLoop (Some (timeoutError T)) (context st)) /\
    invocations (traceOf out) = Z.to_nat (r + 1) /\
    now (stateOf out) = now st + (r + 1) * T + d * (2 ^ r - 1).
Proof.
  intros this fn input st r d stepT T Heff HT Hr Hd Hmax Hsig Hslow. cbn zeta.
  pose proof (doubling_count d r Hd Hr Hmax) as Hr31.
  assert (forall a, 0 <= a <= r ->
            Quantam.awaited this fn input stepT (set_retryCount a (context st))
            = (T, Rejected (timeoutError T))) as Haw.
  { intros a Ha. apply awaited_timeout; try assumption. now apply Hslow. }
  assert (forall a, 0 <= a <= r ->
            attemptOf this fn input stepT (context st) a = Rejected (timeoutError T)) as Hfail.
  { intros a Ha. unfold attemptOf. now rewrite Haw. }
  unfold Quantam.executeSingleStep.
  destruct (attemptLoop_exhausted this fn input r d stepT (timeoutError T)
              (Z.to_nat (r + 1)) 0 None st) as [Hres Hinv]; try assumption; try lia.
  { intros a Ha. eexists. apply Hfail. lia. }
  { apply Hfail. lia. }
  destruct (attemptLoop_elapsed this fn input r d stepT (Z.to_nat (r + 1)) 0 None st)
    as [_ Hnow]; try assumption; try lia.
  { intros a Ha. eexists. now apply Hfail. }
  split; [assumption|]. split; [assumption|].
  rewrite Hnow, Z.sub_0_r.
  rewrite (sumZ_constant _ T).
  2: { intros a Ha. apply elem_of_seqZ in Ha. unfold attemptTime. rewrite Haw by lia.
       reflexivity. }
  rewrite length_seqZ, Z2Nat.id by lia.
  assert (r = Z.of_nat (Z.to_nat r)) as Hn by lia.
  revert Hn Hmax. generalize (Z.to_nat r). intros n -> Hmax.
  rewrite doubling_sum by assumption. reflexivity.
Qed.

(** The flow of the repository's timeout test, with one retry after 10 ms:
    two attempts of 5 ms each and a sleep of 10 ms. *)
Lemma slow_step_times_out_on_every_attempt_witness :
  let out :=
    Quantam.executeSingleStep Quantam.quantam slow (VNum 1) (startState None 0) 1 10 (Some 5) in
  resultOf out = Rejected (mkError "Timeout after 5ms") /\
  invocations (traceOf out) = 2%nat /\
  now (stateOf out) = 20.
Proof.
  apply (slow_step_times_out_on_every_attempt Quantam.quantam slow (VNum 1)
           (startState None 0) 1 10 (Some 5) 5); try lia.
  - reflexivity.
  - intros t. reflexivity.
  - intros a _. reflexivity.
Defined.

Lemma attemptLoop_agree A B sa sb fn input r d :
  forall remaining attempt lastError st,
    (forall a, attempt <= a < attempt + Z.of_nat remaining ->
               Quantam.awaited A fn input sa (set_retryCount a (context st))
               = Quantam.awaited B fn input sb (set_retryCount a (context st))) ->
    Quantam.attemptLoop A fn input r d sa remaining attempt lastError st
    = Quantam.attemptLoop B fn input r d sb remaining attempt lastError st.
Proof.
  induction remaining as [|remaining IH]; intros attempt lastError st Hsame; [reflexivity|].
  cbn [Quantam.attemptLoop]. unfold Quantam.tryAttempt.
  rewrite (Hsame attempt) by lia.
  destruct (Quantam.checkAborted _ _).
  - destruct (attempt <? r).
    + destruct (Quantam.sleep _ _ _) as [t [ab|]]; [reflexivity|].
      rewrite IH; [reflexivity|]. intros a Ha. apply Hsame. lia.
    + rewrite IH; [reflexivity|]. intros a Ha. apply Hsame. lia.
  - destruct (snd (Quantam.awaited B fn input sb _)); try reflexivity.
    destruct (attempt <? r).
    + destruct (Quantam.sleep _ _ _) as [t [ab|]]; [reflexivity|].
      rewrite IH; [reflexivity|]. intros a Ha. apply (Hsame a). lia.
    + rewrite IH; [reflexivity|]. intros a Ha. apply (Hsame a). lia.
Qed.

(** X12: A timeout that never fires changes nothing: when the effective
    timeout [T] is at most [2^31 - 1] ms (a delay the timer takes as it is)
    and every call the step can make is over before [T] ms have passed, the
    step is executed exactly as in a flow without any timeout. *)
Theorem timeout_that_never_fires_changes_nothing :
  forall this fn input st r d stepT T,
    Quantam.effectiveTimeout this stepT = Some T -> T <= 2147483647 ->
    (forall a, 0 <= a <= r -> callTime fn input (context st) a < T) ->
    Quantam.executeSingleStep this fn input st r d stepT
    = Quantam.executeSingleStep (withoutTimeout this) fn input st r d None.
Proof.
  intros this fn input st r d stepT T Heff HT Hfast.
  unfold Quantam.executeSingleStep. apply attemptLoop_agree.
  intros a Ha. rewrite awaited_withoutTimeout.
  apply (awaited_in_time _ _ _ _ _ T); [assumption..|]. apply Hfast. lia.
Qed.

(** The 20 ms step under a step timeout of 50 ms. *)
Lemma timeout_that_never_fires_changes_nothing_witness :
  Quantam.executeSingleStep Quantam.quantam slow (VNum 1) (startState None 0) 2 10 (Some 50)
  = Quantam.executeSingleStep (withoutTimeout Quantam.quantam) slow (VNum 1)
      (startState None 0) 2 10 None.
Proof.
  apply (timeout_that_never_fires_changes_nothing Quantam.quantam slow (VNum 1)
           (startState None 0) 2 10 (Some 50) 50).
  - reflexivity.
  - lia.
  - intros a _. reflexivity.
Defined.

(** X13: The timeout of a step shadows the timeout of the flow: a step with
    its own timeout is executed in the same way whatever the flow-level
    timeout is; a step without one is executed as if the flow-level timeout
    were its own. This holds for single steps and for groups. *)
Theorem step_timeout_shadows_flow_timeout :
  forall a b input st r d s,
    (forall fn,
       Quantam.executeSingleStep a fn input st r d (Some s)
       = Quantam.executeSingleStep b fn input st r d (Some s)) /\
    (forall fuel fns,
       Quantam.executeParallelSteps fuel a fns input st r d (Some s)
       = Quantam.executeParallelSteps fuel b fns input st r d (Some s)) /\
    (forall fn,
       Quantam.executeSingleStep a fn input st r d None
       = Quantam.executeSingleStep a fn input st r d (Quantam.timeoutMs a)) /\
    (forall fuel fns,
       Quantam.executeParallelSteps fuel a fns input st r d None
       = Quantam.executeParallelSteps fuel a fns input st r d (Quantam.timeoutMs a)).
Proof.
  intros a b input st r d s.
  assert (Quantam.effectiveTimeout a (Some s) = Quantam.effectiveTimeout b (Some s)) as H1
    by reflexivity.
  assert (Quantam.effectiveTimeout a None = Quantam.effectiveTimeout a (Quantam.timeoutMs a))
    as H2 by (unfold Quantam.effectiveTimeout; cbn; now destruct (Quantam.timeoutMs a)).
  repeat split; intros;
    unfold Quantam.executeSingleStep, Quantam.executeParallelSteps;
    first [ now apply attemptLoop_same
          | rewrite (startAll_same a b (Some s) (Some s) H1);
            destruct (Quantam.startAll _ _ _ _ _ _ _ _) as [[tr0 st0] tasks];
            now rewrite (groupLoop_same a b (Some s) (Some s) H1)
          | rewrite (startAll_same a a None (Quantam.timeoutMs a) H2);
            destruct (Quantam.startAll _ _ _ _ _ _ _ _) as [[tr0 st0] tasks];
            now rewrite (groupLoop_same a a None (Quantam.timeoutMs a) H2) ].
Qed.

(** *** Cancellation while a step is under way *)

(** X14: When the signal is aborted while a step is sleeping before a retry
    (before the timer of the sleep is due, which is after the delay the
    timer gives the computed backoff), or while the failing attempt before
    that sleep was still running, the step does not wait for the end of the
    sleep: it fails with [Sleep aborted] at the instant of the abort (at
    the end of the attempt, if the abort came during the attempt). The
    function is not called again, the error of the attempt is dropped, and
    the message gets no step suffix. *)
Theorem abort_during_backoff_rejects_at_once :
  forall this fn input r d stepT remaining attempt lastError st a e,
    signal (context st) = Some {| abortedAt := Some a |} ->
    now st < a ->
    attempt < r ->
    attemptOf this fn input stepT (context st) attempt = Rejected e ->
    a < now st + attemptTime this fn input stepT (context st) attempt
        + setTimeout (Quantam.backoffDelay d attempt) ->
    Quantam.attemptLoop this fn input r d stepT (S remaining) attempt lastError st
    = ([Invoked 0 attempt (set_retryCount attempt (context st))],
       {| now := Z.max a (now st + attemptTime this fn input stepT (context st) attempt);
          context := set_retryCount attempt (context st) |},
       Rejected sleepAborted).
Proof.
  intros this fn input r d stepT remaining attempt lastError st a e Hsig Hnow Hr He Ha.
  cbn [Quantam.attemptLoop]. unfold Quantam.tryAttempt, Quantam.checkAborted, Quantam.aborted.
  rewrite Hsig. cbn [abortedAt].
  destruct (Z.leb_spec a (now st)) as [?|_]; [lia|].
  unfold attemptOf in He. rewrite He.
  destruct (Z.ltb_spec attempt r) as [_|?]; [|lia].
  unfold Quantam.sleep, Quantam.aborted. cbn [context now signal set_retryCount].
  rewrite Hsig. cbn [abortedAt mbind option_bind].
  unfold attemptTime in *.
  destruct (Z.leb_spec a
              (now st + fst (Quantam.awaited this fn input stepT
                               (set_retryCount attempt (context st))))) as [Hle|Hgt].
  - rewrite Z.max_r by lia. unfold set_retryCount. rewrite Hsig. reflexivity.
  - match goal with |- context [?x <=? ?y] => destruct (Z.leb_spec x y) as [_|?]; [|lia] end.
    rewrite Z.max_l by lia. unfold set_retryCount. rewrite Hsig. reflexivity.
Qed.

(** [alwaysFails] under [retry(3, 100)], the signal aborted at instant 10:
    the step fails at 10, in the middle of its first sleep of 100 ms. *)
Lemma abort_during_backoff_rejects_at_once_witness :
  Quantam.attemptLoop Quantam.quantam alwaysFails (VNum 1) 3 100 None 4 0 None stateAbortsAtTen
  = ([Invoked 0 0 (context stateAbortsAtTen)],
     {| now := 10; context := context stateAbortsAtTen |}, Rejected sleepAborted).
Proof.
  apply (abort_during_backoff_rejects_at_once Quantam.quantam alwaysFails (VNum 1) 3 100 None
           3 0 None stateAbortsAtTen 10 (mkError "boom")); try reflexivity; try lia.
Defined.

(** X15: The run polls the signal only before an attempt is started. When
    the run of [this] has resolved, the signal is not aborted at that
    moment, and the first attempt of the new last step [fn] returns [w],
    then the run of [this.step(fn)] resolves with [w], whether or not the
    signal is aborted while [fn] is running. *)
Theorem abort_after_last_attempt_started_is_ignored :
  forall this (h : list Step.t) fuel x options t0 fn tr st v w,
    allocated this h ->
    Quantam.run fuel h this x options t0 = (tr, st, Resolved v) ->
    Quantam.aborted (signal (context st)) (now st) = false ->
    attemptOf this fn v None
      {| signal := signal (context st);
         stepIndex := Z.of_nat (length (Quantam.steps this));
         stepName := None; retryCount := 0 |} 0 = Resolved w ->
    resultOf (Quantam.run fuel (snd (Quantam.step fn this h)) (fst (Quantam.step fn this h))
                x options t0)
    = Resolved w.
Proof.
  intros this h fuel x options t0 fn tr st v w Hal Hrun Hab Hw.
  destruct (run_andThen this h fuel x options t0 Hal) as [Hstep _].
  rewrite Hstep, Hrun. unfold andThen, Quantam.checkAborted. rewrite Hab.
  unfold Quantam.executeSingleStep. change (Z.to_nat (0 + 1)) with 1%nat.
  cbn [Quantam.attemptLoop]. unfold Quantam.tryAttempt, Quantam.checkAborted.
  cbn [context now signal]. rewrite Hab.
  unfold attemptOf in Hw. cbn [set_retryCount signal stepIndex stepName] in *.
  rewrite Hw. reflexivity.
Qed.

(** [quantam().step(slow)] run under a signal that is aborted 10 ms into
    the 20 ms of the step: the run resolves, and the signal is aborted when
    it does. *)
Lemma abort_after_last_attempt_started_is_ignored_witness :
  let out :=
    Quantam.run 0 (snd flowSlowOnly) (fst flowSlowOnly) (VNum 1)
      (Some {| opt_signal := Some abortsAtTen |}) 0 in
  resultOf out = Resolved (VNum 2) /\
  Quantam.aborted (Some abortsAtTen) (now (stateOf out)) = true.
Proof.
  split; [|reflexivity].
  apply (abort_after_last_attempt_started_is_ignored Quantam.quantam [] 0 (VNum 1)
           (Some {| opt_signal := Some abortsAtTen |}) 0 slow []
           (startState (Some abortsAtTen) 0) (VNum 1) (VNum 2)).
  - split; constructor.
  - reflexivity.
  - reflexivity.
  - reflexivity.
Defined.

(** *** The backoff delay for any attempt number *)

Lemma shl_one_sign_bit : shl 1 31 = - 2 ^ 31.
Proof. reflexivity. Qed.

Lemma shl_one_mod a : shl 1 a = shl 1 (a mod 32).
Proof.
  unfold shl. f_equal. f_equal.
  change 31 with (Z.ones 5). rewrite !Z.land_ones by lia.
  change (2 ^ 5) with 32. now rewrite Z.mod_mod by lia.
Qed.

(** X16: The delay the [catch] block computes, for every attempt number: the
    shift count of [1 << attempt] is taken modulo 32, so the delay is
    [retryDelay * 2^(attempt mod 32)], it is negative when [attempt mod 32]
    is 31 (the timer of the sleep is then due after 1 ms, as for every
    delay below 1), and it starts again from [retryDelay] every 32
    attempts. A sleep before a retry is therefore never longer than
    [retryDelay * 2^30] ms. *)
Theorem backoff_delay_wraps_every_32_attempts :
  forall d attempt,
    Quantam.backoffDelay d (attempt + 32) = Quantam.backoffDelay d attempt /\
    (attempt mod 32 <= 30 -> Quantam.backoffDelay d attempt = d * 2 ^ (attempt mod 32)) /\
    (attempt mod 32 = 31 -> Quantam.backoffDelay d attempt = - (d * 2 ^ 31)) /\
    (0 <= d -> Z.max 0 (Quantam.backoffDelay d attempt) <= d * 2 ^ 30) /\
    (1 <= d -> setTimeout (Quantam.backoffDelay d attempt) <= d * 2 ^ 30).
Proof.
  intros d attempt. unfold Quantam.backoffDelay.
  pose proof (Z.mod_pos_bound attempt 32 ltac:(lia)) as Hk.
  rewrite (shl_one_mod attempt), (shl_one_mod (attempt + 32)).
  replace ((attempt + 32) mod 32) with (attempt mod 32)
    by (rewrite <- (Z.mul_1_l 32) at 2; now rewrite Z_mod_plus_full).
  set (k := attempt mod 32) in *.
  assert (0 <= d -> Z.max 0 (d * shl 1 k) <= d * 2 ^ 30) as Hmax.
  { intros Hd. destruct (Z.eq_dec k 31) as [->|Hne].
    - rewrite shl_one_sign_bit. lia.
    - rewrite shl_one_pow2 by lia.
      assert (0 < 2 ^ k <= 2 ^ 30)
        by (split; [apply Z.pow_pos_nonneg; lia | apply Z.pow_le_mono_r; lia]).
      nia. }
  split; [reflexivity|]. split; [|split; [|split]].
  - intros Hle. now rewrite shl_one_pow2 by lia.
  - intros ->. rewrite shl_one_sign_bit. lia.
  - exact Hmax.
  - intros Hd. specialize (Hmax ltac:(lia)).
    unfold setTimeout.
    destruct (Z.leb_spec 1 (d * shl 1 k)), (Z.leb_spec (d * shl 1 k) 2147483647);
      cbn [andb]; lia.
Qed.

(** *** The step suffix of a failure *)

(** X17: The step suffix is added at most once: a failure that already went
    through the end of [executeSingleStep] for a step of this name comes out
    unchanged when it goes through it again. *)
Theorem step_suffix_is_added_once :
  forall e ctx,
    Quantam.afterLoop (Some (Quantam.afterLoop (Some e) ctx)) ctx
    = Quantam.afterLoop (Some e) ctx.
Proof.
  intros e ctx. unfold Quantam.afterLoop.
  destruct (negb (String.eqb (Quantam.stepLabel ctx) "")); [|reflexivity].
  cbn [andb].
  destruct (includes (message e) (Quantam.stepLabel ctx)) eqn:Hinc; cbn [negb].
  - now rewrite Hinc.
  - cbn [message andb].
    replace (includes (message e +:+ " (at step" +:+ Quantam.stepLabel ctx +:+ ")")
               (Quantam.stepLabel ctx)) with true; [reflexivity|].
    symmetry. apply includes_spec. exists (message e +:+ " (at step"), ")".
    now rewrite !string_app_assoc.
Qed.

(** ** Further properties of parallel groups *)

(** *** The start of a group *)

(** The loop head and [try] block of a first attempt that is not
    cancelled. *)
Lemma startAttempt_first this input r d stepT fn member st :
  0 <= r ->
  Quantam.aborted (signal (context st)) (now st) = false ->
  let ctx := set_retryCount 0 (context st) in
  let st' := {| now := now st; context := ctx |} in
  Quantam.startAttempt this input r d stepT fn member 0 None st
  = ([Invoked member 0 ctx], st',
     Quantam.awaitFn r d 0
       (if truthy (Quantam.effectiveTimeout this stepT) then
          Some (now st + fst (Quantam.createTimeout
                                (default 0 (Quantam.effectiveTimeout this stepT))),
                snd (Quantam.createTimeout
                       (default 0 (Quantam.effectiveTimeout this stepT))))
        else None)
       (fn input ctx) st').
Proof.
  intros Hr Hab. cbn zeta. unfold Quantam.startAttempt, Quantam.checkAborted.
  destruct (Z.leb_spec 0 r) as [_|?]; [|lia]. now rewrite Hab.
Qed.

(** [fns.map(...)] calls every member once, in order, whatever the calls
    return. *)
Lemma startAll_first this input r d stepT fns :
  0 <= r ->
  forall member st,
    Quantam.aborted (signal (context st)) (now st) = false ->
    let ctx := set_retryCount 0 (context st) in
    let st' := {| now := now st; context := ctx |} in
    let out := Quantam.startAll this input r d stepT fns member st in
    traceOf out = imap (fun j _ => Invoked (member + j) 0 ctx) fns /\
    stateOf out = match fns with [] => st | _ => st' end /\
    resultOf out
    = (fun fn =>
         (fn, Quantam.awaitFn r d 0
                (if truthy (Quantam.effectiveTimeout this stepT) then
                   Some (now st + fst (Quantam.createTimeout
                                         (default 0 (Quantam.effectiveTimeout this stepT))),
                         snd (Quantam.createTimeout
                                (default 0 (Quantam.effectiveTimeout this stepT))))
                 else None)
                (fn input ctx) st')) <$> fns.
Proof.
  intros Hr. induction fns as [|fn fns IH]; intros member st Hab; cbn zeta.
  - repeat split.
  - cbn [Quantam.startAll].
    rewrite (startAttempt_first this input r d stepT fn member st Hr Hab).
    specialize (IH (S member) {| now := now st; context := set_retryCount 0 (context st) |}).
    cbn zeta in IH. cbn [now context signal set_retryCount] in IH.
    specialize (IH Hab).
    destruct (Quantam.startAll _ _ _ _ _ _ _ _) as [[tr' st2] tasks].
    unfold traceOf, stateOf, resultOf in *. cbn [fst snd] in *.
    destruct IH as (Htr & Hst & Htasks). subst tr' tasks.
    split; [|split].
    + rewrite imap_cons. cbn [app]. rewrite Nat.add_0_r. f_equal.
      apply imap_ext. intros j fn' _. cbn. f_equal. lia.
    + rewrite Hst. now destruct fns.
    + reflexivity.
Qed.

(** X18: The members of a group are all called before the group awaits any
    of them: when the group is started with a retry count that is not
    negative and the signal is not aborted, the first events are the calls
    of the members, one each, in the order of the array, as attempt 0, and
    this whatever the calls do, even if one of them throws at once. *)
Theorem group_calls_every_member_first :
  forall fuel this fns input st r d stepT,
    0 <= r ->
    Quantam.aborted (signal (context st)) (now st) = false ->
    take (length fns)
      (traceOf (Quantam.executeParallelSteps fuel this fns input st r d stepT))
    = firstCalls (context st) fns.
Proof.
  intros fuel this fns input st r d stepT Hr Hab.
  unfold Quantam.executeParallelSteps.
  destruct (startAll_first this input r d stepT fns Hr 0%nat st Hab) as (Htr & _ & _).
  destruct (Quantam.startAll _ _ _ _ _ _ _ _) as [[tr0 st1] tasks].
  destruct (Quantam.groupLoop _ _ _ _ _ _ _ _) as [[tr1 st2] res].
  unfold traceOf in *. cbn [fst snd] in *. subst tr0.
  rewrite take_app_length' by now rewrite length_imap. reflexivity.
Qed.

(** A group whose first member throws at once and whose second member
    takes 50 ms, without retries: both are called. *)
Lemma group_calls_every_member_first_witness :
  take 2 (traceOf (Quantam.executeParallelSteps 4 Quantam.quantam [alwaysFails; readsLate]
                     (VNum 1) (startState None 0) 0 100 None))
  = [Invoked 0 0 (context (startState None 0)); Invoked 1 0 (context (startState None 0))].
Proof.
  apply (group_calls_every_member_first 4 Quantam.quantam [alwaysFails; readsLate]
           (VNum 1) (startState None 0) 0 100 None); [lia | reflexivity].
Defined.

(** *** Groups whose members all return *)

Lemma earliest_None m tasks :
  Quantam.earliest m tasks = None ->
  Forall (fun task : AsyncFn * Quantam.Task => Quantam.dueAt (snd task) = None) tasks.
Proof.
  revert m. induction tasks as [|[fn task] tasks IH]; intros m H; [constructor|].
  cbn [Quantam.earliest] in H.
  destruct (Quantam.dueAt task) as [t|] eqn:Hd.
  - destruct (Quantam.earliest (S m) tasks) as [[j t']|]; [|discriminate].
    destruct (t <=? t'); discriminate.
  - constructor; [assumption|]. now apply (IH (S m)).
Qed.

Lemma earliest_finished m tasks :
  Forall (fun task : AsyncFn * Quantam.Task => Quantam.dueAt (snd task) = None) tasks ->
  Quantam.earliest m tasks = None.
Proof.
  revert m. induction tasks as [|[fn task] tasks IH]; intros m H; [reflexivity|].
  inversion H as [|? ? Hd Hrest]; subst. cbn [snd] in Hd.
  cbn [Quantam.earliest]. rewrite Hd. now apply IH.
Qed.

(** The member [earliest] picks is due, and no member is due before it. *)
Lemma earliest_Some tasks :
  forall m j due,
    Quantam.earliest m tasks = Some (j, due) ->
    (m <= j)%nat /\
    (exists fn task, tasks !! (j - m)%nat = Some (fn, task) /\ Quantam.dueAt task = Some due) /\
    Forall (fun task : AsyncFn * Quantam.Task =>
              forall t, Quantam.dueAt (snd task) = Some t -> due <= t) tasks.
Proof.
  induction tasks as [|[fn task] tasks IH]; intros m j due H; [discriminate|].
  cbn [Quantam.earliest] in H.
  destruct (Quantam.dueAt task) as [t|] eqn:Hd.
  - destruct (Quantam.earliest (S m) tasks) as [[j' t']|] eqn:He.
    + destruct (IH _ _ _ He) as (Hle & (fn' & task' & Hl & Hd') & Hmin).
      destruct (Z.leb_spec t t') as [Htt|Htt]; injection H as <- <-.
      * split; [lia|]. split.
        -- exists fn, task. rewrite Nat.sub_diag. split; [reflexivity | assumption].
        -- constructor.
           ++ cbn [snd]. intros t0 Ht0. rewrite Hd in Ht0. injection Ht0 as <-. lia.
           ++ eapply Forall_impl; [exact Hmin|]. cbn. intros x Hx t0 Ht0.
              specialize (Hx t0 Ht0). lia.
      * split; [lia|]. split.
        -- exists fn', task'. replace (j' - m)%nat with (S (j' - S m)) by lia.
           split; assumption.
        -- constructor; [|assumption].
           cbn [snd]. intros t0 Ht0. rewrite Hd in Ht0. injection Ht0 as <-. lia.
    + injection H as <- <-. split; [lia|]. split.
      * exists fn, task. rewrite Nat.sub_diag. split; [reflexivity | assumption].
      * constructor.
        -- cbn [snd]. intros t0 Ht0. rewrite Hd in Ht0. injection Ht0 as <-. lia.
        -- apply earliest_None in He. eapply Forall_impl; [exact He|].
           cbn. intros x Hx t0 Ht0. congruence.
  - destruct (IH _ _ _ H) as (Hle & (fn' & task' & Hl & Hd') & Hmin).
    split; [lia|]. split.
    + exists fn', task'. replace (j - m)%nat with (S (j - S m)) by lia. split; assumption.
    + constructor; [|assumption]. cbn [snd]. intros t0 Ht0. congruence.
Qed.

Lemma pending_insert ctx tasks :
  forall j old new,
    tasks !! j = Some old ->
    (pending ctx (<[j := new]> tasks) + cost ctx old
     = pending ctx tasks + cost ctx new)%nat.
Proof.
  induction tasks as [|task tasks IH]; intros j old new Hj; [discriminate|].
  destruct j as [|j].
  - injection Hj as ->.
    change (<[0%nat := new]> (old :: tasks)) with (new :: tasks).
    unfold pending. cbn [foldr]. lia.
  - specialize (IH j old new Hj).
    change (<[S j := new]> (task :: tasks)) with (task :: <[j := new]> tasks).
    unfold pending in *. cbn [foldr]. lia.
Qed.

Lemma invocations_imap (f : nat -> AsyncFn -> Event) fns :
  (forall j fn, isInvoked (f j fn) = true) ->
  invocations (imap f fns) = length fns.
Proof.
  revert f. induction fns as [|fn fns IH]; intros f Hf; [reflexivity|].
  rewrite imap_cons. unfold invocations in *. cbn [List.filter]. rewrite Hf. cbn [length].
  f_equal. apply IH. intros j fn'. apply Hf.
Qed.

Lemma maxZ_nonneg l : 0 <= maxZ l.
Proof. induction l as [|x l IH]; cbn; [lia|]. unfold maxZ in *. lia. Qed.

Lemma maxZ_bound l x : x ∈ l -> x <= maxZ l.
Proof.
  induction l as [|y l IH]; intros H; [now apply elem_of_nil in H|].
  apply elem_of_cons in H. unfold maxZ in *. cbn [foldr].
  destruct H as [->|H]; [lia|]. specialize (IH H). lia.
Qed.

Lemma maxZ_attained l : maxZ l = 0 \/ maxZ l ∈ l.
Proof.
  induction l as [|y l IH]; [now left|].
  unfold maxZ in *. cbn [foldr].
  destruct (Z.max_spec y (foldr Z.max 0 l)) as [[_ ->]|[_ ->]].
  - destruct IH as [IH|IH]; [now left | right; now right].
  - right. left.
Qed.

Section GroupReturns.
Variables (this : Quantam.t) (input : value) (r d : Z) (stepT : option Z).
Variable ctx : ExecutionContext.

Lemma returns_no_rejection t tasks vs :
  Forall2 (returns ctx t) tasks vs ->
  list_find (fun task => is_Some (Quantam.rejection task)) tasks = None.
Proof.
  intros H. apply list_find_None.
  induction H as [|[fn task] v tasks vs Hr _ IH]; constructor; [|assumption].
  unfold returns, Quantam.rejection in *. cbn [snd] in *.
  destruct task as [a w k dl|a w ab le|[v'|e|]]; try contradiction;
    intros [x Hx]; discriminate.
Qed.

(** When no member is awaiting any more, [Promise.all] resolves with the
    values in member order. *)
Lemma groupLoop_all_returned fuel tasks st vs :
  Forall2 (returns ctx (now st)) tasks vs ->
  Quantam.earliest 0 tasks = None ->
  Quantam.groupLoop this input r d stepT fuel tasks st = ([], st, Resolved vs).
Proof.
  intros Hret He.
  assert (mapM Quantam.fulfilment tasks = Some vs) as Hm.
  { apply mapM_Some_2. apply earliest_None in He.
    induction Hret as [|[fn task] v tasks vs Hr _ IH]; constructor.
    - inversion He as [|? ? Hd _]; subst. cbn [snd] in Hd.
      unfold returns, Quantam.fulfilment in *. cbn [snd] in *.
      destruct task as [a w k [dl|]|a w ab le|[v'|e|]]; try contradiction; try discriminate.
      now subst.
    - apply IH. now inversion He. }
  destruct fuel; cbn [Quantam.groupLoop];
    rewrite (returns_no_rejection _ _ _ Hret), He, Hm; reflexivity.
Qed.

Lemma isLatest_fire tasks j fn a wake k dl t M new :
  isLatest ctx M t tasks ->
  tasks !! j = Some (fn, Quantam.Racing a wake k dl) ->
  t <= wake ->
  (finishTime ctx (fn, new) = Some (wake + fst (Quantam.settle ctx (k ctx))) \/
   (finishTime ctx (fn, new) = None /\ fst (Quantam.settle ctx (k ctx)) = 0)) ->
  isLatest ctx M wake (<[j := (fn, new)]> tasks).
Proof.
  intros (HtM & Hbound & Hatt) Hj Htw Hnew.
  pose proof (settle_nonneg ctx (k ctx)) as Hnn.
  assert (wake + fst (Quantam.settle ctx (k ctx)) <= M) as Hold.
  { apply (Hbound (fn, Quantam.Racing a wake k dl)); [|reflexivity].
    now apply list_elem_of_lookup_2 in Hj. }
  pose proof (lookup_lt_Some _ _ _ Hj) as Hlen.
  split; [lia|]. split.
  - intros task e Hin He.
    apply list_elem_of_lookup_1 in Hin as [i Hi].
    apply list_lookup_insert_Some in Hi as [(-> & <- & _)|[Hne Hi]].
    + destruct Hnew as [Hn|[Hn _]]; rewrite Hn in He; [|discriminate].
      injection He as <-. exact Hold.
    + apply (Hbound task); [|assumption]. now apply list_elem_of_lookup_2 in Hi.
  - destruct Hatt as [->|(task & Hin & He)]; [left; lia|].
    apply list_elem_of_lookup_1 in Hin as [i Hi].
    destruct (decide (i = j)) as [->|Hne].
    + rewrite Hj in Hi. injection Hi as <-. cbn in He. injection He as HM.
      destruct Hnew as [Hn|[Hn H0]].
      * right. exists (fn, new). split.
        -- apply list_elem_of_lookup. exists j. now apply list_lookup_insert_eq.
        -- rewrite Hn. f_equal. exact HM.
      * left. lia.
    + right. exists task. split; [|assumption].
      apply list_elem_of_lookup. exists i. now rewrite list_lookup_insert_ne.
Qed.

(** The event loop of a group whose members all return, given enough
    fuel for their resumptions: no member is called again, the group
    resolves with the values in member order, and it does so at the
    instant the last member returns. *)
Lemma groupLoop_returns fuel :
  forall tasks st vs M,
    context st = ctx ->
    Forall2 (returns ctx (now st)) tasks vs ->
    isLatest ctx M (now st) tasks ->
    (pending ctx tasks <= fuel)%nat ->
    exists tr,
      Quantam.groupLoop this input r d stepT fuel tasks st
      = (tr, {| now := M; context := ctx |}, Resolved vs) /\
      invocations tr = 0%nat.
Proof.
  induction fuel as [|fuel IH]; intros tasks st vs M Hctx Hret Hlat Hfuel.
  - assert (Quantam.earliest 0 tasks = None) as He.
    { destruct (Quantam.earliest 0 tasks) as [[j due]|] eqn:He; [|reflexivity].
      destruct (earliest_Some _ _ _ _ He) as (_ & (fn & task & Hj & Hd) & _).
      rewrite Nat.sub_0_r in Hj.
      pose proof (pending_insert ctx tasks j (fn, task) (fn, task) Hj) as Hp.
      destruct (Forall2_lookup_l _ _ _ _ _ Hret Hj) as (v & _ & Hr).
      unfold returns, cost in *. cbn [snd] in *.
      destruct task as [a w k dl|a w ab le|res]; try discriminate; try contradiction.
      assert (pending ctx tasks = 0%nat) as H0 by lia.
      rewrite (list_insert_id _ _ _ Hj) in Hp. unfold pending in *.
      exfalso. clear -Hj H0.
      revert j Hj. induction tasks as [|x tasks IHt]; intros j Hj; [discriminate|].
      cbn [foldr] in H0. destruct j as [|j].
      - injection Hj as ->. unfold cost in H0. cbn [snd] in H0. lia.
      - apply (IHt ltac:(lia) j Hj). }
    exists []. rewrite (groupLoop_all_returned 0 tasks st vs Hret He).
    destruct Hlat as (_ & _ & [->|(task & Hin & Hf)]).
    + split; [|reflexivity]. destruct st. cbn in *. now subst.
    + exfalso. apply earliest_None in He. rewrite Forall_forall in He.
      specialize (He _ Hin). unfold finishTime in Hf.
      destruct (snd task); try discriminate.
      cbn in He. now destruct deadline as [[? ?]|].
  - destruct (Quantam.earliest 0 tasks) as [[j due]|] eqn:He.
    + destruct (earliest_Some _ _ _ _ He) as (_ & (fn & task & Hj & Hd) & Hmin).
      rewrite Nat.sub_0_r in Hj.
      destruct (Forall2_lookup_l _ _ _ _ _ Hret Hj) as (v & Hv & Hr).
      unfold returns in Hr. cbn [snd] in Hr.
      destruct task as [a w k [dl|]|a w ab le|res]; try discriminate; try contradiction.
      destruct Hr as [Htw Hk]. cbn in Hd. injection Hd as <-.
      cbn [Quantam.groupLoop].
      rewrite (returns_no_rejection _ _ _ Hret), He, Hj.
      cbn [Quantam.fire context]. rewrite Hctx.
      pose proof (pending_insert ctx tasks j _
                    (fn, Quantam.awaitFn r d a None (k ctx) {| now := w; context := ctx |})
                    Hj) as Hp.
      assert (Forall2 (returns ctx w) tasks vs) as Hret'.
      { rewrite Forall_forall in Hmin.
        apply Forall2_same_length_lookup. split; [now apply Forall2_length in Hret|].
        intros i x y Hx Hy. pose proof (Forall2_lookup_lr _ _ _ _ _ _ Hret Hx Hy) as Hxy.
        specialize (Hmin x (list_elem_of_lookup_2 _ _ _ Hx)).
        unfold returns in *. destruct (snd x) as [a' w' k' [dl'|]|a' w' ab' le'|res'];
          try contradiction; try assumption.
        destruct Hxy as [_ Hxy]. split; [|assumption]. apply Hmin. reflexivity. }
      destruct (k ctx) as [v'|e|ms k'] eqn:Hkc.
      * cbn in Hk. injection Hk as ->.
        cbn [Quantam.awaitFn] in *.
        destruct (IH (<[j := (fn, Quantam.Finished (Resolved v))]> tasks)
                    {| now := w; context := ctx |} vs M) as (tr & Hloop & Hinv).
        -- reflexivity.
        -- rewrite <- (list_insert_id vs j v Hv). apply Forall2_insert; [assumption|].
           reflexivity.
        -- apply (isLatest_fire tasks j fn a w k None (now st)); try assumption.
           right. split; [reflexivity|]. now rewrite Hkc.
        -- unfold cost in Hp. cbn [snd] in Hp. rewrite Hkc in Hp. cbn in Hp. lia.
        -- rewrite Hloop. eexists. split; [reflexivity|].
           rewrite invocations_app, Hinv. reflexivity.
      * cbn in Hk. discriminate.
      * rewrite settle_Wait in Hk. cbn [snd] in Hk.
        cbn [Quantam.awaitFn now] in *.
        destruct (IH (<[j := (fn, Quantam.Racing a (w + Z.max 0 ms) k' None)]> tasks)
                    {| now := w; context := ctx |} vs M) as (tr & Hloop & Hinv).
        -- reflexivity.
        -- rewrite <- (list_insert_id vs j v Hv). apply Forall2_insert; [assumption|].
           unfold returns. cbn [snd now]. split; [lia | assumption].
        -- apply (isLatest_fire tasks j fn a w k None (now st)); try assumption.
           left. unfold finishTime. cbn [snd]. rewrite Hkc, settle_Wait. cbn [fst].
           f_equal. lia.
        -- unfold cost in Hp. cbn [snd] in Hp. rewrite Hkc in Hp. cbn in Hp. lia.
        -- rewrite Hloop. eexists. split; [reflexivity|].
           rewrite invocations_app, Hinv. reflexivity.
    + exists []. rewrite (groupLoop_all_returned (S fuel) tasks st vs Hret He).
      destruct Hlat as (_ & _ & [->|(task & Hin & Hf)]).
      * split; [|reflexivity]. destruct st. cbn in *. now subst.
      * exfalso. apply earliest_None in He. rewrite Forall_forall in He.
        specialize (He _ Hin). unfold finishTime in Hf.
        destruct (snd task); try discriminate.
        cbn in He. now destruct deadline as [[? ?]|].
Qed.

End GroupReturns.

(** The tasks of a group right after [fns.map(...)], when no timeout is
    in effect: member [fn] awaits its call with the context [ctx]. *)
Section Started.
Variables (input : value) (r d : Z) (ctx : ExecutionContext) (t : Z).

Local Abbreviation started := (startedTask input r d ctx t).

Lemma started_returns fns :
  (forall fn, fn ∈ fns -> exists v, snd (Quantam.settle ctx (fn input ctx)) = Resolved v) ->
  Forall2 (returns ctx t) (started <$> fns) ((fun fn => outputOf fn ctx input) <$> fns).
Proof.
  induction fns as [|fn fns IH]; intros H; [constructor|].
  cbn [fmap list_fmap]. constructor.
  - destruct (H fn ltac:(left)) as [v Hv].
    unfold returns, startedTask, outputOf. cbn [snd]. rewrite Hv.
    destruct (fn input ctx) as [v'|e|ms k]; cbn [Quantam.awaitFn].
    + cbn in Hv. congruence.
    + cbn in Hv. discriminate.
    + rewrite settle_Wait in Hv. cbn [snd now] in *. split; [lia | assumption].
  - apply IH. intros fn' Hin. apply H. now right.
Qed.

Lemma started_pending fns : pending ctx (started <$> fns) = resumptions ctx input fns.
Proof.
  induction fns as [|fn fns IH]; [reflexivity|].
  cbn [fmap list_fmap]. unfold pending, resumptions in *. cbn [foldr]. rewrite IH. f_equal.
  unfold cost, startedTask. cbn [snd].
  destruct (fn input ctx) as [v'|e|ms k]; cbn [Quantam.awaitFn waits]; try reflexivity.
  unfold Quantam.failAttempt. destruct (0 <? r); [|reflexivity].
  now destruct (Quantam.sleep _ _ _).
Qed.

Lemma started_finishTime fn e :
  finishTime ctx (started fn) = Some e ->
  e = t + fst (Quantam.settle ctx (fn input ctx)).
Proof.
  unfold finishTime, startedTask. cbn [snd].
  destruct (fn input ctx) as [v'|e'|ms k]; cbn [Quantam.awaitFn now].
  - discriminate.
  - unfold Quantam.failAttempt. destruct (0 <? r); [|discriminate].
    destruct (Quantam.sleep _ _ _); discriminate.
  - intros [= <-]. rewrite settle_Wait. cbn [fst]. lia.
Qed.

Lemma started_latest fns :
  isLatest ctx (t + maxZ ((fun fn => fst (Quantam.settle ctx (fn input ctx))) <$> fns)) t
    (started <$> fns).
Proof.
  set (durs := (fun fn => fst (Quantam.settle ctx (fn input ctx))) <$> fns).
  pose proof (maxZ_nonneg durs) as Hnn.
  split; [lia|]. split.
  - intros task e Hin He. apply list_elem_of_fmap in Hin as (fn & -> & Hfn).
    apply started_finishTime in He as ->.
    assert (fst (Quantam.settle ctx (fn input ctx)) <= maxZ durs); [|lia].
    apply maxZ_bound. subst durs.
    now apply (list_elem_of_fmap_2 (fun fn => fst (Quantam.settle ctx (fn input ctx)))).
  - destruct (maxZ_attained durs) as [H0|Hin]; [left; lia|].
    subst durs. apply list_elem_of_fmap in Hin as (fn & Hmax & Hfn).
    destruct (finishTime ctx (started fn)) as [e|] eqn:He.
    + right. exists (started fn). split; [now apply list_elem_of_fmap_2|].
      rewrite He. apply started_finishTime in He as ->. f_equal. lia.
    + left. rewrite Hmax. unfold finishTime, startedTask in He. cbn [snd] in He.
      destruct (fn input ctx) as [v'|e'|ms k]; cbn in *; try lia. discriminate.
Qed.

End Started.

(** X19: A group whose member functions all return, with no timeout in
    effect and no cancellation at its start: every member is called exactly
    once, the group resolves with the values the members return, in the
    order of the array whatever the order in which they return, and it takes
    as long as its slowest member. *)
Theorem group_returns_in_member_order :
  forall fuel this fns input st r d stepT,
    0 <= r ->
    Quantam.aborted (signal (context st)) (now st) = false ->
    truthy (Quantam.effectiveTimeout this stepT) = false ->
    let ctx := set_retryCount 0 (context st) in
    (forall fn, fn ∈ fns -> exists v, snd (Quantam.settle ctx (fn input ctx)) = Resolved v) ->
    (resumptions ctx input fns <= fuel)%nat ->
    let out := Quantam.executeParallelSteps fuel this fns input st r d stepT in
    resultOf out = Resolved (VArr ((fun fn => outputOf fn ctx input) <$> fns)) /\
    invocations (traceOf out) = length fns /\
    now (stateOf out)
    = now st + maxZ ((fun fn => fst (Quantam.settle ctx (fn input ctx))) <$> fns).
Proof.
  intros fuel this fns input st r d stepT Hr Hab Hto ctx Hret Hfuel. cbn zeta.
  unfold Quantam.executeParallelSteps.
  destruct (startAll_first this input r d stepT fns Hr 0%nat st Hab) as (Htr & Hst & Htasks).
  destruct (Quantam.startAll _ _ _ _ _ _ _ _) as [[tr0 st1] tasks].
  unfold traceOf, stateOf, resultOf in *. cbn [fst snd] in *.
  rewrite Hto in Htasks. fold ctx in Htr, Hst, Htasks.
  destruct fns as [|fn0 fns].
  - subst. destruct fuel; cbn. 
    all: repeat split; lia.
  - set (fns' := fn0 :: fns) in *.
    change (tasks = startedTask input r d ctx (now st) <$> fns') in Htasks.
    destruct (groupLoop_returns this input r d stepT ctx fuel tasks st1
                ((fun fn => outputOf fn ctx input) <$> fns')
                (now st + maxZ ((fun fn => fst (Quantam.settle ctx (fn input ctx))) <$> fns')))
      as (tr1 & Hloop & Hinv).
    + now subst st1.
    + subst st1 tasks. cbn [now]. now apply started_returns.
    + subst st1 tasks. cbn [now]. apply started_latest.
    + subst tasks. now rewrite started_pending.
    + rewrite Hloop. cbn [fst snd now]. split; [reflexivity|]. split; [|reflexivity].
      rewrite invocations_app, Hinv, Htr, Nat.add_0_r.
      apply invocations_imap. reflexivity.
Qed.

(** Members that take 30 ms, no time and 10 ms: the second returns first
    and the first returns last; the values come in the order of the array,
    after 30 ms. *)
Lemma group_returns_in_member_order_witness :
  let out :=
    Quantam.executeParallelSteps 2 Quantam.quantam [after30; atOnce; after10] (VNum 1)
      (startState None 0) 0 100 None in
  resultOf out = Resolved (VArr [VStr "a"; VStr "b"; VStr "c"]) /\
  invocations (traceOf out) = 3%nat /\
  now (stateOf out) = 30.
Proof.
  apply (group_returns_in_member_order 2 Quantam.quantam [after30; atOnce; after10] (VNum 1)
           (startState None 0) 0 100 None).
  - lia.
  - reflexivity.
  - reflexivity.
  - intros fn Hfn. repeat (apply elem_of_cons in Hfn as [->|Hfn]); try (eexists; reflexivity).
    now apply elem_of_nil in Hfn.
  - cbn. lia.
Defined.

(** X20: A group without retries fails fast: when the call of member [j]
    throws at once, and no member before it does, the group rejects with
    that error (suffixed with the step name, if any) without waiting for
    anything, although every member has been called by then and the members
    that are still running are not stopped. *)
Theorem group_without_retries_fails_fast :
  forall fuel this fns input st d stepT (j : nat) fn e,
    Quantam.aborted (signal (context st)) (now st) = false ->
    let ctx := set_retryCount 0 (context st) in
    fns !! j = Some fn ->
    fn input ctx = Reject e ->
    (forall (i : nat) fn', (i < j)%nat -> fns !! i = Some fn' ->
                           forall e', fn' input ctx <> Reject e') ->
    Quantam.executeParallelSteps fuel this fns input st 0 d stepT
    = (firstCalls (context st) fns, {| now := now st; context := ctx |},
       Rejected (Quantam.afterLoop (Some e) ctx)).
Proof.
  intros fuel this fns input st d stepT j fn e Hab ctx Hj He Hbefore.
  unfold Quantam.executeParallelSteps.
  destruct (startAll_first this input 0 d stepT fns ltac:(lia) 0%nat st Hab)
    as (Htr & Hst & Htasks).
  destruct (Quantam.startAll _ _ _ _ _ _ _ _) as [[tr0 st1] tasks].
  unfold traceOf, stateOf, resultOf in *. cbn [fst snd] in *.
  fold ctx in Htr, Hst, Htasks.
  assert (st1 = {| now := now st; context := ctx |}) as ->.
  { rewrite Hst. destruct fns; [discriminate | reflexivity]. }
  set (dl := if truthy (Quantam.effectiveTimeout this stepT) then _ else None) in Htasks.
  assert (list_find (fun task => is_Some (Quantam.rejection task)) tasks
          = Some (j, (fn, Quantam.Finished (Rejected (Quantam.afterLoop (Some e) ctx)))))
    as Hfind.
  { apply list_find_Some. subst tasks. split; [|split].
    - rewrite list_lookup_fmap. unfold AsyncFn in *. rewrite Hj. cbn. rewrite He. reflexivity.
    - cbn. eauto.
    - intros i task Hi Hlt [x Hx].
      rewrite list_lookup_fmap in Hi. unfold AsyncFn in *.
      destruct (fns !! i) as [fn'|] eqn:Hfn'; [|discriminate]. cbn in Hi.
      injection Hi as <-. specialize (Hbefore i fn' Hlt Hfn').
      unfold Quantam.rejection in Hx. cbn [snd] in Hx.
      destruct (fn' input ctx) as [v'|e'|ms k]; cbn in Hx; try discriminate.
      now apply (Hbefore e'). }
  destruct fuel; cbn [Quantam.groupLoop]; rewrite Hfind; cbn;
    rewrite app_nil_r, Htr; reflexivity.
Qed.

(** A member of 50 ms followed by a member that throws at once: the group
    is rejected at instant 0, after both calls. *)
Lemma group_without_retries_fails_fast_witness :
  Quantam.executeParallelSteps 4 Quantam.quantam [readsLate; alwaysFails] (VNum 1)
    (stateNamed "load") 0 100 None
  = ([Invoked 0 0 (context (stateNamed "load")); Invoked 1 0 (context (stateNamed "load"))],
     stateNamed "load", Rejected (mkError "boom (at step 'load')")).
Proof.
  apply (group_without_retries_fails_fast 4 Quantam.quantam [readsLate; alwaysFails] (VNum 1)
           (stateNamed "load") 100 None 1 alwaysFails (mkError "boom")); try reflexivity.
  intros i fn' Hi Hfn' e'. destruct i as [|i]; [|lia].
  injection Hfn' as <-. discriminate.
Defined.

(** *** Retries within a group *)

Lemma invocationsOf_firstCalls c (fns : list AsyncFn) :
  forall (m j : nat),
    invocationsOf j (imap (fun i _ => Invoked (m + i) 0 c) fns)
    = if decide (m <= j < m + length fns)%nat then 1%nat else 0%nat.
Proof.
  induction fns as [|fn fns IH]; intros m j.
  - cbn. destruct (decide _); [lia | reflexivity].
  - rewrite imap_cons.
    rewrite (imap_ext _ (fun i _ => Invoked (S m + i) 0 c)) by (intros i x _; cbn; f_equal; lia).
    unfold invocationsOf in *. cbn [List.filter isInvokedBy length].
    rewrite Nat.add_0_r. specialize (IH (S m) j).
    destruct (Nat.eqb_spec m j) as [->|Hne]; cbn [length]; rewrite IH;
      repeat destruct (decide _); lia.
Qed.

(** X29: Retries are made member by member. A member of a group whose call
    returns at once is called exactly once, however often the other members
    of the group fail and are retried. *)
Theorem member_that_returns_at_once_is_called_once :
  forall fuel this fns input st r d stepT (j : nat) fn v,
    0 <= r ->
    Quantam.aborted (signal (context st)) (now st) = false ->
    fns !! j = Some fn ->
    fn input (set_retryCount 0 (context st)) = Resolve v ->
    invocationsOf j (traceOf (Quantam.executeParallelSteps fuel this fns input st r d stepT))
    = 1%nat.
Proof.
  intros fuel this fns input st r d stepT j fn v Hr Hab Hj Hv.
  unfold Quantam.executeParallelSteps.
  destruct (startAll_first this input r d stepT fns Hr 0%nat st Hab) as (Htr & _ & Htasks).
  destruct (startAll_calls this input r d stepT fns 0%nat st j) as (Hrange & _ & _).
  destruct (Quantam.startAll _ _ _ _ _ _ _ _) as [[tr0 st1] tasks].
  pose proof (groupLoop_calls this input r d stepT fuel tasks st1 j Hrange) as Hloop.
  destruct (Quantam.groupLoop _ _ _ _ _ _ _ _) as [[tr1 st2] res].
  unfold traceOf, stateOf, resultOf in *. cbn [fst snd] in *.
  rewrite invocationsOf_app, Htr, invocationsOf_firstCalls.
  pose proof (lookup_lt_Some _ _ _ Hj) as Hlen. unfold AsyncFn in *.
  destruct (decide _) as [_|?]; [|lia].
  assert (leftOf r tasks j = 0) as Hleft.
  { unfold leftOf. rewrite Htasks, list_lookup_fmap. unfold AsyncFn in *.
    rewrite Hj. cbn. now rewrite Hv. }
  rewrite Hleft in Hloop. lia.
Qed.

(** The group [failsOnce, atOnce] under [retry(2, 10)]: the first member
    is retried, the second is called once. *)
Lemma member_that_returns_at_once_is_called_once_witness :
  invocationsOf 1
    (traceOf (Quantam.executeParallelSteps 4 Quantam.quantam [failsOnce; atOnce] (VNum 1)
                (startState None 0) 2 10 None))
  = 1%nat.
Proof.
  apply (member_that_returns_at_once_is_called_once 4 Quantam.quantam [failsOnce; atOnce]
           (VNum 1) (startState None 0) 2 10 None 1 atOnce (VStr "b")); try reflexivity.
  lia.
Defined.

(** ** Further properties of the batch scheduler *)

Section BatchOutcome.
Variable runOf : nat -> value -> Settled value.
Variable inputs : list value.

(** *** The unbounded branch *)

Lemma firstRejection_none rounds sched :
  forall t waiting,
    Forall (fun p : Settled value => forall e, p <> Rejected e) waiting ->
    Quantam.firstRejection rounds sched t waiting = None.
Proof.
  induction rounds as [|rounds IH]; intros t waiting Hall; [reflexivity|].
  cbn [Quantam.firstRejection].
  destruct (waiting !! _) as [[v|e|]|] eqn:Hj;
    try (apply IH; now apply Forall_delete).
  rewrite Forall_forall in Hall.
  now destruct (Hall _ (list_elem_of_lookup_2 _ _ _ Hj) e).
Qed.

Lemma firstRejection_elem rounds sched :
  forall t waiting e,
    Quantam.firstRejection rounds sched t waiting = Some e -> Rejected e ∈ waiting.
Proof.
  induction rounds as [|rounds IH]; intros t waiting e H; [discriminate|].
  cbn [Quantam.firstRejection] in H.
  destruct (waiting !! _) as [[v|e'|]|] eqn:Hj;
    try (apply IH in H; now apply list_elem_of_delete_inv in H).
  injection H as <-. now apply list_elem_of_lookup_2 in Hj.
Qed.

Lemma firstRejection_finds rounds sched :
  forall t waiting e,
    (length waiting <= rounds)%nat ->
    Rejected e ∈ waiting ->
    is_Some (Quantam.firstRejection rounds sched t waiting).
Proof.
  induction rounds as [|rounds IH]; intros t waiting e Hlen Hin.
  - destruct waiting; [now apply elem_of_nil in Hin | cbn in Hlen; lia].
  - cbn [Quantam.firstRejection].
    assert (0 < length waiting)%nat as Hpos
      by (destruct waiting; [now apply elem_of_nil in Hin | cbn; lia]).
    set (j := (sched t mod length waiting)%nat).
    assert (j < length waiting)%nat as Hj by (apply Nat.mod_upper_bound; lia).
    destruct (lookup_lt_is_Some_2 waiting j Hj) as [p Hp]. rewrite Hp.
    assert (p = Rejected e \/ Rejected e ∈ delete j waiting) as [->|Hin'].
    { apply list_elem_of_lookup_1 in Hin as [i Hi].
      destruct (decide (i = j)) as [->|Hne]; [left; congruence|].
      right. apply list_elem_of_lookup.
      destruct (decide (i < j)%nat).
      - exists i. now rewrite list_lookup_delete_lt.
      - exists (i - 1)%nat. rewrite list_lookup_delete_ge by lia.
        now replace (S (i - 1)) with i by lia. }
    + eauto.
    + assert (is_Some (Quantam.firstRejection rounds sched (S t) (delete j waiting))) as Hrec.
      { apply (IH _ _ e); [|assumption]. rewrite length_delete by eauto. lia. }
      destruct p; eauto.
Qed.

Lemma promiseAll_resolves sched promises vs :
  Forall2 (fun (p : Settled value) v => p = Resolved v) promises vs ->
  Quantam.promiseAll sched promises = Resolved vs.
Proof.
  intros H. unfold Quantam.promiseAll.
  rewrite firstRejection_none.
  - rewrite (mapM_Some_2 _ promises vs); [reflexivity|].
    eapply Forall2_impl; [exact H|]. cbn. now intros p v ->.
  - apply Forall_forall. intros p Hp e ->.
    apply list_elem_of_filter in Hp as [_ Hp].
    apply list_elem_of_lookup_1 in Hp as [i Hi].
    destruct (Forall2_lookup_l _ _ _ _ _ H Hi) as (v & _ & Hv). discriminate.
Qed.

Lemma promiseAll_rejected sched promises e :
  Quantam.promiseAll sched promises = Rejected e -> Rejected e ∈ promises.
Proof.
  unfold Quantam.promiseAll.
  destruct (Quantam.firstRejection _ _ _ _) as [e'|] eqn:Hf.
  - intros [= <-]. apply firstRejection_elem in Hf.
    now apply list_elem_of_filter in Hf as [_ Hf].
  - destruct (mapM _ _); discriminate.
Qed.

Lemma promiseAll_rejects sched promises e :
  Rejected e ∈ promises -> exists e', Quantam.promiseAll sched promises = Rejected e'.
Proof.
  intros Hin. unfold Quantam.promiseAll.
  destruct (firstRejection_finds (length (filter Quantam.settles promises)) sched 0%nat
              (filter Quantam.settles promises) e) as [e' He'].
  - lia.
  - apply list_elem_of_filter. split; [exact I | assumption].
  - rewrite He'. eauto.
Qed.

Lemma runs_resolved :
  (forall i x, inputs !! i = Some x -> exists v, runOf i x = Resolved v) ->
  Forall2 (fun (p : Settled value) v => p = Resolved v)
    (imap runOf inputs) (imap (valueOfRun runOf) inputs).
Proof.
  intros Hall. apply Forall2_same_length_lookup. split; [now rewrite !length_imap|].
  intros i p v Hp Hv. rewrite list_lookup_imap in Hp. rewrite list_lookup_imap in Hv.
  destruct (inputs !! i) as [x|] eqn:Hx; [|discriminate].
  cbn in Hp, Hv. injection Hp as <-. injection Hv as <-.
  destruct (Hall i x Hx) as [v Hv]. unfold valueOfRun. now rewrite Hv.
Qed.

(** *** The worker pool when runs may reject *)

Lemma failedByRun_spawn p :
  failedByRun runOf inputs p -> failedByRun runOf inputs (Quantam.spawn inputs p).
Proof.
  unfold failedByRun, Quantam.spawn, Quantam.enter.
  now destruct (length inputs <=? Quantam.index p)%nat.
Qed.

Lemma failedByRun_startWorkers n : failedByRun runOf inputs (Quantam.startWorkers inputs n).
Proof.
  unfold Quantam.startWorkers. induction n as [|n IH].
  - intros e H. discriminate.
  - rewrite Nat.iter_succ. now apply failedByRun_spawn.
Qed.

Lemma failedByRun_settleRun w p :
  poolInv runOf inputs p ->
  failedByRun runOf inputs p -> failedByRun runOf inputs (Quantam.settleRun runOf inputs w p).
Proof.
  intros Hinv Hf. unfold Quantam.settleRun.
  destruct (Quantam.workers p !! w) as [[i| |]|] eqn:Hw; try assumption.
  destruct (inv_running _ _ _ Hinv w i Hw) as [Hi _].
  destruct (lookup_lt_is_Some_2 inputs i ltac:(lia)) as [x Hx]. rewrite Hx.
  replace (default VUndefined (Some x)) with x by reflexivity.
  destruct (runOf i x) as [v|e|] eqn:Hr; try assumption.
  - unfold Quantam.enter. cbn [Quantam.index].
    destruct (length inputs <=? Quantam.index p)%nat; exact Hf.
  - intros e' He'. cbn [Quantam.failed] in He'.
    destruct (Quantam.failed p) as [e0|] eqn:Hf0.
    + injection He' as <-. now apply Hf.
    + injection He' as <-. eauto.
Qed.

Lemma failedByRun_drain k :
  forall sched t p,
    poolInv runOf inputs p ->
    failedByRun runOf inputs p ->
    failedByRun runOf inputs (Quantam.drain runOf inputs k sched t p).
Proof.
  induction k as [|k IH]; intros sched t p Hinv Hf; cbn [Quantam.drain]; [assumption|].
  destruct (Quantam.pick (sched t) p); [|assumption].
  apply IH; [now apply poolInv_settleRun | now apply failedByRun_settleRun].
Qed.

(** A settlement takes one run off the runs that have not settled. *)
Lemma settleRun_unsettled w p i :
  poolInv runOf inputs p ->
  Quantam.workers p !! w = Some (Quantam.Running i) ->
  (forall x, inputs !! i = Some x -> runOf i x <> Pending) ->
  S (unsettled inputs (Quantam.settleRun runOf inputs w p)) = unsettled inputs p.
Proof.
  intros Hinv Hw Hsettles.
  destruct (inv_running _ _ _ Hinv w i Hw) as [Hi _].
  destruct (lookup_lt_is_Some_2 inputs i ltac:(lia)) as [x Hx].
  specialize (Hsettles x Hx).
  unfold Quantam.settleRun, Quantam.enter, unsettled. rewrite Hw, Hx.
  replace (default VUndefined (Some x)) with x by reflexivity.
  unfold Quantam.inFlight.
  destruct (runOf i x) as [v|e|]; [| |contradiction].
  - cbn [Quantam.index].
    destruct (Nat.leb_spec (length inputs) (Quantam.index p));
      cbn [Quantam.index Quantam.workers].
    + pose proof (runningFrom_insert 0%nat _ w _ Quantam.Returned Hw) as Hcount.
      cbn [isRunning] in Hcount. lia.
    + pose proof (runningFrom_insert 0%nat _ w _
                    (Quantam.Running (Quantam.index p)) Hw) as Hcount.
      cbn [isRunning] in Hcount. lia.
  - cbn [Quantam.index Quantam.workers].
    pose proof (runningFrom_insert 0%nat _ w _ Quantam.Thrown Hw) as Hcount.
    cbn [isRunning] in Hcount. lia.
Qed.

(** When every run settles, the pool comes to rest: after as many
    settlements as there were runs left, no worker is awaiting a run. *)
Lemma drain_quiesces k :
  forall sched t p,
    poolInv runOf inputs p ->
    (forall i x, inputs !! i = Some x -> runOf i x <> Pending) ->
    (unsettled inputs p <= k)%nat ->
    Quantam.inFlight (Quantam.drain runOf inputs k sched t p) = 0%nat.
Proof.
  induction k as [|k IH]; intros sched t p Hinv Hall Hk; cbn [Quantam.drain].
  - unfold unsettled in Hk. lia.
  - destruct (Quantam.pick (sched t) p) as [w|] eqn:Hpick.
    + destruct (pick_running _ _ _ Hpick) as [i Hw].
      apply IH; [now apply poolInv_settleRun | assumption|].
      pose proof (settleRun_unsettled w p i Hinv Hw (Hall i)). lia.
    + destruct (Nat.eq_dec (Quantam.inFlight p) 0%nat) as [Hz|Hnz]; [assumption|].
      destruct (pick_some (sched t) p ltac:(lia)) as [w Hw]. congruence.
Qed.

Lemma collect_settles p :
  poolInv runOf inputs p ->
  Quantam.inFlight p = 0%nat ->
  Quantam.collect p <> Pending.
Proof.
  intros Hinv Hz. destruct (Quantam.failed p) as [e|] eqn:Hf.
  - unfold Quantam.collect. now rewrite Hf.
  - now rewrite (collect_complete runOf inputs p Hinv Hf Hz).
Qed.

Lemma startWorkers_unsettled n :
  (n <= length inputs)%nat -> unsettled inputs (Quantam.startWorkers inputs n) = length inputs.
Proof.
  intros Hn. destruct (startWorkers_index inputs n Hn) as (Hi & _ & Hr).
  unfold unsettled. rewrite Hi, Hr. lia.
Qed.

(** *** The three branches of [runMany] *)

Lemma batch_cases conc sched :
  (inputs = [] /\ Quantam.batch runOf inputs conc sched = Resolved []) \/
  (inputs <> [] /\
   Quantam.batch runOf inputs conc sched = Quantam.promiseAll sched (imap runOf inputs)) \/
  (exists C, conc = Some C /\ 0 < C < Z.of_nat (length inputs) /\
             Quantam.batch runOf inputs conc sched
             = Quantam.collect (poolAfter runOf inputs C sched (length inputs))).
Proof.
  unfold Quantam.batch.
  destruct inputs as [|x xs] eqn:Hin; [left; split; reflexivity|].
  rewrite <- Hin. replace (length inputs =? 0)%nat with false
    by (subst; reflexivity).
  destruct conc as [C|].
  - destruct (Z.leb_spec C 0); [right; left; split; [now subst | reflexivity]|].
    destruct (Z.leb_spec (Z.of_nat (length inputs)) C);
      [right; left; split; [now subst | reflexivity]|].
    right. right. exists C. repeat split; try lia. 
  - right. left. split; [now subst|].
    rewrite Z.leb_refl, orb_true_r. reflexivity.
Qed.

Lemma batch_resolves conc sched :
  (forall i x, inputs !! i = Some x -> exists v, runOf i x = Resolved v) ->
  Quantam.batch runOf inputs conc sched = Resolved (imap (valueOfRun runOf) inputs).
Proof.
  intros Hall.
  destruct (batch_cases conc sched) as [[Hin ->]|[[_ ->]|(C & _ & HC & ->)]].
  - now rewrite Hin.
  - apply promiseAll_resolves, runs_resolved, Hall.
  - pose proof (poolInv_poolAfter runOf inputs C sched (length inputs)) as Hinv.
    pose proof (startWorkers_index inputs (Z.to_nat (Z.min C (Z.of_nat (length inputs))))
                  ltac:(lia)) as (Hi & Hf & Hr).
    destruct (drain_completes runOf inputs (length inputs) sched 0
                (Quantam.startWorkers inputs (Z.to_nat (Z.min C (Z.of_nat (length inputs))))))
      as [Hf' Hz]; try assumption.
    + apply poolInv_startWorkers.
    + rewrite startWorkers_workers. lia.
    + rewrite Hi, Hr. lia.
    + fold (poolAfter runOf inputs C sched (length inputs)) in Hf', Hz.
      pose proof (collect_complete runOf inputs _ Hinv Hf' Hz) as Hc.
      destruct (collect_resolved runOf inputs _ _ Hinv
                  ltac:(rewrite poolAfter_workers by assumption; lia) Hc)
        as (_ & Hlen & Hat).
      rewrite Hc. f_equal. apply list_eq. intros i. rewrite list_lookup_imap.
      destruct (inputs !! i) as [x|] eqn:Hx.
      * destruct (Hat i x Hx) as (v & -> & Hv). cbn. unfold valueOfRun. now rewrite Hv.
      * cbn. apply lookup_ge_None_2. apply lookup_ge_None_1 in Hx. lia.
Qed.

Lemma batch_rejected conc sched e :
  Quantam.batch runOf inputs conc sched = Rejected e ->
  exists i x, inputs !! i = Some x /\ runOf i x = Rejected e.
Proof.
  destruct (batch_cases conc sched) as [[Hin ->]|[[_ ->]|(C & _ & HC & ->)]].
  - discriminate.
  - intros H. apply promiseAll_rejected in H.
    apply elem_of_lookup_imap_1 in H as (i & x & Hr & Hx). eauto.
  - intros H.
    assert (failedByRun runOf inputs (poolAfter runOf inputs C sched (length inputs))) as Hf
      by (apply failedByRun_drain; [apply poolInv_startWorkers | apply failedByRun_startWorkers]).
    apply Hf. unfold Quantam.collect in H.
    destruct (Quantam.failed _) as [e'|]; [congruence|].
    destruct (forallb _ _); discriminate.
Qed.

Lemma batch_rejects conc sched i x e :
  (forall j y, inputs !! j = Some y -> runOf j y <> Pending) ->
  inputs !! i = Some x -> runOf i x = Rejected e ->
  exists e', Quantam.batch runOf inputs conc sched = Rejected e'.
Proof.
  intros Hall Hx He.
  destruct (batch_cases conc sched) as [[Hin ->]|[[_ ->]|(C & _ & HC & ->)]].
  - rewrite Hin in Hx. discriminate.
  - apply (promiseAll_rejects sched _ e). rewrite <- He.
    now apply (elem_of_lookup_imap_2 runOf).
  - pose proof (poolInv_poolAfter runOf inputs C sched (length inputs)) as Hinv.
    assert (Quantam.inFlight (poolAfter runOf inputs C sched (length inputs)) = 0%nat) as Hz.
    { apply drain_quiesces; [apply poolInv_startWorkers | assumption|].
      rewrite startWorkers_unsettled; lia. }
    destruct (Quantam.collect _) as [rs|e'|] eqn:Hc.
    + destruct (collect_resolved runOf inputs _ _ Hinv
                  ltac:(rewrite poolAfter_workers by assumption; lia) Hc)
        as (_ & _ & Hat).
      destruct (Hat i x Hx) as (v & _ & Hv). congruence.
    + eauto.
    + now destruct (collect_settles _ Hinv Hz).
Qed.

End BatchOutcome.

(** X22: When every run of a batch resolves, [runMany] resolves with the
    values of the runs in the order of the inputs, whatever the concurrency
    option is (absent, zero or negative, at least the number of inputs, or a
    real bound), whenever the runs are started and in whatever order they
    settle; an empty batch resolves with the empty array. *)
Theorem runMany_resolves_in_input_order :
  forall fuel (h : list Step.t) this inputs options starts sched,
    let runOf := runOfFlow fuel h this options starts in
    (forall i x, inputs !! i = Some x -> exists v, runOf i x = Resolved v) ->
    Quantam.runMany fuel h this inputs options starts sched
    = Resolved (imap (valueOfRun runOf) inputs).
Proof.
  intros fuel h this inputs options starts sched runOf Hall.
  unfold Quantam.runMany. now apply (batch_resolves runOf).
Qed.

(** The sixteen inputs of the repository's test without a concurrency
    limit. *)
Lemma runMany_resolves_in_input_order_witness :
  Quantam.runMany 0 (snd flowA) (fst flowA) sixteen noLimit someStarts someOrder
  = Resolved ((fun n => VNum (Z.of_nat n + 1)) <$> seq 0 16).
Proof.
  apply (runMany_resolves_in_input_order 0 (snd flowA) (fst flowA) sixteen noLimit
           someStarts someOrder).
  intros i x Hx. unfold sixteen in Hx. rewrite list_lookup_fmap in Hx.
  destruct (seq 0 16 !! i) as [n|]; [|discriminate]. injection Hx as <-.
  eexists. reflexivity.
Defined.

(** X23: When [runMany] rejects, whatever the concurrency option is, its
    error is the error one of the runs of the batch rejected with. *)
Theorem runMany_rejects_with_the_error_of_a_run :
  forall fuel (h : list Step.t) this inputs options starts sched e,
    let runOf := runOfFlow fuel h this options starts in
    Quantam.runMany fuel h this inputs options starts sched = Rejected e ->
    exists i x, inputs !! i = Some x /\ runOf i x = Rejected e.
Proof.
  intros fuel h this inputs options starts sched e runOf.
  unfold Quantam.runMany. apply (batch_rejected runOf).
Qed.

(** [n => n + 1] over a batch whose second entry is not a number, two
    workers. *)
Lemma runMany_rejects_with_the_error_of_a_run_witness :
  exists i x,
    mixedInputs !! i = Some x /\
    runOfFlow 0 (snd flowA) (fst flowA) twoWorkers someStarts i x
    = Rejected (mkError "not a number").
Proof.
  apply (runMany_rejects_with_the_error_of_a_run 0 (snd flowA) (fst flowA) mixedInputs
           twoWorkers someStarts someOrder (mkError "not a number")).
  reflexivity.
Defined.

(** X24: When every run of a batch settles and one of them rejects,
    [runMany] rejects, whatever the concurrency option is and in whatever
    order the runs settle. *)
Theorem runMany_rejects_when_a_run_rejects :
  forall fuel (h : list Step.t) this inputs options starts sched (i : nat) x e,
    let runOf := runOfFlow fuel h this options starts in
    (forall j y, inputs !! j = Some y -> runOf j y <> Pending) ->
    inputs !! i = Some x -> runOf i x = Rejected e ->
    exists e', Quantam.runMany fuel h this inputs options starts sched = Rejected e'.
Proof.
  intros fuel h this inputs options starts sched i x e runOf.
  unfold Quantam.runMany. apply (batch_rejects runOf).
Qed.

Lemma runMany_rejects_when_a_run_rejects_witness :
  exists e',
    Quantam.runMany 0 (snd flowA) (fst flowA) mixedInputs twoWorkers someStarts someOrder
    = Rejected e'.
Proof.
  apply (runMany_rejects_when_a_run_rejects 0 (snd flowA) (fst flowA) mixedInputs
           twoWorkers someStarts someOrder 1 (VStr "x") (mkError "not a number")).
  - intros j y Hy.
    destruct j as [|[|[|j]]]; try discriminate; injection Hy as <-; discriminate.
  - reflexivity.
  - reflexivity.
Defined.

(** *** The start of the pool, and the pool after a rejection *)

Section PoolFacts.
Variable runOf : nat -> value -> Settled value.
Variable inputs : list value.

Lemma startWorkers_state n :
  (n <= length inputs)%nat ->
  let p := Quantam.startWorkers inputs n in
  Quantam.claimed p = (fun w => (w, w)) <$> seq 0 n /\
  Quantam.workers p = Quantam.Running <$> seq 0 n /\
  Quantam.index p = n /\
  Quantam.settled p = [] /\
  Quantam.results p = replicate (length inputs) None /\
  Quantam.failed p = None.
Proof.
  cbn zeta. unfold Quantam.startWorkers. induction n as [|n IH]; intros Hn.
  - repeat split.
  - destruct IH as (Hc & Hw & Hi & Hs & Hr & Hf); [lia|]. rewrite Nat.iter_succ.
    set (p := Nat.iter n _ _) in *.
    unfold Quantam.spawn, Quantam.enter. rewrite Hi.
    destruct (Nat.leb_spec (length inputs) n); [lia|].
    cbn [Quantam.index Quantam.failed Quantam.workers Quantam.claimed Quantam.settled
         Quantam.results].
    rewrite Hc, Hw, length_fmap, length_seq, seq_S, !fmap_app. repeat split; assumption.
Qed.

Lemma thrownByRun_spawn p :
  thrownByRun runOf inputs p -> thrownByRun runOf inputs (Quantam.spawn inputs p).
Proof.
  intros H w Hw. unfold Quantam.spawn, Quantam.enter in *.
  destruct (length inputs <=? Quantam.index p)%nat;
    cbn [Quantam.workers Quantam.claimed] in *;
    (apply lookup_app_Some in Hw as [Hw|[_ Hw]];
     [|apply list_lookup_singleton_Some in Hw as [_ Hw]; discriminate]);
    destruct (H w Hw) as (i & x & e & Hin & Hx & He); exists i, x, e;
    repeat split; try assumption.
  apply elem_of_app. now left.
Qed.

Lemma thrownByRun_startWorkers n : thrownByRun runOf inputs (Quantam.startWorkers inputs n).
Proof.
  unfold Quantam.startWorkers. induction n as [|n IH].
  - intros w Hw. discriminate.
  - rewrite Nat.iter_succ. now apply thrownByRun_spawn.
Qed.

Lemma thrownByRun_settleRun w p :
  poolInv runOf inputs p ->
  thrownByRun runOf inputs p -> thrownByRun runOf inputs (Quantam.settleRun runOf inputs w p).
Proof.
  intros Hinv H. unfold Quantam.settleRun.
  destruct (Quantam.workers p !! w) as [[i| |]|] eqn:Hw; try assumption.
  destruct (inv_running _ _ _ Hinv w i Hw) as [Hi Hcl].
  destruct (lookup_lt_is_Some_2 inputs i ltac:(lia)) as [x Hx]. rewrite Hx.
  replace (default VUndefined (Some x)) with x by reflexivity.
  pose proof (lookup_lt_Some _ _ _ Hw) as Hlen.
  destruct (runOf i x) as [v|e|] eqn:Hr; try assumption.
  - unfold Quantam.enter. cbn [Quantam.index].
    destruct (length inputs <=? Quantam.index p)%nat;
      cbn [Quantam.workers Quantam.claimed];
      intros w' Hw';
      (apply list_lookup_insert_Some in Hw' as [(_ & Heq & _)|[_ Hw']]; [discriminate|]);
      destruct (H w' Hw') as (i' & x' & e' & Hin & Hx' & He'); exists i', x', e';
      repeat split; try assumption.
    apply elem_of_app. now left.
  - cbn [Quantam.workers Quantam.claimed]. intros w' Hw'.
    apply list_lookup_insert_Some in Hw' as [(<- & _ & _)|[_ Hw']]; [|now apply H].
    exists i, x, e. repeat split; assumption.
Qed.

Lemma thrownByRun_drain k :
  forall sched t p,
    poolInv runOf inputs p ->
    thrownByRun runOf inputs p ->
    thrownByRun runOf inputs (Quantam.drain runOf inputs k sched t p).
Proof.
  induction k as [|k IH]; intros sched t p Hinv Hf; cbn [Quantam.drain]; [assumption|].
  destruct (Quantam.pick (sched t) p); [|assumption].
  apply IH; [now apply poolInv_settleRun | now apply thrownByRun_settleRun].
Qed.

Lemma claimed_once (l : list (nat * nat)) :
  NoDup l.*2 -> forall a b i, (a, i) ∈ l -> (b, i) ∈ l -> a = b.
Proof.
  induction l as [|[c j] l IH]; intros Hnd a b i Ha Hb; [now apply elem_of_nil in Ha|].
  cbn in Hnd. apply NoDup_cons in Hnd as [Hj Hnd].
  apply elem_of_cons in Ha as [Ha|Ha], Hb as [Hb|Hb].
  - congruence.
  - injection Ha as -> ->. destruct Hj.
    apply list_elem_of_fmap. exists (b, j). split; [reflexivity | assumption].
  - injection Hb as -> ->. destruct Hj.
    apply list_elem_of_fmap. exists (a, j). split; [reflexivity | assumption].
  - eauto.
Qed.

(** With at least two workers and runs that all settle, at most one of
    them by a rejection, the pool at rest has claimed every entry. *)
Lemma pool_runs_every_entry C sched :
  1 < C < Z.of_nat (length inputs) ->
  (forall i x, inputs !! i = Some x -> runOf i x <> Pending) ->
  (forall i j x y e e', inputs !! i = Some x -> inputs !! j = Some y ->
                        runOf i x = Rejected e -> runOf j y = Rejected e' -> i = j) ->
  let p := poolAfter runOf inputs C sched (length inputs) in
  (Quantam.claimed p).*2 = seq 0 (length inputs) /\
  length (Quantam.settled p) = length inputs.
Proof.
  intros HC Hall Hone p.
  pose proof (poolInv_poolAfter runOf inputs C sched (length inputs)) as Hinv. fold p in Hinv.
  assert (Quantam.inFlight p = 0%nat) as Hz.
  { apply drain_quiesces; [apply poolInv_startWorkers | assumption|].
    rewrite startWorkers_unsettled; lia. }
  assert (thrownByRun runOf inputs p) as Hthrown
    by (apply thrownByRun_drain; [apply poolInv_startWorkers | apply thrownByRun_startWorkers]).
  assert (length (Quantam.workers p) = Z.to_nat C) as Hlen
    by (apply poolAfter_workers; lia).
  assert (exists w, Quantam.workers p !! w = Some Quantam.Returned) as [w Hw].
  { destruct (lookup_lt_is_Some_2 (Quantam.workers p) 0%nat ltac:(lia)) as [wk0 H0].
    destruct (lookup_lt_is_Some_2 (Quantam.workers p) 1%nat ltac:(lia)) as [wk1 H1].
    pose proof (inFlight_zero _ _ _ Hz H0) as Hr0.
    pose proof (inFlight_zero _ _ _ Hz H1) as Hr1.
    destruct wk0 as [?| |]; [discriminate | eauto|].
    destruct wk1 as [?| |]; [discriminate | eauto|].
    destruct (Hthrown _ H0) as (i & x & e & Hin & Hx & He).
    destruct (Hthrown _ H1) as (j & y & e' & Hin' & Hy & He').
    pose proof (Hone i j x y e e' Hx Hy He He') as <-.
    assert (NoDup (Quantam.claimed p).*2) as Hnd
      by (rewrite (inv_claimed _ _ _ Hinv); apply NoDup_seq).
    pose proof (claimed_once _ Hnd _ _ _ Hin Hin'). discriminate. }
  pose proof (inv_returned _ _ _ Hinv w Hw) as Hidx.
  assert ((Quantam.claimed p).*2 = seq 0 (length inputs)) as Hcl
    by (rewrite (inv_claimed _ _ _ Hinv); f_equal; lia).
  split; [assumption|].
  pose proof (inv_logs _ _ _ Hinv) as Hlogs. rewrite Hz in Hlogs.
  rewrite <- (length_fmap snd), Hcl, length_seq in Hlogs. lia.
Qed.

End PoolFacts.

(** X25: With a concurrency [C] below the number of inputs, [runMany]
    creates [C] workers, and before it awaits anything worker [w] has
    started the run of [inputs[w]]: the first [C] entries are in flight,
    nothing else is, and nothing has been stored yet. *)
Theorem pool_starts_with_the_first_inputs :
  forall (runOf : nat -> value -> Settled value) inputs C sched,
    0 < C < Z.of_nat (length inputs) ->
    let p := poolAfter runOf inputs C sched 0 in
    Quantam.claimed p = (fun w => (w, w)) <$> seq 0 (Z.to_nat C) /\
    Quantam.workers p = Quantam.Running <$> seq 0 (Z.to_nat C) /\
    Quantam.index p = Z.to_nat C /\
    Quantam.settled p = [] /\
    Quantam.results p = replicate (length inputs) None.
Proof.
  intros runOf inputs C sched HC p. subst p. unfold poolAfter. cbn [Quantam.drain].
  replace (Z.min C (Z.of_nat (length inputs))) with C by lia.
  destruct (startWorkers_state inputs (Z.to_nat C) ltac:(lia)) as (H1 & H2 & H3 & H4 & H5 & _).
  repeat split; assumption.
Qed.

(** Sixteen inputs, four workers: entries 0 to 3 are started at once. *)
Lemma pool_starts_with_the_first_inputs_witness :
  let p := poolAfter (runOfFlow 0 (snd flowA) (fst flowA) fourWorkers someStarts)
             sixteen 4 someOrder 0 in
  Quantam.claimed p = [(0, 0); (1, 1); (2, 2); (3, 3)]%nat /\
  Quantam.workers p = Quantam.Running <$> [0; 1; 2; 3]%nat /\
  Quantam.index p = 4%nat /\
  Quantam.settled p = [] /\
  Quantam.results p = replicate 16 None.
Proof.
  apply (pool_starts_with_the_first_inputs
           (runOfFlow 0 (snd flowA) (fst flowA) fourWorkers someStarts) sixteen 4 someOrder).
  cbn. lia.
Defined.

(** X26: A rejected run does not stop the batch. With at least two workers,
    runs that all settle and at most one entry whose run rejects, the
    workers that are left go on claiming entries: when the pool is at rest
    every entry has been claimed, once, and every run has been awaited to
    its end, although [runMany] rejects as soon as the one run does. *)
Theorem batch_goes_on_after_a_rejection :
  forall fuel (h : list Step.t) this inputs options C starts sched,
    options ≫= concurrency = Some C ->
    1 < C < Z.of_nat (length inputs) ->
    let runOf := runOfFlow fuel h this options starts in
    (forall i x, inputs !! i = Some x -> runOf i x <> Pending) ->
    (forall i j x y e e', inputs !! i = Some x -> inputs !! j = Some y ->
                          runOf i x = Rejected e -> runOf j y = Rejected e' -> i = j) ->
    let p := poolAfter runOf inputs C sched (length inputs) in
    Quantam.runMany fuel h this inputs options starts sched = Quantam.collect p /\
    (Quantam.claimed p).*2 = seq 0 (length inputs) /\
    length (Quantam.settled p) = length inputs.
Proof.
  intros fuel h this inputs options C starts sched Hopt HC runOf Hall Hone p.
  split.
  - unfold Quantam.runMany. rewrite Hopt. apply batch_pool. lia.
  - now apply pool_runs_every_entry.
Qed.

(** The batch whose second entry is not a number, with two workers: it is
    rejected, and all three entries have been run. *)
Lemma batch_goes_on_after_a_rejection_witness :
  let p := poolAfter (runOfFlow 0 (snd flowA) (fst flowA) twoWorkers someStarts)
             mixedInputs 2 someOrder (length mixedInputs) in
  Quantam.runMany 0 (snd flowA) (fst flowA) mixedInputs twoWorkers someStarts someOrder
  = Quantam.collect p /\
  (Quantam.claimed p).*2 = seq 0 (length mixedInputs) /\
  length (Quantam.settled p) = length mixedInputs.
Proof.
  apply (batch_goes_on_after_a_rejection 0 (snd flowA) (fst flowA) mixedInputs twoWorkers 2
           someStarts someOrder).
  - reflexivity.
  - cbn. lia.
  - intros j y Hy.
    destruct j as [|[|[|j]]]; try discriminate; injection Hy as <-; discriminate.
  - intros i j x y e e' Hx Hy He He'.
    destruct i as [|[|[|i]]]; try discriminate; injection Hx as <-; try discriminate;
      destruct j as [|[|[|j]]]; try discriminate; injection Hy as <-; try discriminate.
    reflexivity.
Defined.

(** *** Batches under a signal that is aborted *)

(** X28: [runMany] hands its options to every run. When the signal of the
    options (or, without one, the signal bound to the flow) is aborted by
    the time the runs are started, no step function is called for any entry:
    a batch over a flow with steps rejects with [Pipeline aborted], a batch
    over a flow without steps resolves with its inputs, and an empty batch
    resolves with the empty array, whatever the concurrency option is. *)
Theorem runMany_under_an_aborted_signal :
  forall fuel (h : list Step.t) this inputs options starts sched,
    (forall i, Quantam.aborted (runSignal this (flowOptions <$> options)) (starts i) = true) ->
    Quantam.runMany fuel h this inputs options starts sched
    = match inputs, Quantam.steps this with
      | [], _ => Resolved []
      | _ :: _, [] => Resolved inputs
      | _ :: _, _ :: _ => Rejected pipelineAborted
      end.
Proof.
  intros fuel h this inputs options starts sched Hab.
  unfold Quantam.runMany.
  set (runOf := fun (i : nat) (input : value) =>
                  snd (Quantam.run fuel h this input (flowOptions <$> options) (starts i))).
  assert (forall i x, runOf i x = match Quantam.steps this with
                                  | [] => Resolved x
                                  | _ :: _ => Rejected pipelineAborted
                                  end) as Hrun.
  { intros i x. subst runOf. cbn beta.
    now rewrite (run_aborted_at_start fuel h this x (flowOptions <$> options) (starts i) (Hab i)). }
  destruct inputs as [|x0 xs] eqn:Hin; [reflexivity|]. rewrite <- Hin.
  destruct (Quantam.steps this) as [|l locs] eqn:Hsteps.
  - rewrite (batch_resolves runOf inputs); [|intros i x _; rewrite Hrun; eauto].
    f_equal. rewrite (imap_ext _ (const id)).
    + rewrite imap_const. apply list_fmap_id.
    + intros i x _. unfold valueOfRun. now rewrite Hrun.
  - destruct (batch_rejects runOf inputs (options ≫= concurrency) sched 0%nat x0 pipelineAborted)
      as [e' He'].
    + intros j y _. rewrite Hrun. discriminate.
    + now rewrite Hin.
    + apply Hrun.
    + rewrite He'. f_equal.
      destruct (batch_rejected runOf inputs _ _ _ He') as (i & x & _ & Hx).
      rewrite Hrun in Hx. congruence.
Qed.

(** The sixteen inputs with four workers and a signal aborted from the
    start. *)
Lemma runMany_under_an_aborted_signal_witness :
  Quantam.runMany 0 (snd flowA) (fst flowA) sixteen
    (Some {| flowOptions := {| opt_signal := Some abortedSignal |}; concurrency := Some 4 |})
    someStarts someOrder
  = Rejected pipelineAborted.
Proof.
  apply (runMany_under_an_aborted_signal 0 (snd flowA) (fst flowA) sixteen
           (Some {| flowOptions := {| opt_signal := Some abortedSignal |};
                    concurrency := Some 4 |}) someStarts someOrder).
  intros i. unfold Quantam.aborted, runSignal, someStarts, abortedSignal.
  cbn [fmap option_fmap option_map flowOptions opt_signal mbind option_bind abortedAt].
  apply Z.leb_le. lia.
Defined.

(** ** The tests of the repository, run on the embedding *)

(** [runs basic sequential pipeline]: the result is 4. *)
Example test_basic_pipeline :
  resultOf (Quantam.run 0 (snd flowBasic) (fst flowBasic) (VNum 1) None 0)
  = Resolved (VNum 4).
Proof. reflexivity. Qed.

(** [retries and exposes retryCount]: the result is 3 after 3 attempts,
    with backoff sleeps of 1 and 2 ms. *)
Example test_retry_count :
  let out := Quantam.run 0 (snd flowTransient) (fst flowTransient) (VNum 1) None 0 in
  resultOf out = Resolved (VNum 3) /\
  invocations (traceOf out) = 3%nat /\
  backoffs (traceOf out) = [1; 2].
Proof. repeat split. Qed.

(** [stepTimeout rejects slow step]: the error message matches /Timeout/. *)
Example test_step_timeout :
  resultOf (Quantam.run 0 (snd flowSlow) (fst flowSlow) (VNum 1) None 0)
  = Rejected (mkError "Timeout after 5ms").
Proof. reflexivity. Qed.

(** A group resolves with the values of its members in member order,
    whichever member finishes first. *)
Example test_group_order :
  resultOf (Quantam.executeParallelSteps 4 Quantam.quantam [slow; increment; double]
              (VNum 5) (startState None 0) 0 100 None)
  = Resolved (VArr [VNum 6; VNum 6; VNum 10]).
Proof. reflexivity. Qed.
